(** * Reachability-based safety override: value functions, unions and
      the intervention controller

    A shallow embedding of the value-function engine of the repository
    (sourceJS/reachable_sets.js, sourceJS/controllers.js,
    sourceJS/robot_dynamics.js and the obstacle classes) together with the
    properties its specification states about it.

    Number model.  A JavaScript number is read as an exact rational ([Q]);
    comparisons are the exact ones.  Where the JavaScript evaluation leaves
    the finite numbers (an [undefined] operand, [NaN], a division by zero or
    a thrown [TypeError]) the embedding answers [None].  The one place where
    the rounding and the special values of binary64 are the very subject,
    the gradients at singular points, is embedded a second time over the
    primitive binary64 floats in module [IEEE]. *)

From Stdlib Require Import List ZArith QArith Qabs Qround Qminmax Lia Lqa Bool.
From Stdlib Require Floats.
Import ListNotations.
Local Open Scope Q_scope.

(** ** JavaScript helpers *)

(** [x < y] on numbers, as a boolean. *)
Definition Qltb (x y : Q) : bool := negb (Qle_bool y x).

(** A JavaScript array that may have holes: a hole, like an index past the
    end, reads as [undefined] ([None]). *)
Definition jsarray (A : Type) := list (option A).

(** [a[i]]. *)
Definition js_get {A : Type} (a : jsarray A) (i : nat) : option A :=
  match nth_error a i with
  | Some (Some v) => Some v
  | _ => None
  end.

(** [a[i] = v]: an assignment past the end extends the array, leaving holes
    in between. *)
Fixpoint js_set {A : Type} (a : jsarray A) (i : nat) (v : A) : jsarray A :=
  match i, a with
  | O, [] => [Some v]
  | O, _ :: t => Some v :: t
  | S j, [] => None :: js_set [] j v
  | S j, h :: t => h :: js_set t j v
  end.

(** [a[i] == false] and [a[i] == true] on an array of booleans: an
    [undefined] entry is loosely equal to neither. *)
Definition is_false (a : list bool) (i : nat) : bool :=
  match nth_error a i with
  | Some false => true
  | _ => false
  end.

Definition is_true (a : list bool) (i : nat) : bool :=
  match nth_error a i with
  | Some true => true
  | _ => false
  end.

(** ** reachable_sets.js: safe sets *)

(** The [SafeSet] 'virtual' class: anything answering [value(states)] and
    [gradV(states)]. *)
Module SafeSet.

Record t : Type := Build {
  value : list Q -> Q;
  gradV : list Q -> list Q
}.

End SafeSet.

Module UnionedSafeSet.

Record t : Type := Build {
  setA : SafeSet.t;
  setB : SafeSet.t
}.

Definition value (this : t) (states : list Q) : Q :=
  let valueA := SafeSet.value (setA this) states in
  let valueB := SafeSet.value (setB this) states in
  if Qltb valueA valueB then valueA else valueB.

Definition gradV (this : t) (states : list Q) : list Q :=
  let valueA := SafeSet.value (setA this) states in
  let valueB := SafeSet.value (setB this) states in
  if Qltb valueA valueB
  then SafeSet.gradV (setA this) states
  else SafeSet.gradV (setB this) states.

(** A union is a safe set again ([extends SafeSet]). *)
Definition as_SafeSet (this : t) : SafeSet.t :=
  SafeSet.Build (value this) (gradV this).

End UnionedSafeSet.

(** *** [loaded_SafeSet]: a value function on a grid *)

Module loaded_SafeSet.

(** The nested arrays of [reachset.data]. *)
#[warnings="-register-all"]
Inductive nest : Type :=
| Num (v : Q)
| Arr (elems : list nest).

(** The loaded JSON: per-axis lower bound, spacing, point count and
    periodicity flag, and the values on the grid. *)
Record reachset : Type := Build {
  gmin : list Q;
  gdx : list Q;
  gN : list Z;
  gperiodicity : list bool;
  data : nest
}.

(** [ToInt32], which the operands of [&] go through. *)
Definition toInt32 (z : Z) : Z :=
  let m := (z mod 2 ^ 32)%Z in
  if (2 ^ 31 <=? m)%Z then (m - 2 ^ 32)%Z else m.

(** [corner & Math.pow(2,xDim)] as a condition. *)
Definition bit_set (corner : Z) (xDim : nat) : bool :=
  negb (Z.land (toInt32 corner) (toInt32 (2 ^ Z.of_nat xDim)) =? 0)%Z.

(** [for(var xDim=0;xDim<states.length;xDim++) a[xDim] = body(xDim)]: the
    array the loop fills, or [None] as soon as one entry is not a finite
    number. *)
Fixpoint for_each {A : Type} (body : nat -> option A) (xDims : list nat)
  : option (list A) :=
  match xDims with
  | [] => Some []
  | xDim :: rest =>
      match body xDim, for_each body rest with
      | Some a, Some l => Some (a :: l)
      | _, _ => None
      end
  end.

(** [(states[xDim]-gmin[xDim])/gdx[xDim]]: not a finite number when the
    axis has no lower bound or spacing, or when the spacing is zero.  The
    quotient here is the exact one, where the code has the binary64
    quotient of the binary64 difference: the two name the same cell on the
    grids of [exact_axes] below.  With a zero spacing the code goes on
    with an infinity or [NaN], which [nearIndices] under [gridwrap] clamps
    on an axis that is not periodic; the model stops at the quotient, and
    [value], which divides by the product of the spacings, is not a finite
    number either way. *)
Definition quotient (this : reachset) (states : list Q) (xDim : nat)
  : option Q :=
  match nth_error states xDim, nth_error (gmin this) xDim,
        nth_error (gdx this) xDim with
  | Some s, Some m, Some dx =>
      if Qeq_bool dx 0 then None else Some ((s - m) / dx)
  | _, _, _ => None
  end.

(** [gperiodicity[xDim]] as a condition: [undefined] is falsy. *)
Definition periodic (this : reachset) (xDim : nat) : bool :=
  match nth_error (gperiodicity this) xDim with
  | Some b => b
  | None => false
  end.

(** The periodic branch: [if(i < 0) i += N; if(i >= N) i -= N]. *)
Definition wrap (N : option Z) (i : Z) : option Z :=
  match N with
  | Some n =>
      let i := if (i <? 0)%Z then (i + n)%Z else i in
      Some (if (n <=? i)%Z then (i - n)%Z else i)
  | None => if (i <? 0)%Z then None else Some i
  end.

(** The other branch: [if(i < 0) i = 0; if(i >= N) i = N-1]. *)
Definition clamp (N : option Z) (i : Z) : Z :=
  let i := if (i <? 0)%Z then 0%Z else i in
  match N with
  | Some n => if (n <=? i)%Z then (n - 1)%Z else i
  | None => i
  end.

(** Bringing one index of axis [xDim] back into the grid. *)
Definition into_grid (this : reachset) (xDim : nat) (i : Z) : option Z :=
  if periodic this xDim then wrap (nth_error (gN this) xDim) i
  else Some (clamp (nth_error (gN this) xDim) i).

Definition lowEdge (this : reachset) (states : list Q) (gridwrap : bool)
  (xDim : nat) : option Z :=
  match quotient this states xDim with
  | Some q =>
      if gridwrap then into_grid this xDim (Qfloor q) else Some (Qfloor q)
  | None => None
  end.

Definition highEdge (this : reachset) (states : list Q) (gridwrap : bool)
  (xDim : nat) : option Z :=
  match quotient this states xDim with
  | Some q =>
      if gridwrap then into_grid this xDim (Qceiling q)
      else Some (Qceiling q)
  | None => None
  end.

(** [nearIndices(_states,gridwrap)]: [[lowEdgeIndex,highEdgeIndex]]. *)
Definition nearIndices (this : reachset) (_states : list Q) (gridwrap : bool)
  : option (list Z * list Z) :=
  let xDims := seq 0 (length _states) in
  match for_each (lowEdge this _states gridwrap) xDims,
        for_each (highEdge this _states gridwrap) xDims with
  | Some lowEdgeIndex, Some highEdgeIndex =>
      Some (lowEdgeIndex, highEdgeIndex)
  | _, _ => None
  end.

(** [indexToState(index,dim)]. *)
Definition indexToState (this : reachset) (index : Z) (dim : nat)
  : option Q :=
  match nth_error (gdx this) dim, nth_error (gmin this) dim with
  | Some dx, Some m => Some (inject_Z index * dx + m)
  | _, _ => None
  end.

(** The first loop of [value]: the distances to the two corners along axis
    [xDim], with the case of a point on a grid line. *)
Definition distanceToLower (this : reachset) (states : list Q)
  (lowEdgeIndex highEdgeIndex : list Z) (xDim : nat) : option Q :=
  match nth_error states xDim, nth_error lowEdgeIndex xDim,
        nth_error highEdgeIndex xDim with
  | Some s, Some lo, Some hi =>
      match indexToState this lo xDim with
      | Some x => Some (if (lo =? hi)%Z then 1 else s - x)
      | None => None
      end
  | _, _, _ => None
  end.

Definition distanceToHigher (this : reachset) (states : list Q)
  (lowEdgeIndex highEdgeIndex : list Z) (xDim : nat) : option Q :=
  match nth_error states xDim, nth_error lowEdgeIndex xDim,
        nth_error highEdgeIndex xDim with
  | Some s, Some lo, Some hi =>
      match indexToState this hi xDim with
      | Some x => Some (if (lo =? hi)%Z then 0 else x - s)
      | None => None
      end
  | _, _, _ => None
  end.

(** The second loop of [value], on one of the two index arrays. *)
Definition wrapped (this : reachset) (edgeIndex : list Z) (xDim : nat)
  : option Z :=
  match nth_error edgeIndex xDim with
  | Some i => into_grid this xDim i
  | None => None
  end.

(** [cornerValue[i]]: an index outside the array, and any index of a
    number, reads [undefined]. *)
Definition js_index (cornerValue : nest) (i : Z) : option nest :=
  match cornerValue with
  | Arr elems => if (i <? 0)%Z then None else nth_error elems (Z.to_nat i)
  | Num _ => None
  end.

(** The inner loop over the axes for one corner: the volume and the value at
    the corner. *)
Fixpoint corner_walk (distLower distHigher : list Q)
  (lowEdgeIndex highEdgeIndex : list Z) (corner : Z) (xDims : list nat)
  (volume : Q) (cornerValue : nest) : option (Q * nest) :=
  match xDims with
  | [] => Some (volume, cornerValue)
  | xDim :: rest =>
      match (if bit_set corner xDim
             then (nth_error distLower xDim, nth_error highEdgeIndex xDim)
             else (nth_error distHigher xDim, nth_error lowEdgeIndex xDim))
      with
      | (Some d, Some i) =>
          match js_index cornerValue i with
          | Some c =>
              corner_walk distLower distHigher lowEdgeIndex highEdgeIndex
                corner rest (volume * d) c
          | None => None
          end
      | _ => None
      end
  end.

(** [cornerValue] as an operand of [*]: a number is itself; an array is
    converted through its string, so that the empty array is 0, an array of
    one element is what that element converts to, and a longer array is
    [NaN]. *)
Fixpoint to_number (cornerValue : nest) : option Q :=
  match cornerValue with
  | Num v => Some v
  | Arr [] => Some 0
  | Arr [e] => to_number e
  | Arr _ => None
  end.

(** [volume * cornerValue] for one corner.  [data.slice()] needs an array;
    where the data is nested deeper than the state is long, the walk ends
    on an array, which the product converts to a number. *)
Definition corner_term (this : reachset) (D : nat)
  (distLower distHigher : list Q) (lowEdgeIndex highEdgeIndex : list Z)
  (corner : Z) : option Q :=
  match data this with
  | Arr elems =>
      match corner_walk distLower distHigher lowEdgeIndex highEdgeIndex
              corner (seq 0 D) 1 (Arr elems) with
      | Some (volume, cornerValue) =>
          match to_number cornerValue with
          | Some v => Some (volume * v)
          | None => None
          end
      | None => None
      end
  | Num _ => None
  end.

(** The corners [0 .. Math.pow(2,states.length) - 1]. *)
Definition corners (D : nat) : list Z := map Z.of_nat (seq 0 (2 ^ D)).

(** The running weighted sum over the corners. *)
Definition weighted_sum (this : reachset) (D : nat)
  (distLower distHigher : list Q) (lowEdgeIndex highEdgeIndex : list Z)
  : option Q :=
  fold_left
    (fun value corner =>
       match value, corner_term this D distLower distHigher
                      lowEdgeIndex highEdgeIndex corner with
       | Some v, Some t => Some (v + t)
       | _, _ => None
       end)
    (corners D) (Some 0).

(** [total_volume]: the product of the spacings. *)
Definition total_volume (this : reachset) (D : nat) : option Q :=
  fold_left
    (fun total xDim =>
       match total, nth_error (gdx this) xDim with
       | Some t, Some dx => Some (t * dx)
       | _, _ => None
       end)
    (seq 0 D) (Some 1).

(** [value(states)]. *)
Definition value (this : reachset) (states : list Q) : option Q :=
  let D := length states in
  let xDims := seq 0 D in
  match nearIndices this states false with
  | Some (lowEdgeIndex, highEdgeIndex) =>
      match
        for_each (distanceToLower this states lowEdgeIndex highEdgeIndex)
          xDims,
        for_each (distanceToHigher this states lowEdgeIndex highEdgeIndex)
          xDims,
        for_each (wrapped this lowEdgeIndex) xDims,
        for_each (wrapped this highEdgeIndex) xDims
      with
      | Some distLower, Some distHigher, Some lowEdgeIndex,
        Some highEdgeIndex =>
          match weighted_sum this D distLower distHigher
                  lowEdgeIndex highEdgeIndex,
                total_volume this D with
          | Some value, Some total =>
              if Qeq_bool total 0 then None else Some (value / total)
          | _, _ => None
          end
      | _, _, _, _ => None
      end
  | None => None
  end.

(** [griddedValue(index)]. *)
Definition griddedValue (this : reachset) (index : list Z) : option Q :=
  match data this with
  | Arr elems =>
      match fold_left
              (fun indexedValue i =>
                 match indexedValue with
                 | Some c => js_index c i
                 | None => None
                 end)
              index (Some (Arr elems)) with
      | Some (Num v) => Some v
      | _ => None
      end
  | Num _ => None
  end.

End loaded_SafeSet.

(** ** robot_dynamics.js *)

Module Robot.

(** A robot: its state vector and its control-coefficient matrix, one row
    per control input ([controlCoefficient()] is a method so that it may
    depend on the state). *)
Record t : Type := Build {
  states : list Q;
  coefficient : list Q -> list (list Q)
}.

Definition controlCoefficient (this : t) : list (list Q) :=
  coefficient this (states this).

Definition QuadrotorRobot (initial_state : list Q) : t :=
  Build initial_state (fun _ => [[0; 1; 0; 0]; [0; 0; 0; 1]]).

Definition VerticalQuadrotorRobot (initial_state : list Q) : t :=
  Build initial_state (fun _ => [[0; 1]]).

Definition DubinsRobot (initial_state : list Q) : t :=
  Build initial_state (fun _ => [[0; 0; 1]]).

End Robot.

(** ** controllers.js *)

Module Safe_Contr.

Record t : Type := Build { maxU : Q }.

(** [dotProduct(a,b)]: the running sum over the indices of [a]; an index
    past the end of [b] reads [undefined] and turns the sum into [NaN]. *)
Definition dotProduct (a b : list Q) : option Q :=
  fold_left
    (fun sum i =>
       match sum, nth_error a i, nth_error b i with
       | Some s, Some x, Some y => Some (s + x * y)
       | _, _, _ => None
       end)
    (seq 0 (length a)) (Some 0).

(** [d > 0] and [d < 0] for a number that may be [NaN]. *)
Definition gt0 (d : option Q) : bool :=
  match d with Some q => Qltb 0 q | None => false end.

Definition lt0 (d : option Q) : bool :=
  match d with Some q => Qltb q 0 | None => false end.

(** One pass of the loop body for control output [curU]. *)
Definition u_step (this : t) (robot : Robot.t) (momentum : list Q)
  (u_out : jsarray Q) (curU : nat) : jsarray Q :=
  let row := nth curU (Robot.controlCoefficient robot) [] in
  let u_out :=
    if gt0 (dotProduct row momentum) then js_set u_out curU (maxU this)
    else u_out in
  if lt0 (dotProduct row momentum) then js_set u_out curU (- maxU this)
  else u_out.

(** [u(momentum)]: [u_out] starts as the empty array. *)
Definition u (this : t) (robot : Robot.t) (momentum : list Q) : jsarray Q :=
  fold_left (u_step this robot momentum)
    (seq 0 (length (Robot.controlCoefficient robot))) [].

End Safe_Contr.

(** The [Controller] 'virtual' class as the intervention controller uses its
    tracker: [u()] reads the robot and answers a control vector; a tracker
    with memory (the PD controller's [lastU]) also updates that memory. *)
Module Controller.

Record t (Mem : Type) : Type := Build {
  u : Robot.t -> Mem -> jsarray Q * Mem
}.
Arguments u {Mem} _ _ _.
Arguments Build {Mem} _.

(** [Zero_Contr]: the controller that does nothing. *)
Definition Zero_Contr : t unit := Build (fun _ m => ([Some 0], m)).

End Controller.

Module Intervention_Contr.

(** The robot, which every controller holds a reference to, is passed to
    [u] together with the tracker's memory. *)
Record t (Mem : Type) : Type := Build {
  tracker : Controller.t Mem;
  safer : Safe_Contr.t;
  intervening_set : SafeSet.t;
  trigger_level : Q
}.
Arguments tracker {Mem} _.
Arguments safer {Mem} _.
Arguments intervening_set {Mem} _.
Arguments trigger_level {Mem} _.
Arguments Build {Mem} _ _ _ _.

(** The constructor: the trigger level starts at 0 and is set afterwards
    (the padding for the robot's width). *)
Definition new {Mem : Type} (_safeset : SafeSet.t) (_maxU _maxD : Q)
  (_tracker : Controller.t Mem) : t Mem :=
  Build _tracker (Safe_Contr.Build _maxU) _safeset 0.

Definition u {Mem : Type} (this : t Mem) (robot : Robot.t) (mem : Mem)
  : jsarray Q * Mem :=
  if Qltb (SafeSet.value (intervening_set this) (Robot.states robot))
          (trigger_level this)
  then (Safe_Contr.u (safer this) robot
          (SafeSet.gradV (intervening_set this) (Robot.states robot)), mem)
  else Controller.u (tracker this) robot mem.

End Intervention_Contr.

(** ** Obstacles *)

(** The obstacle interface as the obstacle landscape uses it: the safety
    value and gradient of the avoid set selected by [setID], and the value of
    the collision footprint, all in global coordinates. *)
Module Obstacle.

Record t : Type := Build {
  value : nat -> list Q -> Q;
  gradV : nat -> list Q -> list Q;
  collisionSetValue : list Q -> Q
}.

End Obstacle.

Module Obstaclescape.

Record t : Type := Build {
  obstacles : list Obstacle.t;
  obstacleDestroyed : list bool;
  obstacleUndetected : list bool
}.

(** The constructor: every obstacle starts neither destroyed nor
    undetected. *)
Definition new (_obstacles : list Obstacle.t) : t :=
  Build _obstacles
        (repeat false (length _obstacles))
        (repeat false (length _obstacles)).

(** The loop of [value(setID,states)] from obstacle number [obNum] on, [rest]
    being the obstacles not yet visited. *)
Fixpoint value_loop (this : t) (setID : nat) (states : list Q)
  (rest : list Obstacle.t) (obNum : nat) (curMinValue : Q) : Q :=
  match rest with
  | [] => curMinValue
  | ob :: rest' =>
      let curMinValue :=
        if is_false (obstacleDestroyed this) obNum
           && is_false (obstacleUndetected this) obNum
        then
          let obsValue := Obstacle.value ob setID states in
          if Qltb obsValue curMinValue then obsValue else curMinValue
        else curMinValue in
      value_loop this setID states rest' (S obNum) curMinValue
  end.

Definition value (this : t) (setID : nat) (states : list Q) : Q :=
  value_loop this setID states (obstacles this) 0 100.

(** The loop of [collisionSetValue(states)]: the running minimum and the
    obstacle that set it. *)
Fixpoint collision_loop (this : t) (states : list Q)
  (rest : list Obstacle.t) (obNum : nat) (cur : Q * nat) : Q * nat :=
  match rest with
  | [] => cur
  | ob :: rest' =>
      let '(curMinValue, curMinOb) := cur in
      let cur :=
        if is_false (obstacleDestroyed this) obNum
           && is_true (obstacleUndetected this) obNum
        then
          let obsValue := Obstacle.collisionSetValue ob states in
          if Qltb obsValue curMinValue then (obsValue, obNum)
          else (curMinValue, curMinOb)
        else (curMinValue, curMinOb) in
      collision_loop this states rest' (S obNum) cur
  end.

Definition collisionSetValue (this : t) (states : list Q) : Q * nat :=
  collision_loop this states (obstacles this) 0 (100, 0%nat).

(** The loop of [gradV(setID,states)]: the running minimum and the dominant
    obstacle. *)
Fixpoint dominant_loop (this : t) (setID : nat) (states : list Q)
  (rest : list Obstacle.t) (obNum : nat) (cur : Q * nat) : Q * nat :=
  match rest with
  | [] => cur
  | ob :: rest' =>
      let '(curMinValue, dominantObstacle) := cur in
      let cur :=
        if is_false (obstacleDestroyed this) obNum
           && is_false (obstacleUndetected this) obNum
        then
          let obsValue := Obstacle.value ob setID states in
          if Qltb obsValue curMinValue then (obsValue, obNum)
          else (curMinValue, dominantObstacle)
        else (curMinValue, dominantObstacle) in
      dominant_loop this setID states rest' (S obNum) cur
  end.

(** [gradV(setID,states)]: [None] is the [TypeError] of reading [gradV] off
    [obstacles[dominantObstacle]] when that entry is [undefined]. *)
Definition gradV (this : t) (setID : nat) (states : list Q)
  : option (list Q) :=
  let dominantObstacle :=
    snd (dominant_loop this setID states (obstacles this) 0 (100, 0%nat)) in
  match nth_error (obstacles this) dominantObstacle with
  | Some ob => Some (Obstacle.gradV ob setID states)
  | None => None
  end.

(** The obstacles that take part in the union: [destroyed == false] and
    [undetected == false]. *)
Definition eligible (this : t) (obNum : nat) : bool :=
  is_false (obstacleDestroyed this) obNum
  && is_false (obstacleUndetected this) obNum.

(** The obstacles that take part in collision detection:
    [destroyed == false] and [undetected == true]. *)
Definition hazard (this : t) (obNum : nat) : bool :=
  is_false (obstacleDestroyed this) obNum
  && is_true (obstacleUndetected this) obNum.

End Obstaclescape.

(** ** The analytic sets over binary64 *)

(** The two analytic sets whose gradient divides by a norm, embedded over
    the primitive binary64 floats: [+], [*], [/] and [sqrt] are the IEEE 754
    operations that JavaScript numbers have, with their [NaN] and
    infinities. *)
Module IEEE.

Import Floats.
Local Open Scope float_scope.

(** [states[i]]: past the end of the array the read is [undefined], which
    the arithmetic below turns into [NaN]. *)
Definition at_index (states : list float) (i : nat) : float :=
  nth i states nan.

(** [Math.pow(x,2)] and [Math.pow(x,0.5)], read as the correctly rounded
    square and square root.  ECMAScript leaves [Math.pow] approximate on
    ordinary operands and fixes it on the special ones, where these agree
    with it whenever the base of the square root is not negative:
    [pow(+-0,2) = +0], [pow(+0,0.5) = +0], and [NaN] and [+Infinity] are
    kept. *)
Definition pow2 (x : float) : float := x * x.
Definition pow_half (x : float) : float := sqrt x.

Module dubinsCircle_Set.

Record t : Type := Build { radius : float }.

Definition norm (states : list float) : float :=
  pow_half (pow2 (at_index states 0) + pow2 (at_index states 1)).

Definition value (this : t) (states : list float) : float :=
  norm states - radius this.

Definition gradV (this : t) (states : list float) : list float :=
  let norm := norm states in
  [at_index states 0 / norm; at_index states 1 / norm; 0].

End dubinsCircle_Set.

Module dubIntInterval_Set.

Record t : Type := Build { width : float }.

Definition value (this : t) (states : list float) : float :=
  abs (at_index states 0) - width this.

Definition gradV (this : t) (states : list float) : list float :=
  let norm := abs (at_index states 0) in
  [at_index states 0 / norm; 0].

End dubIntInterval_Set.

(** A vector of finite numbers: no component is [NaN] or an infinity. *)
Definition finite_vector (v : list float) : bool := forallb is_finite v.

End IEEE.

(** ** Properties *)

Lemma Qltb_lt (x y : Q) : Qltb x y = true <-> x < y.
Proof.
  unfold Qltb. rewrite negb_true_iff.
  destruct (Qle_bool y x) eqn:E.
  - apply Qle_bool_iff in E. split; [discriminate | intro H; exfalso; lra].
  - split; [intros _ | reflexivity].
    destruct (Qlt_le_dec x y) as [H | H]; [exact H |].
    apply Qle_bool_iff in H. congruence.
Qed.

Lemma Qltb_ge (x y : Q) : Qltb x y = false <-> y <= x.
Proof.
  destruct (Qltb x y) eqn:E.
  - apply Qltb_lt in E. split; [discriminate | intro H; exfalso; lra].
  - split; [intros _ | reflexivity].
    destruct (Qlt_le_dec x y) as [H | H]; [| exact H].
    apply Qltb_lt in H. congruence.
Qed.

(** *** Unions *)

(** C2. For all safe sets A and B and every state s, the value of the union
    is the minimum of the two values, and its gradient is A's where A's
    value is strictly the smaller and B's otherwise, so that a tie goes to
    B. *)
Theorem UnionedSafeSet_min (A B : SafeSet.t) (s : list Q) :
  let U := UnionedSafeSet.Build A B in
  UnionedSafeSet.value U s == Qmin (SafeSet.value A s) (SafeSet.value B s)
  /\ (SafeSet.value A s < SafeSet.value B s ->
      UnionedSafeSet.gradV U s = SafeSet.gradV A s)
  /\ (~ SafeSet.value A s < SafeSet.value B s ->
      UnionedSafeSet.gradV U s = SafeSet.gradV B s)
  /\ (SafeSet.value A s == SafeSet.value B s ->
      UnionedSafeSet.gradV U s = SafeSet.gradV B s).
Proof.
  cbv zeta. unfold UnionedSafeSet.value, UnionedSafeSet.gradV. simpl.
  destruct (Qltb (SafeSet.value A s) (SafeSet.value B s)) eqn:E.
  - apply Qltb_lt in E. repeat split.
    + symmetry. apply Q.min_l. lra.
    + intro H. contradiction.
    + intro H. rewrite H in E. exfalso. lra.
  - apply Qltb_ge in E. repeat split.
    + symmetry. apply Q.min_r. exact E.
    + intro H. exfalso. lra.
Qed.

(** *** The safe controller *)

Section ArrayFacts.

Context {A : Type}.

Lemma js_get_nil (i : nat) : js_get ([] : jsarray A) i = None.
Proof. unfold js_get. destruct i; reflexivity. Qed.

Lemma js_get_set_same (a : jsarray A) (i : nat) (v : A) :
  js_get (js_set a i v) i = Some v.
Proof.
  revert a. induction i as [| i IH]; intros [| h t]; simpl;
    try reflexivity; apply IH.
Qed.

Lemma js_get_set_other (a : jsarray A) (i j : nat) (v : A) :
  i <> j -> js_get (js_set a i v) j = js_get a j.
Proof.
  revert a j. induction i as [| i IH]; intros [| h t] [| j] Hij; simpl;
    try reflexivity; try congruence.
  - rewrite js_get_nil. destruct j; reflexivity.
  - unfold js_get in *. simpl.
    specialize (IH [] j). simpl in IH. rewrite IH by congruence.
    destruct j; reflexivity.
  - unfold js_get in *. simpl. apply IH. congruence.
Qed.

End ArrayFacts.

(** What the loop body leaves at index [i] of [u_out] for a dot product
    [d]. *)
Definition bang (maxU : Q) (d : option Q) : option Q :=
  if Safe_Contr.lt0 d then Some (- maxU)
  else if Safe_Contr.gt0 d then Some maxU
  else None.

Lemma u_step_same (this : Safe_Contr.t) (robot : Robot.t)
  (momentum : list Q) (u_out : jsarray Q) (i : nat) :
  js_get u_out i = None ->
  js_get (Safe_Contr.u_step this robot momentum u_out i) i =
  bang (Safe_Contr.maxU this)
    (Safe_Contr.dotProduct (nth i (Robot.controlCoefficient robot) [])
       momentum).
Proof.
  intro H. unfold Safe_Contr.u_step, bang.
  destruct (Safe_Contr.lt0 _), (Safe_Contr.gt0 _);
    rewrite ?js_get_set_same; auto.
Qed.

Lemma u_step_other (this : Safe_Contr.t) (robot : Robot.t)
  (momentum : list Q) (u_out : jsarray Q) (i j : nat) :
  i <> j ->
  js_get (Safe_Contr.u_step this robot momentum u_out i) j = js_get u_out j.
Proof.
  intro H. unfold Safe_Contr.u_step.
  destruct (Safe_Contr.lt0 _), (Safe_Contr.gt0 _);
    rewrite ?js_get_set_other by exact H; reflexivity.
Qed.

Lemma u_loop_read (this : Safe_Contr.t) (robot : Robot.t)
  (momentum : list Q) (len start : nat) (u_out : jsarray Q) (i : nat) :
  (forall j, (start <= j)%nat -> js_get u_out j = None) ->
  js_get (fold_left (Safe_Contr.u_step this robot momentum)
            (seq start len) u_out) i =
  if (start <=? i)%nat && (i <? start + len)%nat
  then bang (Safe_Contr.maxU this)
         (Safe_Contr.dotProduct (nth i (Robot.controlCoefficient robot) [])
            momentum)
  else js_get u_out i.
Proof.
  revert start u_out. induction len as [| len IH]; intros start u_out Hfresh.
  - simpl. replace (i <? start + 0)%nat with (i <? start)%nat
      by (f_equal; lia).
    destruct (start <=? i)%nat eqn:E1, (i <? start)%nat eqn:E2;
      try reflexivity.
    apply Nat.leb_le in E1. apply Nat.ltb_lt in E2. lia.
  - simpl. rewrite IH.
    + destruct (Nat.eq_dec start i) as [-> | Hne].
      * replace (S i <=? i)%nat with false by (symmetry; apply Nat.leb_gt; lia).
        replace (i <=? i)%nat with true by (symmetry; apply Nat.leb_le; lia).
        replace (i <? i + S len)%nat with true
          by (symmetry; apply Nat.ltb_lt; lia).
        simpl. apply u_step_same. apply Hfresh. lia.
      * rewrite u_step_other by exact Hne.
        replace (i <? S start + len)%nat with (i <? start + S len)%nat
          by (f_equal; lia).
        destruct (S start <=? i)%nat eqn:E1, (start <=? i)%nat eqn:E2;
          try reflexivity.
        -- apply Nat.leb_le in E1. apply Nat.leb_gt in E2. lia.
        -- apply Nat.leb_gt in E1. apply Nat.leb_le in E2. lia.
    + intros j Hj. rewrite u_step_other by lia. apply Hfresh. lia.
Qed.

(** X1: What [Safe_Contr.u] leaves on every control axis: [+maxU] for a positive
    dot product, [-maxU] for a negative one, and no entry at all
    ([undefined]) for a dot product that is zero. *)
Lemma Safe_Contr_u_axis (this : Safe_Contr.t) (robot : Robot.t)
  (momentum : list Q) (i : nat) (row : list Q) :
  nth_error (Robot.controlCoefficient robot) i = Some row ->
  js_get (Safe_Contr.u this robot momentum) i =
  match Safe_Contr.dotProduct row momentum with
  | Some d =>
      if Qltb 0 d then Some (Safe_Contr.maxU this)
      else if Qltb d 0 then Some (- Safe_Contr.maxU this)
      else None
  | None => None
  end.
Proof.
  intro Hrow. unfold Safe_Contr.u.
  rewrite u_loop_read by (intros; apply js_get_nil).
  assert (Hi : (i < length (Robot.controlCoefficient robot))%nat)
    by (apply nth_error_Some; congruence).
  simpl. replace (i <? _)%nat with true by (symmetry; apply Nat.ltb_lt; lia).
  simpl. rewrite (nth_error_nth _ _ _ Hrow).
  unfold bang, Safe_Contr.lt0, Safe_Contr.gt0.
  destruct (Safe_Contr.dotProduct row momentum) as [d |]; [| reflexivity].
  destruct (Qltb d 0) eqn:E1, (Qltb 0 d) eqn:E2; try reflexivity.
  apply Qltb_lt in E1, E2. exfalso. lra.
Qed.

(** C3, at the quadrotor with momentum [0,0,0,1] and [maxU = 1]: the first
    row of the control-coefficient matrix has dot product zero with the
    momentum, and [u_out[0]] is left [undefined] (a hole before the entry that
    the second axis sets), where the claim has the number 0. *)
Theorem Safe_Contr_u_zero_dot :
  let this := Safe_Contr.Build 1 in
  let robot := Robot.QuadrotorRobot [0; 0; 0; 0] in
  let momentum := [0; 0; 0; 1] in
  Safe_Contr.dotProduct [0; 1; 0; 0] momentum = Some 0
  /\ Safe_Contr.u this robot momentum = [None; Some 1]
  /\ js_get (Safe_Contr.u this robot momentum) 0 = None
  /\ js_get (Safe_Contr.u this robot momentum) 0 <> Some 0.
Proof.
  cbv zeta. repeat split; try reflexivity. discriminate.
Qed.

(** *** The intervention controller *)

(** C4. On every tick the intervention controller answers the safe
    controller's output for the gradient at the robot's state exactly when
    the safety value there is strictly below [trigger_level], and otherwise
    the tracker's output unmodified; with [trigger_level = 0.1] a value of
    0.05 takes the override branch and a value of 0.2 the tracking branch. *)
Theorem Intervention_Contr_switch (Mem : Type)
  (this : Intervention_Contr.t Mem) (robot : Robot.t) (mem : Mem) :
  let set := Intervention_Contr.intervening_set this in
  let v := SafeSet.value set (Robot.states robot) in
  let override :=
    (Safe_Contr.u (Intervention_Contr.safer this) robot
       (SafeSet.gradV set (Robot.states robot)), mem) in
  let tracking := Controller.u (Intervention_Contr.tracker this) robot mem in
  (v < Intervention_Contr.trigger_level this ->
   Intervention_Contr.u this robot mem = override)
  /\ (~ v < Intervention_Contr.trigger_level this ->
      Intervention_Contr.u this robot mem = tracking)
  /\ (Intervention_Contr.trigger_level this == 1 # 10 -> v == 1 # 20 ->
      Intervention_Contr.u this robot mem = override)
  /\ (Intervention_Contr.trigger_level this == 1 # 10 -> v == 2 # 10 ->
      Intervention_Contr.u this robot mem = tracking).
Proof.
  cbv zeta. unfold Intervention_Contr.u.
  destruct (Qltb _ _) eqn:E.
  - apply Qltb_lt in E. repeat split; auto.
    + intro H. contradiction.
    + intros Ht Hv. rewrite Ht, Hv in E. exfalso. revert E. compute. discriminate.
  - apply Qltb_ge in E. repeat split; auto.
    + intro H. exfalso. lra.
    + intros Ht Hv. rewrite Ht, Hv in E. exfalso. apply E. reflexivity.
Qed.

(** The scenario of C4 on a Dubins car whose tracker is [Zero_Contr] and
    whose safe set is a constant: the two branches answer different control
    vectors, so the switch is observable. *)
Example Intervention_Contr_scenario :
  let robot := Robot.DubinsRobot [0; 0; 0] in
  let contr v :=
    Intervention_Contr.Build Controller.Zero_Contr (Safe_Contr.Build 1)
      (SafeSet.Build (fun _ => v) (fun _ => [0; 0; 1])) (1 # 10) in
  Intervention_Contr.u (contr (1 # 20)) robot tt = ([Some 1], tt)
  /\ Intervention_Contr.u (contr (2 # 10)) robot tt = ([Some 0], tt).
Proof. split; reflexivity. Qed.

(** *** The obstacle landscape *)

Section Scan.

(** The three loops of the obstacle landscape are one scan: over the
    obstacles that pass the filter [p], keep the smallest value of [f] seen so
    far and the number of the obstacle that set it, a later obstacle
    replacing the current one only with a strictly smaller value. *)
Variable p : nat -> bool.
Variable f : Obstacle.t -> Q.

Fixpoint scan (rest : list Obstacle.t) (obNum : nat) (cur : Q * nat)
  : Q * nat :=
  match rest with
  | [] => cur
  | ob :: rest' =>
      scan rest' (S obNum)
        (if p obNum
         then if Qltb (f ob) (fst cur) then (f ob, obNum) else cur
         else cur)
  end.

(** Obstacle [ob], at position [k] of [rest] (number [n + k]), is the first
    obstacle of least value among those of [rest] that pass the filter. *)
Definition first_min (rest : list Obstacle.t) (n k : nat) (ob : Obstacle.t)
  : Prop :=
  nth_error rest k = Some ob
  /\ p (n + k) = true
  /\ (forall k' ob', nth_error rest k' = Some ob' -> p (n + k') = true ->
        f ob <= f ob')
  /\ (forall k' ob', (k' < k)%nat -> nth_error rest k' = Some ob' ->
        p (n + k') = true -> f ob < f ob').

Lemma all_ge_cons (ob : Obstacle.t) (rest : list Obstacle.t) (n : nat)
  (m : Q) :
  (p n = true -> m <= f ob) ->
  (forall k ob', nth_error rest k = Some ob' -> p (S n + k) = true ->
     m <= f ob') ->
  forall k ob', nth_error (ob :: rest) k = Some ob' -> p (n + k) = true ->
    m <= f ob'.
Proof.
  intros Hhere Hall [| k] ob' Hnth Hp; simpl in Hnth.
  - injection Hnth as <-. rewrite Nat.add_0_r in Hp. auto.
  - apply (Hall k ob' Hnth). rewrite <- Hp. f_equal. lia.
Qed.

Lemma first_min_here (ob : Obstacle.t) (rest : list Obstacle.t) (n : nat) :
  p n = true ->
  (forall k ob', nth_error rest k = Some ob' -> p (S n + k) = true ->
     f ob <= f ob') ->
  first_min (ob :: rest) n 0 ob.
Proof.
  intros Hp Hall. unfold first_min. rewrite Nat.add_0_r.
  split; [reflexivity |]. split; [exact Hp |]. split.
  - apply all_ge_cons; [intros _; apply Qle_refl | exact Hall].
  - intros k' ob' Hk'. lia.
Qed.

Lemma first_min_later (ob ob1 : Obstacle.t) (rest : list Obstacle.t)
  (n k : nat) :
  (p n = true -> f ob1 < f ob) ->
  first_min rest (S n) k ob1 ->
  first_min (ob :: rest) n (S k) ob1.
Proof.
  intros Hhere (Hnth & Hpk & Hle & Hfirst). unfold first_min.
  split; [exact Hnth |].
  split; [rewrite <- Hpk; f_equal; lia |]. split.
  - apply all_ge_cons; [| exact Hle]. intro Hp. apply Qlt_le_weak. auto.
  - intros [| k'] ob' Hk' Hnth' Hp'; simpl in Hnth'.
    + injection Hnth' as <-. rewrite Nat.add_0_r in Hp'. auto.
    + apply (Hfirst k' ob'); [lia | exact Hnth' |].
      rewrite <- Hp'. f_equal. lia.
Qed.

Lemma scan_spec (rest : list Obstacle.t) (n : nat) (m : Q) (d : nat) :
  (scan rest n (m, d) = (m, d)
   /\ forall k ob, nth_error rest k = Some ob -> p (n + k) = true ->
        m <= f ob)
  \/ (exists k ob,
        scan rest n (m, d) = (f ob, (n + k)%nat)
        /\ f ob < m
        /\ first_min rest n k ob).
Proof.
  revert n m d. induction rest as [| ob rest IH]; intros n m d.
  - left. split; [reflexivity |]. intros [| k] ob'; discriminate.
  - simpl. destruct (p n) eqn:Hp; [destruct (Qltb (f ob) m) eqn:Hlt |].
    + apply Qltb_lt in Hlt.
      destruct (IH (S n) (f ob) n) as [[Heq Hall] | (k & ob1 & Heq & Hlt1 & Hk)].
      * right. exists 0%nat, ob. rewrite Nat.add_0_r.
        split; [exact Heq |]. split; [exact Hlt |].
        apply first_min_here; assumption.
      * right. exists (S k), ob1.
        replace (n + S k)%nat with (S n + k)%nat by lia.
        split; [exact Heq |]. split; [lra |].
        apply first_min_later; auto.
    + apply Qltb_ge in Hlt.
      destruct (IH (S n) m d) as [[Heq Hall] | (k & ob1 & Heq & Hlt1 & Hk)].
      * left. split; [exact Heq |]. apply all_ge_cons; auto.
      * right. exists (S k), ob1.
        replace (n + S k)%nat with (S n + k)%nat by lia.
        split; [exact Heq |]. split; [exact Hlt1 |].
        apply first_min_later; [intros _; lra | exact Hk].
    + destruct (IH (S n) m d) as [[Heq Hall] | (k & ob1 & Heq & Hlt1 & Hk)].
      * left. split; [exact Heq |]. apply all_ge_cons; [congruence | exact Hall].
      * right. exists (S k), ob1.
        replace (n + S k)%nat with (S n + k)%nat by lia.
        split; [exact Heq |]. split; [exact Hlt1 |].
        apply first_min_later; [congruence | exact Hk].
Qed.

End Scan.

Section ObstaclescapeLoops.

Variable this : Obstaclescape.t.
Variable setID : nat.
Variable states : list Q.

Let val (ob : Obstacle.t) : Q := Obstacle.value ob setID states.
Let coll (ob : Obstacle.t) : Q := Obstacle.collisionSetValue ob states.

Lemma value_loop_scan (rest : list Obstacle.t) (n : nat) (m : Q) (d : nat) :
  Obstaclescape.value_loop this setID states rest n m =
  fst (scan (Obstaclescape.eligible this) val rest n (m, d)).
Proof.
  revert n m d. induction rest as [| ob rest IH]; intros n m d; simpl.
  - reflexivity.
  - change (is_false (Obstaclescape.obstacleDestroyed this) n
            && is_false (Obstaclescape.obstacleUndetected this) n)
      with (Obstaclescape.eligible this n).
    change (Obstacle.value ob setID states) with (val ob).
    destruct (Obstaclescape.eligible this n);
      [destruct (Qltb (val ob) m) |]; simpl; apply IH.
Qed.

Lemma dominant_loop_scan (rest : list Obstacle.t) (n : nat) (cur : Q * nat) :
  Obstaclescape.dominant_loop this setID states rest n cur =
  scan (Obstaclescape.eligible this) val rest n cur.
Proof.
  revert n cur. induction rest as [| ob rest IH]; intros n [m d]; simpl.
  - reflexivity.
  - change (is_false (Obstaclescape.obstacleDestroyed this) n
            && is_false (Obstaclescape.obstacleUndetected this) n)
      with (Obstaclescape.eligible this n).
    change (Obstacle.value ob setID states) with (val ob).
    destruct (Obstaclescape.eligible this n);
      [destruct (Qltb (val ob) m) |]; simpl; apply IH.
Qed.

Lemma collision_loop_scan (rest : list Obstacle.t) (n : nat) (cur : Q * nat) :
  Obstaclescape.collision_loop this states rest n cur =
  scan (Obstaclescape.hazard this) coll rest n cur.
Proof.
  revert n cur. induction rest as [| ob rest IH]; intros n [m d]; simpl.
  - reflexivity.
  - change (is_false (Obstaclescape.obstacleDestroyed this) n
            && is_true (Obstaclescape.obstacleUndetected this) n)
      with (Obstaclescape.hazard this n).
    change (Obstacle.collisionSetValue ob states) with (coll ob).
    destruct (Obstaclescape.hazard this n);
      [destruct (Qltb (coll ob) m) |]; simpl; apply IH.
Qed.

End ObstaclescapeLoops.

(** The claims about the landscape, in the words of the specification.
    [least_among p f obs v]: [v] is the minimum of [f] over the obstacles of
    [obs] that pass the filter [p]. *)
Definition least_among (p : nat -> bool) (f : Obstacle.t -> Q)
  (obs : list Obstacle.t) (v : Q) : Prop :=
  (exists k ob, nth_error obs k = Some ob /\ p k = true /\ v == f ob)
  /\ (forall k ob, nth_error obs k = Some ob -> p k = true -> v <= f ob).

(** No obstacle of the landscape passes the filter. *)
Definition none_pass (p : nat -> bool) (obs : list Obstacle.t) : Prop :=
  forall k, (k < length obs)%nat -> p k = false.

(** The specification's reading of [value]: the minimum over the eligible
    obstacles, and the sentinel when there is none. *)
Definition union_value_as_specified (this : Obstaclescape.t) (setID : nat)
  (states : list Q) : Prop :=
  let obs := Obstaclescape.obstacles this in
  let v := Obstaclescape.value this setID states in
  (~ none_pass (Obstaclescape.eligible this) obs ->
   least_among (Obstaclescape.eligible this)
     (fun ob => Obstacle.value ob setID states) obs v)
  /\ (none_pass (Obstaclescape.eligible this) obs -> v == 100).

(** The specification's reading of [gradV]: with an eligible obstacle
    present, the gradient of the first eligible obstacle of least value. *)
Definition dominant_gradient_as_specified (this : Obstaclescape.t)
  (setID : nat) (states : list Q) : Prop :=
  let obs := Obstaclescape.obstacles this in
  ~ none_pass (Obstaclescape.eligible this) obs ->
  exists k ob,
    first_min (Obstaclescape.eligible this)
      (fun ob => Obstacle.value ob setID states) obs 0 k ob
    /\ Obstaclescape.gradV this setID states =
       Some (Obstacle.gradV ob setID states).

(** The specification's reading of [collisionSetValue]: the least
    collision-footprint value over the obstacles that are not destroyed and
    are undetected, paired with the number of an obstacle that has it. *)
Definition collision_pair_as_specified (this : Obstaclescape.t)
  (states : list Q) : Prop :=
  let obs := Obstaclescape.obstacles this in
  exists k ob,
    nth_error obs k = Some ob
    /\ Obstaclescape.hazard this k = true
    /\ (forall k' ob', nth_error obs k' = Some ob' ->
          Obstaclescape.hazard this k' = true ->
          Obstacle.collisionSetValue ob states
          <= Obstacle.collisionSetValue ob' states)
    /\ fst (Obstaclescape.collisionSetValue this states)
       == Obstacle.collisionSetValue ob states
    /\ snd (Obstaclescape.collisionSetValue this states) = k.

(** Inputs for the examples: a wall of half-width 1 around [x = ObX], whose
    safety value and collision footprint are the signed distance
    [|x - ObX| - 1] and whose gradient is the sign of [x - ObX]. *)
Definition wall (ObX : Q) : Obstacle.t :=
  Obstacle.Build
    (fun _ s => Qabs (nth 0 s 0 - ObX) - 1)
    (fun _ s => [if Qltb (nth 0 s 0 - ObX) 0 then - (1) else 1])
    (fun s => Qabs (nth 0 s 0 - ObX) - 1).

(** One wall at the origin, seen from [x = 151]: its value there is 150. *)
Definition far_scape : Obstaclescape.t := Obstaclescape.new [wall 0].

(** A destroyed wall at 200 followed by a live one at the origin. *)
Definition cleared_scape : Obstaclescape.t :=
  Obstaclescape.Build [wall 200; wall 0] [true; false] [false; false].

(** A detected wall at 200 followed by an undetected one at the origin. *)
Definition hidden_scape : Obstaclescape.t :=
  Obstaclescape.Build [wall 200; wall 0] [false; false] [false; true].

(** Two walls, both live and detected, seen from [x = 3]. *)
Definition near_scape : Obstaclescape.t :=
  Obstaclescape.new [wall 10; wall 0].

(** Two walls, both destroyed. *)
Definition empty_scape : Obstaclescape.t :=
  Obstaclescape.Build [wall 10; wall 0] [true; true] [false; false].

Lemma none_pass_scan (p : nat -> bool) (f : Obstacle.t -> Q)
  (rest : list Obstacle.t) (n : nat) (cur : Q * nat) :
  (forall k, (k < length rest)%nat -> p (n + k)%nat = false) ->
  scan p f rest n cur = cur.
Proof.
  revert n cur. induction rest as [| ob rest IH]; intros n cur H; simpl.
  - reflexivity.
  - replace (p n) with false
      by (symmetry; rewrite <- (Nat.add_0_r n); apply H; simpl; lia).
    apply IH. intros k Hk.
    replace (S n + k)%nat with (n + S k)%nat by lia. apply H. simpl. lia.
Qed.

(** C5, as stated, fails on [far_scape] seen from [x = 151]: the one
    obstacle is eligible and its value is 150, but [value] answers 100. *)
Lemma union_value_as_specified_fails :
  Obstaclescape.value far_scape 0 [151] = 100
  /\ Obstaclescape.eligible far_scape 0 = true
  /\ Obstacle.value (wall 0) 0 [151] == 150
  /\ ~ union_value_as_specified far_scape 0 [151].
Proof.
  split; [reflexivity |]. split; [reflexivity |]. split; [reflexivity |].
  intros [H _].
  assert (Hsome : ~ none_pass (Obstaclescape.eligible far_scape)
                      (Obstaclescape.obstacles far_scape)).
  { intro Hnone. specialize (Hnone 0%nat). simpl in Hnone.
    assert (0 < 1)%nat as Hlt by lia. specialize (Hnone Hlt). discriminate. }
  destruct (H Hsome) as [(k & ob & Hnth & _ & Hv) _].
  destruct k as [| [| k]]; simpl in Hnth; try discriminate.
  injection Hnth as <-. revert Hv. compute. discriminate.
Qed.

(** C5, amended. [value] is the minimum of the sentinel 100 and the values
    of the eligible obstacles: it is at most 100 and at most every eligible
    obstacle's value, it is 100 or the value of an eligible obstacle, and it
    is 100 when no obstacle is eligible. *)
Theorem Obstaclescape_value_min (this : Obstaclescape.t) (setID : nat)
  (states : list Q) :
  let obs := Obstaclescape.obstacles this in
  let v := Obstaclescape.value this setID states in
  v <= 100
  /\ (forall k ob, nth_error obs k = Some ob ->
        Obstaclescape.eligible this k = true ->
        v <= Obstacle.value ob setID states)
  /\ (v = 100
      \/ exists k ob, nth_error obs k = Some ob
           /\ Obstaclescape.eligible this k = true
           /\ v = Obstacle.value ob setID states)
  /\ (none_pass (Obstaclescape.eligible this) obs -> v = 100).
Proof.
  cbv zeta. unfold Obstaclescape.value.
  rewrite (value_loop_scan this setID states _ 0 100 0).
  split; [| split; [| split]].
  - destruct (scan_spec (Obstaclescape.eligible this)
                (fun ob => Obstacle.value ob setID states)
                (Obstaclescape.obstacles this) 0 100 0)
      as [[Heq _] | (k & ob & Heq & Hlt & _)]; rewrite Heq; simpl; lra.
  - intros k0 ob0 Hnth Hel.
    destruct (scan_spec (Obstaclescape.eligible this)
                (fun ob => Obstacle.value ob setID states)
                (Obstaclescape.obstacles this) 0 100 0)
      as [[Heq Hall] | (k & ob & Heq & Hlt & (_ & _ & Hle & _))];
      rewrite Heq; simpl.
    + apply (Hall k0 ob0 Hnth Hel).
    + apply (Hle k0 ob0 Hnth Hel).
  - destruct (scan_spec (Obstaclescape.eligible this)
                (fun ob => Obstacle.value ob setID states)
                (Obstaclescape.obstacles this) 0 100 0)
      as [[Heq _] | (k & ob & Heq & Hlt & (Hnth & Hel & _))];
      rewrite Heq; simpl.
    + left. reflexivity.
    + right. exists k, ob. auto.
  - intro Hnone. rewrite none_pass_scan; [reflexivity |].
    intros k Hk. apply Hnone. exact Hk.
Qed.

(** C6, as stated, fails on [cleared_scape] seen from [x = 151]: the only
    eligible obstacle is number 1, whose value is 150 and whose gradient is
    [1], but [gradV] answers the gradient [-1] of obstacle 0, which is
    destroyed. *)
Lemma dominant_gradient_as_specified_fails :
  Obstaclescape.eligible cleared_scape 0 = false
  /\ Obstaclescape.eligible cleared_scape 1 = true
  /\ Obstacle.gradV (wall 0) 0 [151] = [1]
  /\ Obstaclescape.gradV cleared_scape 0 [151] = Some [- (1)]
  /\ ~ dominant_gradient_as_specified cleared_scape 0 [151].
Proof.
  repeat (split; [reflexivity |]).
  intro H.
  assert (Hsome : ~ none_pass (Obstaclescape.eligible cleared_scape)
                      (Obstaclescape.obstacles cleared_scape)).
  { intro Hnone. specialize (Hnone 1%nat). simpl in Hnone.
    assert (1 < 2)%nat as Hlt by lia. specialize (Hnone Hlt). discriminate. }
  destruct (H Hsome) as (k & ob & (Hnth & Hel & _) & Hg).
  destruct k as [| [| k]]; simpl in Hnth;
    [discriminate | | destruct k; discriminate].
  injection Hnth as <-. revert Hg. compute. discriminate.
Qed.

(** C6, amended. When some eligible obstacle has a value below the sentinel
    100, [gradV] returns the gradient of the first eligible obstacle of least
    value, and [value] is that obstacle's value. *)
Theorem Obstaclescape_gradV_dominant (this : Obstaclescape.t) (setID : nat)
  (states : list Q) :
  (exists k ob, nth_error (Obstaclescape.obstacles this) k = Some ob
     /\ Obstaclescape.eligible this k = true
     /\ Obstacle.value ob setID states < 100) ->
  exists k ob,
    first_min (Obstaclescape.eligible this)
      (fun ob => Obstacle.value ob setID states)
      (Obstaclescape.obstacles this) 0 k ob
    /\ Obstaclescape.gradV this setID states =
       Some (Obstacle.gradV ob setID states)
    /\ Obstaclescape.value this setID states = Obstacle.value ob setID states.
Proof.
  intros (k0 & ob0 & Hnth0 & Hel0 & Hlt0).
  unfold Obstaclescape.gradV, Obstaclescape.value.
  rewrite dominant_loop_scan, (value_loop_scan this setID states _ 0 100 0).
  destruct (scan_spec (Obstaclescape.eligible this)
              (fun ob => Obstacle.value ob setID states)
              (Obstaclescape.obstacles this) 0 100 0)
    as [[_ Hall] | (k & ob & Heq & Hlt & Hk)].
  - specialize (Hall k0 ob0 Hnth0 Hel0). exfalso. lra.
  - exists k, ob. rewrite Heq. simpl.
    destruct Hk as (Hnth & Hrest). rewrite Hnth.
    split; [split; assumption |]. split; reflexivity.
Qed.

(** C6 at [near_scape] seen from [x = 3]: obstacle 1 (value 2) dominates
    obstacle 0 (value 6). *)
Lemma Obstaclescape_gradV_dominant_witness :
  exists k ob,
    first_min (Obstaclescape.eligible near_scape)
      (fun ob => Obstacle.value ob 0 [3])
      (Obstaclescape.obstacles near_scape) 0 k ob
    /\ Obstaclescape.gradV near_scape 0 [3] = Some (Obstacle.gradV ob 0 [3])
    /\ Obstaclescape.value near_scape 0 [3] = Obstacle.value ob 0 [3].
Proof.
  apply (Obstaclescape_gradV_dominant near_scape 0 [3]).
  exists 1%nat, (wall 0).
  split; [reflexivity |]. split; [reflexivity |]. reflexivity.
Defined.

(** C7, as stated, fails on [hidden_scape] seen from [x = 151]: the only
    obstacle that is neither destroyed nor detected is number 1, whose
    collision value is 150, but [collisionSetValue] answers the pair
    (100, 0). *)
Lemma collision_pair_as_specified_fails :
  Obstaclescape.hazard hidden_scape 0 = false
  /\ Obstaclescape.hazard hidden_scape 1 = true
  /\ Obstacle.collisionSetValue (wall 0) [151] == 150
  /\ Obstaclescape.collisionSetValue hidden_scape [151] = (100, 0%nat)
  /\ ~ collision_pair_as_specified hidden_scape [151].
Proof.
  repeat (split; [reflexivity |]).
  intros (k & ob & Hnth & Hhz & _ & _ & Hk).
  simpl in Hk. subst k. discriminate.
Qed.

(** C7, amended. [collisionSetValue] scans exactly the obstacles with
    [destroyed == false] and [undetected == true]: when one of them has a
    collision value below 100 it returns that least value paired with the
    number of the first obstacle that has it; otherwise (none of them is
    below 100, in particular when there is none) it returns the pair
    (100, 0). *)
Theorem Obstaclescape_collision_min (this : Obstaclescape.t)
  (states : list Q) :
  let obs := Obstaclescape.obstacles this in
  let coll := fun ob => Obstacle.collisionSetValue ob states in
  (Obstaclescape.collisionSetValue this states = (100, 0%nat)
   /\ forall k ob, nth_error obs k = Some ob ->
        Obstaclescape.hazard this k = true -> 100 <= coll ob)
  \/ (exists k ob,
        Obstaclescape.collisionSetValue this states = (coll ob, k)
        /\ coll ob < 100
        /\ first_min (Obstaclescape.hazard this) coll obs 0 k ob).
Proof.
  cbv zeta. unfold Obstaclescape.collisionSetValue.
  rewrite collision_loop_scan. apply scan_spec.
Qed.

(** The filter of C7 has the opposite [undetected] polarity from that of
    the union: no obstacle passes both. *)
Lemma hazard_not_eligible (this : Obstaclescape.t) (k : nat) :
  Obstaclescape.hazard this k = true -> Obstaclescape.eligible this k = false.
Proof.
  unfold Obstaclescape.hazard, Obstaclescape.eligible, is_true, is_false.
  destruct (nth_error (Obstaclescape.obstacleDestroyed this) k) as [[|] |];
    destruct (nth_error (Obstaclescape.obstacleUndetected this) k) as [[|] |];
    simpl; congruence.
Qed.

(** The specification's reading of [gradV] when no obstacle is eligible:
    no error and no sentinel, but the gradient of [obstacles[0]], while
    [value] answers the sentinel. *)
Definition ineligible_gradient_as_specified (this : Obstaclescape.t)
  (setID : nat) (states : list Q) : Prop :=
  none_pass (Obstaclescape.eligible this) (Obstaclescape.obstacles this) ->
  exists ob0,
    nth_error (Obstaclescape.obstacles this) 0 = Some ob0
    /\ Obstaclescape.gradV this setID states =
       Some (Obstacle.gradV ob0 setID states)
    /\ Obstaclescape.value this setID states = 100.

(** C10, as stated, fails on the landscape without obstacles: no obstacle
    is eligible and [value] answers the sentinel 100, but there is no
    [obstacles[0]], and [gradV] raises a [TypeError]. *)
Lemma ineligible_gradient_as_specified_fails :
  none_pass (Obstaclescape.eligible (Obstaclescape.new []))
    (Obstaclescape.obstacles (Obstaclescape.new []))
  /\ Obstaclescape.value (Obstaclescape.new []) 0 [3] = 100
  /\ Obstaclescape.gradV (Obstaclescape.new []) 0 [3] = None
  /\ ~ ineligible_gradient_as_specified (Obstaclescape.new []) 0 [3].
Proof.
  assert (Hnone : none_pass (Obstaclescape.eligible (Obstaclescape.new []))
                    (Obstaclescape.obstacles (Obstaclescape.new [])))
    by (intros k Hk; simpl in Hk; lia).
  split; [exact Hnone |]. split; [reflexivity |]. split; [reflexivity |].
  intro H. destruct (H Hnone) as (ob0 & Hnth & _). discriminate Hnth.
Qed.

(** C10, amended. When no obstacle is eligible, [value] answers the
    sentinel 100, and [gradV] answers no sentinel: on a landscape that has
    an obstacle 0 it returns the gradient of that obstacle, which is not
    eligible; on a landscape without obstacles it raises a [TypeError]. *)
Theorem Obstaclescape_gradV_none_eligible (this : Obstaclescape.t)
  (setID : nat) (states : list Q) :
  none_pass (Obstaclescape.eligible this) (Obstaclescape.obstacles this) ->
  Obstaclescape.value this setID states = 100
  /\ match nth_error (Obstaclescape.obstacles this) 0 with
     | Some ob0 =>
         Obstaclescape.gradV this setID states =
           Some (Obstacle.gradV ob0 setID states)
         /\ Obstaclescape.eligible this 0 = false
     | None => Obstaclescape.gradV this setID states = None
     end.
Proof.
  intro Hnone.
  unfold Obstaclescape.gradV, Obstaclescape.value.
  rewrite dominant_loop_scan, (value_loop_scan this setID states _ 0 100 0).
  rewrite none_pass_scan by (intros k Hk; apply Hnone; exact Hk).
  cbn [fst snd]. split; [reflexivity |].
  destruct (nth_error (Obstaclescape.obstacles this) 0) as [ob0 |] eqn:Hnth;
    [| reflexivity].
  split; [reflexivity |].
  apply Hnone. apply nth_error_Some. congruence.
Qed.

(** The amended C10 at [empty_scape], both of whose walls are destroyed. *)
Lemma Obstaclescape_gradV_none_eligible_witness :
  Obstaclescape.value empty_scape 0 [3] = 100
  /\ Obstaclescape.gradV empty_scape 0 [3] =
       Some (Obstacle.gradV (wall 10) 0 [3])
     /\ Obstaclescape.eligible empty_scape 0 = false.
Proof.
  apply (Obstaclescape_gradV_none_eligible empty_scape 0 [3]).
  intros [| [| k]] Hk; simpl in Hk; try reflexivity. lia.
Defined.

(** The landscape on ordinary inputs.  Seen from [x = 3], the wall at the
    origin (value 2) dominates the wall at 10 (value 6); the undetected wall
    of [hidden_scape] is the one collision detection reports; and a landscape
    without any obstacle has no [obstacles[0]] to read the gradient off. *)
Example Obstaclescape_examples :
  Obstaclescape.value near_scape 0 [3] = 2
  /\ Obstaclescape.gradV near_scape 0 [3] = Some [1]
  /\ Obstaclescape.collisionSetValue hidden_scape [3] = (2, 1%nat)
  /\ Obstaclescape.collisionSetValue near_scape [3] = (100, 0%nat)
  /\ Obstaclescape.value (Obstaclescape.new []) 0 [3] = 100
  /\ Obstaclescape.gradV (Obstaclescape.new []) 0 [3] = None.
Proof. repeat split; reflexivity. Qed.

(** *** The grid value function *)

(** Two results of [value] agree: both are outside the finite numbers, or
    both are numbers and equal. *)
Definition opt_rel {A : Type} (R : A -> A -> Prop) (a b : option A) : Prop :=
  match a, b with
  | Some x, Some y => R x y
  | None, None => True
  | _, _ => False
  end.

Definition opt_eq : option Q -> option Q -> Prop := opt_rel Qeq.

(** [states[d] += delta]. *)
Fixpoint shift (states : list Q) (d : nat) (delta : Q) : list Q :=
  match states, d with
  | [], _ => []
  | s :: rest, O => (s + delta) :: rest
  | s :: rest, S d' => s :: shift rest d' delta
  end.

(** The model computes with exact rationals; the code computes in
    binary64.  On multiples of 1/16 between -16 and 16 the two agree
    wherever [value] and [nearIndices] subtract, multiply or add such
    numbers and a few of their products, and the division that finds the
    cell is only rounded towards the same cell: the statements below that
    need the exact arithmetic are made on grids and states of such
    numbers. *)
Definition sixteenth (q : Q) : bool :=
  Qle_bool (Qabs q) 16 && Qeq_bool (inject_Z (Qfloor (16 * q))) (16 * q).

(** The coordinates of the state, and the lower bound and the spacing of
    each of its axes, are such numbers. *)
Definition exact_axes (this : loaded_SafeSet.reachset) (states : list Q)
  : bool :=
  forallb sixteenth states
  && forallb sixteenth (firstn (length states) (loaded_SafeSet.gmin this))
  && forallb sixteenth (firstn (length states) (loaded_SafeSet.gdx this)).

(** Every number stored in the nest passes [p]. *)
Fixpoint all_values (p : Q -> bool) (n : loaded_SafeSet.nest) : bool :=
  match n with
  | loaded_SafeSet.Num v => p v
  | loaded_SafeSet.Arr elems => forallb (all_values p) elems
  end.

(** The nest is a full grid of numbers with [dims] points along its
    successive axes. *)
Fixpoint shaped (dims : list Z) (n : loaded_SafeSet.nest) : bool :=
  match dims, n with
  | [], loaded_SafeSet.Num _ => true
  | N :: rest, loaded_SafeSet.Arr elems =>
      (Z.of_nat (length elems) =? N)%Z && forallb (shaped rest) elems
  | _, _ => false
  end.

Lemma shift_length (states : list Q) (d : nat) (delta : Q) :
  length (shift states d delta) = length states.
Proof.
  revert d. induction states as [| s rest IH]; intros [| d]; simpl;
    try reflexivity.
  f_equal. apply IH.
Qed.

Lemma shift_nth_same (states : list Q) (d : nat) (delta s : Q) :
  nth_error states d = Some s ->
  nth_error (shift states d delta) d = Some (s + delta).
Proof.
  revert d. induction states as [| s0 rest IH]; intros [| d] H; simpl in *;
    try discriminate.
  - injection H as ->. reflexivity.
  - apply IH. exact H.
Qed.

Lemma shift_nth_other (states : list Q) (d x : nat) (delta : Q) :
  x <> d -> nth_error (shift states d delta) x = nth_error states x.
Proof.
  revert d x. induction states as [| s0 rest IH]; intros [| d] [| x] H; simpl;
    try reflexivity; try congruence.
  apply IH. congruence.
Qed.

Section ForEach.

Import loaded_SafeSet.
Context {A : Type}.

Lemma for_each_ext (f g : nat -> option A) (xs : list nat) :
  (forall x, In x xs -> f x = g x) -> for_each f xs = for_each g xs.
Proof.
  induction xs as [| x xs IH]; intro H; simpl.
  - reflexivity.
  - rewrite (H x) by (left; reflexivity).
    rewrite IH by (intros y Hy; apply H; right; exact Hy). reflexivity.
Qed.

Lemma for_each_rel (R : A -> A -> Prop) (f g : nat -> option A)
  (xs : list nat) :
  (forall x, In x xs -> opt_rel R (f x) (g x)) ->
  opt_rel (Forall2 R) (for_each f xs) (for_each g xs).
Proof.
  induction xs as [| x xs IH]; intro H; simpl.
  - constructor.
  - assert (Hx := H x (or_introl eq_refl)).
    assert (Hxs := IH (fun y Hy => H y (or_intror Hy))).
    destruct (f x), (g x); simpl in Hx; try contradiction; try exact I.
    destruct (for_each f xs), (for_each g xs); simpl in *;
      try contradiction; try exact I.
    constructor; assumption.
Qed.

Lemma for_each_none (f : nat -> option A) (xs : list nat) (x : nat) :
  In x xs -> f x = None -> for_each f xs = None.
Proof.
  induction xs as [| y xs IH]; intros Hin Hx; [destruct Hin |].
  destruct Hin as [-> | Hin]; simpl.
  - rewrite Hx. reflexivity.
  - rewrite (IH Hin Hx). destruct (f y); reflexivity.
Qed.

Lemma for_each_nth (f : nat -> option A) (a n : nat) (l : list A) :
  for_each f (seq a n) = Some l ->
  forall k, (k < n)%nat -> nth_error l k = f (a + k)%nat.
Proof.
  revert a l. induction n as [| n IH]; intros a l H k Hk; [lia |].
  simpl in H. destruct (f a) as [v |] eqn:Ha; [| discriminate].
  destruct (for_each f (seq (S a) n)) as [l' |] eqn:Hl; [| discriminate].
  injection H as <-. destruct k as [| k]; simpl.
  - rewrite Nat.add_0_r. symmetry. exact Ha.
  - rewrite (IH (S a) l' Hl k) by lia. f_equal. lia.
Qed.

End ForEach.

Section FloorShift.

Lemma Qfloor_unique (q : Q) (z : Z) :
  inject_Z z <= q -> q < inject_Z (z + 1) -> Qfloor q = z.
Proof.
  intros Hle Hlt. apply Z.le_antisymm.
  - assert (H : inject_Z (Qfloor q) < inject_Z (z + 1))
      by (eapply Qle_lt_trans; [apply Qfloor_le | exact Hlt]).
    rewrite <- Zlt_Qlt in H. lia.
  - rewrite <- (Qfloor_Z z). apply Qfloor_resp_le. exact Hle.
Qed.

Lemma Qfloor_plus_Z (q : Q) (n : Z) :
  Qfloor (q + inject_Z n) = (Qfloor q + n)%Z.
Proof.
  apply Qfloor_unique.
  - rewrite inject_Z_plus. assert (H := Qfloor_le q). lra.
  - assert (H := Qlt_floor q).
    replace (Qfloor q + n + 1)%Z with ((Qfloor q + 1) + n)%Z by lia.
    rewrite inject_Z_plus. lra.
Qed.

Lemma Qceiling_plus_Z (q : Q) (n : Z) :
  Qceiling (q + inject_Z n) = (Qceiling q + n)%Z.
Proof.
  unfold Qceiling.
  assert (H : - (q + inject_Z n) == - q + inject_Z (- n))
    by (rewrite inject_Z_opp; ring).
  rewrite H, Qfloor_plus_Z. lia.
Qed.

End FloorShift.

Section GridAxiswise.

Import loaded_SafeSet.
Variable this : reachset.

(** What [value] computes for axis [x], read off the state directly rather
    than off the arrays that the loops fill. *)
Definition dl_axis (states : list Q) (x : nat) : option Q :=
  match nth_error states x, lowEdge this states false x,
        highEdge this states false x with
  | Some s, Some lo, Some hi =>
      match indexToState this lo x with
      | Some v => Some (if (lo =? hi)%Z then 1 else s - v)
      | None => None
      end
  | _, _, _ => None
  end.

Definition dh_axis (states : list Q) (x : nat) : option Q :=
  match nth_error states x, lowEdge this states false x,
        highEdge this states false x with
  | Some s, Some lo, Some hi =>
      match indexToState this hi x with
      | Some v => Some (if (lo =? hi)%Z then 0 else v - s)
      | None => None
      end
  | _, _, _ => None
  end.

Definition wl_axis (states : list Q) (x : nat) : option Z :=
  match lowEdge this states false x with
  | Some i => into_grid this x i
  | None => None
  end.

Definition wh_axis (states : list Q) (x : nat) : option Z :=
  match highEdge this states false x with
  | Some i => into_grid this x i
  | None => None
  end.

(** The interpolation proper, from the four arrays. *)
Definition finish (D : nat) (dL dH : option (list Q))
  (lo hi : option (list Z)) : option Q :=
  match dL, dH, lo, hi with
  | Some distLower, Some distHigher, Some lowEdgeIndex, Some highEdgeIndex =>
      match weighted_sum this D distLower distHigher
              lowEdgeIndex highEdgeIndex,
            total_volume this D with
      | Some value, Some total =>
          if Qeq_bool total 0 then None else Some (value / total)
      | _, _ => None
      end
  | _, _, _, _ => None
  end.

Lemma for_each_none_inv {A : Type} (f : nat -> option A) (xs : list nat) :
  for_each f xs = None -> exists x, In x xs /\ f x = None.
Proof.
  induction xs as [| y xs IH]; simpl; [discriminate |].
  destruct (f y) eqn:Hy.
  - destruct (for_each f xs); [discriminate |]. intros _.
    destruct (IH eq_refl) as (x & Hin & Hx). exists x. auto.
  - intros _. exists y. auto.
Qed.

Lemma value_axiswise (states : list Q) :
  value this states =
  let xs := seq 0 (length states) in
  finish (length states)
    (for_each (dl_axis states) xs) (for_each (dh_axis states) xs)
    (for_each (wl_axis states) xs) (for_each (wh_axis states) xs).
Proof.
  cbv zeta. unfold value, nearIndices.
  destruct (for_each (lowEdge this states false) _) as [lo |] eqn:Hlo.
  - destruct (for_each (highEdge this states false) _) as [hi |] eqn:Hhi.
    + assert (Hl : forall x, In x (seq 0 (length states)) ->
                nth_error lo x = lowEdge this states false x).
      { intros x Hx. apply in_seq in Hx.
        apply (for_each_nth _ 0 _ _ Hlo). lia. }
      assert (Hh : forall x, In x (seq 0 (length states)) ->
                nth_error hi x = highEdge this states false x).
      { intros x Hx. apply in_seq in Hx.
        apply (for_each_nth _ 0 _ _ Hhi). lia. }
      rewrite (for_each_ext (distanceToLower this states lo hi)
                 (dl_axis states)).
      2:{ intros x Hx. unfold distanceToLower, dl_axis.
          rewrite (Hl x Hx), (Hh x Hx). reflexivity. }
      rewrite (for_each_ext (distanceToHigher this states lo hi)
                 (dh_axis states)).
      2:{ intros x Hx. unfold distanceToHigher, dh_axis.
          rewrite (Hl x Hx), (Hh x Hx). reflexivity. }
      rewrite (for_each_ext (wrapped this lo) (wl_axis states)).
      2:{ intros x Hx. unfold wrapped, wl_axis.
          rewrite (Hl x Hx). reflexivity. }
      rewrite (for_each_ext (wrapped this hi) (wh_axis states)).
      2:{ intros x Hx. unfold wrapped, wh_axis.
          rewrite (Hh x Hx). reflexivity. }
      reflexivity.
    + destruct (for_each_none_inv _ _ Hhi) as (x & Hin & Hx).
      rewrite (for_each_none (wh_axis states) _ x Hin).
      * unfold finish. destruct (for_each (dl_axis states) (seq 0 (length states))),
          (for_each (dh_axis states) (seq 0 (length states))), (for_each (wl_axis states) (seq 0 (length states)));
          reflexivity.
      * unfold wh_axis. rewrite Hx. reflexivity.
  - destruct (for_each_none_inv _ _ Hlo) as (x & Hin & Hx).
    rewrite (for_each_none (wl_axis states) _ x Hin).
    + unfold finish. destruct (for_each (dl_axis states) (seq 0 (length states))),
        (for_each (dh_axis states) (seq 0 (length states))); reflexivity.
    + unfold wl_axis. rewrite Hx. reflexivity.
Qed.

Lemma nth_error_rel {A : Type} (R : A -> A -> Prop) (l l' : list A)
  (x : nat) :
  Forall2 R l l' -> opt_rel R (nth_error l x) (nth_error l' x).
Proof.
  intro H. revert x. induction H as [| a b l l' Hab _ IH]; intros [| x];
    simpl; auto.
Qed.

Lemma corner_walk_rel (dL dL' dH dH' : list Q) (lo hi : list Z)
  (corner : Z) (xs : list nat) (volume volume' : Q) (cv : nest) :
  Forall2 Qeq dL dL' -> Forall2 Qeq dH dH' -> volume == volume' ->
  opt_rel (fun a b => fst a == fst b /\ snd a = snd b)
    (corner_walk dL dH lo hi corner xs volume cv)
    (corner_walk dL' dH' lo hi corner xs volume' cv).
Proof.
  intros HL HH. revert volume volume' cv.
  induction xs as [| x xs IH]; intros volume volume' cv Hv; simpl.
  - split; [exact Hv | reflexivity].
  - destruct (bit_set corner x).
    + assert (Hd := nth_error_rel Qeq dL dL' x HL).
      destruct (nth_error dL x), (nth_error dL' x); simpl in Hd;
        try contradiction; try exact I.
      destruct (nth_error hi x); [| exact I].
      destruct (js_index cv z); [| exact I].
      apply IH. rewrite Hv, Hd. reflexivity.
    + assert (Hd := nth_error_rel Qeq dH dH' x HH).
      destruct (nth_error dH x), (nth_error dH' x); simpl in Hd;
        try contradiction; try exact I.
      destruct (nth_error lo x); [| exact I].
      destruct (js_index cv z); [| exact I].
      apply IH. rewrite Hv, Hd. reflexivity.
Qed.

Lemma corner_term_rel (D : nat) (dL dL' dH dH' : list Q) (lo hi : list Z)
  (corner : Z) :
  Forall2 Qeq dL dL' -> Forall2 Qeq dH dH' ->
  opt_eq (corner_term this D dL dH lo hi corner)
         (corner_term this D dL' dH' lo hi corner).
Proof.
  intros HL HH. unfold corner_term.
  destruct (data this) as [v | elems]; [exact I |].
  assert (H := corner_walk_rel dL dL' dH dH' lo hi corner (seq 0 D) 1 1
                 (Arr elems) HL HH (Qeq_refl 1)).
  destruct (corner_walk dL dH _ _ _ _ _ _) as [[vol c] |],
           (corner_walk dL' dH' _ _ _ _ _ _) as [[vol' c'] |];
    simpl in H; try contradiction; try exact I.
  destruct H as [Hvol <-]. destruct (to_number c); [| exact I].
  simpl. rewrite Hvol. reflexivity.
Qed.

Lemma weighted_sum_rel (D : nat) (dL dL' dH dH' : list Q) (lo hi : list Z) :
  Forall2 Qeq dL dL' -> Forall2 Qeq dH dH' ->
  opt_eq (weighted_sum this D dL dH lo hi)
         (weighted_sum this D dL' dH' lo hi).
Proof.
  intros HL HH. unfold weighted_sum.
  assert (Hacc : opt_eq (Some 0) (Some 0)) by (simpl; reflexivity).
  revert Hacc. generalize (Some 0) at 1 3. generalize (Some 0).
  induction (corners D) as [| c cs IH]; intros acc' acc Hacc; simpl.
  - exact Hacc.
  - apply IH.
    assert (Hc := corner_term_rel D dL dL' dH dH' lo hi c HL HH).
    destruct acc, acc'; simpl in Hacc; try contradiction; try exact I.
    destruct (corner_term this D dL dH lo hi c),
             (corner_term this D dL' dH' lo hi c);
      simpl in Hc; try contradiction; try exact I.
    simpl. rewrite Hacc, Hc. reflexivity.
Qed.

Lemma finish_rel (D : nat) (dL dL' dH dH' : option (list Q))
  (lo hi : option (list Z)) :
  opt_rel (Forall2 Qeq) dL dL' -> opt_rel (Forall2 Qeq) dH dH' ->
  opt_eq (finish D dL dH lo hi) (finish D dL' dH' lo hi).
Proof.
  intros HL HH. unfold finish.
  destruct dL, dL'; simpl in HL; try contradiction; try exact I.
  destruct dH, dH'; simpl in HH; try contradiction; try exact I.
  destruct lo; [| exact I]. destruct hi; [| exact I].
  assert (H := weighted_sum_rel D _ _ _ _ l3 l4 HL HH).
  destruct (weighted_sum this D l l1 l3 l4),
           (weighted_sum this D l0 l2 l3 l4);
    simpl in H; try contradiction; try exact I.
  destruct (total_volume this D); [| exact I].
  destruct (Qeq_bool q1 0); [exact I |].
  simpl. rewrite H. reflexivity.
Qed.

End GridAxiswise.

Section Periodic.

Import loaded_SafeSet.
Variable this : reachset.
Variable states : list Q.
Variable d : nat.
Variables s m dx : Q.
Variable N : Z.

Hypothesis Hs : nth_error states d = Some s.
Hypothesis Hm : nth_error (gmin this) d = Some m.
Hypothesis Hdx : nth_error (gdx this) d = Some dx.
Hypothesis HN : nth_error (gN this) d = Some N.
Hypothesis Hper : nth_error (gperiodicity this) d = Some true.

(** The state one full period further along axis [d]. *)
Let period : Q := inject_Z N * dx.
Let states' : list Q := shift states d period.

Lemma quotient_other (x : nat) :
  x <> d -> quotient this states' x = quotient this states x.
Proof.
  intro Hx. unfold quotient, states'. rewrite shift_nth_other by exact Hx.
  reflexivity.
Qed.

Lemma axes_other (x : nat) :
  x <> d ->
  dl_axis this states' x = dl_axis this states x
  /\ dh_axis this states' x = dh_axis this states x
  /\ wl_axis this states' x = wl_axis this states x
  /\ wh_axis this states' x = wh_axis this states x.
Proof.
  intro Hx.
  unfold dl_axis, dh_axis, wl_axis, wh_axis, lowEdge, highEdge.
  rewrite quotient_other by exact Hx.
  unfold states'. rewrite shift_nth_other by exact Hx. auto.
Qed.

Lemma wrap_period (i : Z) :
  (- N <= i < N)%Z -> wrap (Some N) (i + N) = wrap (Some N) i.
Proof.
  intro Hi. unfold wrap. f_equal.
  destruct (i + N <? 0)%Z eqn:E1; [apply Z.ltb_lt in E1; lia |].
  destruct (i <? 0)%Z eqn:E2.
  - apply Z.ltb_lt in E2.
    destruct (N <=? i + N)%Z eqn:E3; [apply Z.leb_le in E3; lia |].
    reflexivity.
  - apply Z.ltb_ge in E2.
    destruct (N <=? i + N)%Z eqn:E3; [| apply Z.leb_gt in E3; lia].
    destruct (N <=? i)%Z eqn:E4; [apply Z.leb_le in E4; lia |]. lia.
Qed.

Hypothesis Hlow :
  (0 <= Qfloor ((s + period - m) / dx))%Z.
Hypothesis Hhigh :
  (Qceiling ((s + period - m) / dx) < 2 * N)%Z.

Lemma axes_same :
  opt_rel Qeq (dl_axis this states' d) (dl_axis this states d)
  /\ opt_rel Qeq (dh_axis this states' d) (dh_axis this states d)
  /\ wl_axis this states' d = wl_axis this states d
  /\ wh_axis this states' d = wh_axis this states d.
Proof.
  unfold dl_axis, dh_axis, wl_axis, wh_axis, lowEdge, highEdge, quotient.
  unfold states'. rewrite (shift_nth_same _ _ _ _ Hs), Hs, Hm, Hdx.
  destruct (Qeq_bool dx 0) eqn:E; [simpl; auto |].
  apply Qeq_bool_neq in E.
  assert (Hq : (s + period - m) / dx == (s - m) / dx + inject_Z N)
    by (unfold period; field; exact E).
  assert (Hfl : Qfloor ((s + period - m) / dx)
                = (Qfloor ((s - m) / dx) + N)%Z)
    by (rewrite Hq; apply Qfloor_plus_Z).
  assert (Hce : Qceiling ((s + period - m) / dx)
                = (Qceiling ((s - m) / dx) + N)%Z)
    by (rewrite Hq; apply Qceiling_plus_Z).
  rewrite Hfl in Hlow |- *. rewrite Hce in Hhigh |- *.
  assert (Hfc := Qle_floor_ceiling ((s - m) / dx)).
  rewrite <- Zle_Qle in Hfc.
  set (lo := Qfloor ((s - m) / dx)) in *.
  set (hi := Qceiling ((s - m) / dx)) in *.
  unfold indexToState. rewrite Hdx, Hm.
  unfold into_grid, periodic. rewrite Hper, HN.
  replace (lo + N =? hi + N)%Z with (lo =? hi)%Z.
  2:{ destruct (lo =? hi)%Z eqn:E1; symmetry.
      - apply Z.eqb_eq in E1. apply Z.eqb_eq. lia.
      - apply Z.eqb_neq in E1. apply Z.eqb_neq. lia. }
  split; [| split; [| split]].
  - simpl. destruct (lo =? hi)%Z; [reflexivity |].
    unfold period. rewrite inject_Z_plus. ring.
  - simpl. destruct (lo =? hi)%Z; [reflexivity |].
    unfold period. rewrite inject_Z_plus. ring.
  - apply wrap_period. lia.
  - apply wrap_period. lia.
Qed.

Lemma opt_rel_Qeq_refl (a : option Q) : opt_rel Qeq a a.
Proof. destruct a; simpl; [reflexivity | exact I]. Qed.

Lemma value_period : opt_eq (value this states') (value this states).
Proof.
  assert (Hlen : length states' = length states) by apply shift_length.
  rewrite !value_axiswise. cbv zeta. rewrite Hlen.
  rewrite (for_each_ext (wl_axis this states') (wl_axis this states)).
  2:{ intros x _. destruct (Nat.eq_dec x d) as [-> | Hx];
        [apply axes_same | apply axes_other; exact Hx]. }
  rewrite (for_each_ext (wh_axis this states') (wh_axis this states)).
  2:{ intros x _. destruct (Nat.eq_dec x d) as [-> | Hx];
        [apply axes_same | apply axes_other; exact Hx]. }
  apply finish_rel; apply for_each_rel; intros x _;
    (destruct (Nat.eq_dec x d) as [-> | Hx];
     [apply axes_same
     | destruct (axes_other x Hx) as (H1 & H2 & _);
       rewrite ?H1, ?H2; apply opt_rel_Qeq_refl]).
Qed.

End Periodic.

(** A grid periodic along its first axis: four points of spacing 1/2 from 0
    (period 2), two points of spacing 1 along the second axis. *)
Definition ring_grid : loaded_SafeSet.reachset :=
  loaded_SafeSet.Build [0; 0] [1 # 2; 1] [4; 2]%Z [true; false]
    (loaded_SafeSet.Arr
       [loaded_SafeSet.Arr [loaded_SafeSet.Num 1; loaded_SafeSet.Num 3];
        loaded_SafeSet.Arr [loaded_SafeSet.Num 2; loaded_SafeSet.Num 5];
        loaded_SafeSet.Arr [loaded_SafeSet.Num 4; loaded_SafeSet.Num 9];
        loaded_SafeSet.Arr [loaded_SafeSet.Num 8; loaded_SafeSet.Num 7]]).

(** In the cell between the grid points 1 and 2 of the periodic axis the
    value is the bilinear blend 5 of the four corners 2, 5, 4, 9, and so it
    is one period further.  Across the seam, between the last grid point
    and the first, the blend is taken with the first grid point. *)
Example ring_grid_values :
  opt_eq (loaded_SafeSet.value ring_grid [3 # 4; 1 # 2]) (Some 5)
  /\ opt_eq (loaded_SafeSet.value ring_grid [11 # 4; 1 # 2]) (Some 5)
  /\ opt_eq (loaded_SafeSet.value ring_grid [7 # 4; 0]) (Some (9 # 2))
  /\ opt_eq (loaded_SafeSet.value ring_grid [- (1 # 4); 0]) (Some (9 # 2)).
Proof. repeat split; vm_compute; reflexivity. Qed.

(** The specification's reading of the periodic wrap-around: along a
    periodic axis [d], whenever the copy of the state shifted by one full
    period lies within one period of the index range of the grid (its cell
    is one of [-gN[d] .. 2*gN[d] - 1]), [value] answers the same number at
    the copy as at the state. *)
Definition value_periodic_as_specified (this : loaded_SafeSet.reachset)
  (states : list Q) (d : nat) : Prop :=
  forall s m dx N,
    nth_error states d = Some s ->
    nth_error (loaded_SafeSet.gmin this) d = Some m ->
    nth_error (loaded_SafeSet.gdx this) d = Some dx ->
    nth_error (loaded_SafeSet.gN this) d = Some N ->
    nth_error (loaded_SafeSet.gperiodicity this) d = Some true ->
    (- N <= Qfloor ((s + inject_Z N * dx - m) / dx) < 2 * N)%Z ->
    exists v v',
      loaded_SafeSet.value this (shift states d (inject_Z N * dx)) = Some v'
      /\ loaded_SafeSet.value this states = Some v
      /\ v' == v.

(** C8, as stated, fails on both sides of the window that one wrap brings
    back.  On [ring_grid] the state (7/4, 0), in the last cell before the
    seam, has low index 3 and high index 4, which wraps to 0, and the value
    9/2; its copy one period further, (15/4, 0), is in cell 7, within one
    period of the grid, but its high index 8 is brought back once, to 4,
    past the end of the data, and the value is [NaN].  And the copy
    (-1/4, 0) of the state (-9/4, 0) is in cell -1, within one period of the
    grid, and has the value 9/2, but the low index -5 of the state itself
    is brought back once, to -1, and the value there is [NaN]. *)
Lemma value_periodic_as_specified_fails :
  opt_eq (loaded_SafeSet.value ring_grid [7 # 4; 0]) (Some (9 # 2))
  /\ shift [7 # 4; 0] 0 (inject_Z 4 * (1 # 2)) = [(7 # 4) + 4 * (1 # 2); 0]
  /\ loaded_SafeSet.value ring_grid [(7 # 4) + 4 * (1 # 2); 0] = None
  /\ ~ value_periodic_as_specified ring_grid [7 # 4; 0] 0
  /\ loaded_SafeSet.value ring_grid [- (9 # 4); 0] = None
  /\ opt_eq (loaded_SafeSet.value ring_grid [- (9 # 4) + 4 * (1 # 2); 0])
       (Some (9 # 2))
  /\ ~ value_periodic_as_specified ring_grid [- (9 # 4); 0] 0.
Proof.
  split; [vm_compute; reflexivity |]. split; [reflexivity |].
  split; [vm_compute; reflexivity |].
  split.
  { intro H.
    destruct (H (7 # 4) 0 (1 # 2) 4%Z eq_refl eq_refl eq_refl eq_refl
                eq_refl) as (v & v' & Hv' & _).
    - vm_compute. split; [discriminate | reflexivity].
    - vm_compute in Hv'. discriminate Hv'. }
  split; [vm_compute; reflexivity |]. split; [vm_compute; reflexivity |].
  intro H.
  destruct (H (- (9 # 4)) 0 (1 # 2) 4%Z eq_refl eq_refl eq_refl eq_refl
              eq_refl) as (v & v' & _ & Hv & _).
  - vm_compute. split; [discriminate | reflexivity].
  - vm_compute in Hv. discriminate Hv.
Qed.

(** *** The value at a grid point *)

Section CornerBits.

Import loaded_SafeSet.
Local Open Scope Z_scope.

Lemma toInt32_small (z : Z) : 0 <= z < 2 ^ 31 -> toInt32 z = z.
Proof.
  intro H. unfold toInt32. rewrite Z.mod_small by lia.
  destruct (2 ^ 31 <=? z) eqn:E; [apply Z.leb_le in E; lia | reflexivity].
Qed.

Lemma land_pow2 (c x : Z) :
  0 <= x -> Z.land c (2 ^ x) = if Z.testbit c x then 2 ^ x else 0.
Proof.
  intro Hx. apply Z.bits_inj'. intros n Hn.
  rewrite Z.land_spec, Z.pow2_bits_eqb by lia.
  destruct (Z.eqb_spec x n) as [-> | Hne].
  - destruct (Z.testbit c n); simpl.
    + rewrite Z.pow2_bits_true by lia. reflexivity.
    + rewrite Z.bits_0. reflexivity.
  - rewrite andb_false_r. destruct (Z.testbit c x).
    + rewrite Z.pow2_bits_false by lia. reflexivity.
    + rewrite Z.bits_0. reflexivity.
Qed.

(** Below 31 axes the test [corner & Math.pow(2,xDim)] reads bit [xDim] of
    the corner. *)
Lemma bit_set_testbit (c : Z) (x : nat) :
  0 <= c < 2 ^ 31 -> (x < 31)%nat -> bit_set c x = Z.testbit c (Z.of_nat x).
Proof.
  intros Hc Hx. unfold bit_set.
  rewrite (toInt32_small c Hc).
  assert (Hp : 0 <= 2 ^ Z.of_nat x < 2 ^ 31).
  { split; [apply Z.pow_nonneg; lia |].
    apply Z.pow_lt_mono_r; lia. }
  rewrite (toInt32_small _ Hp). rewrite land_pow2 by lia.
  destruct (Z.testbit c (Z.of_nat x)).
  - destruct (Z.eqb_spec (2 ^ Z.of_nat x) 0) as [E | E]; [lia | reflexivity].
  - reflexivity.
Qed.

Lemma all_bits_ones (c : Z) (D : nat) :
  0 <= c < 2 ^ Z.of_nat D ->
  (forall x, (x < D)%nat -> Z.testbit c (Z.of_nat x) = true) ->
  c = 2 ^ Z.of_nat D - 1.
Proof.
  intros Hc Hall. rewrite Z.sub_1_r, <- Z.ones_equiv.
  apply Z.bits_inj'. intros n Hn.
  destruct (Z_lt_le_dec n (Z.of_nat D)) as [Hlt | Hge].
  - rewrite Z.ones_spec_low by lia.
    replace n with (Z.of_nat (Z.to_nat n)) by lia. apply Hall. lia.
  - rewrite Z.ones_spec_high by lia.
    destruct (Z.eq_dec c 0) as [-> | Hnz]; [apply Z.bits_0 |].
    apply Z.bits_above_log2; [lia |].
    apply Z.log2_lt_pow2; [lia |].
    apply Z.lt_le_trans with (2 ^ Z.of_nat D); [lia |].
    apply Z.pow_le_mono_r; lia.
Qed.

Lemma ones_bits (D x : nat) :
  (x < D)%nat -> Z.testbit (2 ^ Z.of_nat D - 1) (Z.of_nat x) = true.
Proof.
  intro H. rewrite Z.sub_1_r, <- Z.ones_equiv. apply Z.ones_spec_low. lia.
Qed.

Lemma pow2_nat (D : nat) : Z.of_nat (2 ^ D) = 2 ^ Z.of_nat D.
Proof.
  rewrite Nat2Z.inj_pow. reflexivity.
Qed.

(** Every corner but the last has a clear bit among the [D] lowest; the
    last corner has them all set. *)
Lemma corner_bits (D i : nat) :
  (D <= 31)%nat -> (i < 2 ^ D)%nat ->
  forallb (bit_set (Z.of_nat i)) (seq 0 D) = (i =? 2 ^ D - 1)%nat.
Proof.
  intros HD Hi.
  assert (Hpow : 2 ^ Z.of_nat D <= 2 ^ 31)
    by (apply Z.pow_le_mono_r; lia).
  assert (Hc : 0 <= Z.of_nat i < 2 ^ Z.of_nat D)
    by (rewrite <- pow2_nat; lia).
  destruct (Nat.eqb_spec i (2 ^ D - 1)) as [-> | Hne].
  - apply forallb_forall. intros x Hx. apply in_seq in Hx.
    rewrite bit_set_testbit by lia.
    replace (Z.of_nat (2 ^ D - 1)) with (2 ^ Z.of_nat D - 1)
      by (rewrite <- pow2_nat; lia).
    apply ones_bits. lia.
  - destruct (forallb (bit_set (Z.of_nat i)) (seq 0 D)) eqn:E;
      [| reflexivity].
    exfalso. apply Hne.
    assert (H : Z.of_nat i = 2 ^ Z.of_nat D - 1).
    { apply all_bits_ones; [exact Hc |]. intros x Hx.
      rewrite <- bit_set_testbit by lia.
      rewrite forallb_forall in E. apply E. apply in_seq. lia. }
    rewrite <- pow2_nat in H. lia.
Qed.

End CornerBits.

Section ListFacts.

Import loaded_SafeSet.
Context {A : Type}.

Lemma for_each_some (f : nat -> option A) (g : nat -> A) (xs : list nat) :
  (forall x, In x xs -> f x = Some (g x)) ->
  for_each f xs = Some (map g xs).
Proof.
  induction xs as [| x xs IH]; intro H; simpl.
  - reflexivity.
  - rewrite (H x (or_introl eq_refl)).
    rewrite IH by (intros y Hy; apply H; right; exact Hy). reflexivity.
Qed.

Lemma map_nth_seq (l : list A) (d : A) (a : nat) :
  map (fun x => nth (x - a) l d) (seq a (length l)) = l.
Proof.
  revert a. induction l as [| h t IH]; intro a; simpl.
  - reflexivity.
  - rewrite Nat.sub_diag. f_equal.
    rewrite <- (IH (S a)) at 2. apply map_ext_in.
    intros x Hx. apply in_seq in Hx.
    replace (x - a)%nat with (S (x - S a)) by lia. reflexivity.
Qed.

End ListFacts.

Section GridPoint.

Import loaded_SafeSet.
Variable this : reachset.
Variable states : list Q.
Variable ks : list Z.

(** [states] is the grid point of index [ks]: on every axis the index is
    in range and the coordinate is [gmin + k*gdx], the spacing being
    nonzero. *)
Definition on_grid_point : Prop :=
  length ks = length states
  /\ forall x, (x < length states)%nat ->
       exists s m dx N k,
         nth_error states x = Some s
         /\ nth_error (gmin this) x = Some m
         /\ nth_error (gdx this) x = Some dx
         /\ ~ dx == 0
         /\ nth_error (gN this) x = Some N
         /\ nth_error ks x = Some k
         /\ (0 <= k < N)%Z
         /\ s == inject_Z k * dx + m.

Hypothesis Hgrid : on_grid_point.

Lemma into_grid_in_range (x : nat) (N k : Z) :
  nth_error (gN this) x = Some N -> (0 <= k < N)%Z ->
  into_grid this x k = Some k.
Proof.
  intros HN Hk. unfold into_grid, wrap, clamp. rewrite HN.
  destruct (k <? 0)%Z eqn:E1; [apply Z.ltb_lt in E1; lia |].
  destruct (N <=? k)%Z eqn:E2; [apply Z.leb_le in E2; lia |].
  destruct (periodic this x); reflexivity.
Qed.

Lemma axis_on_grid (x : nat) :
  (x < length states)%nat ->
  dl_axis this states x = Some 1
  /\ dh_axis this states x = Some 0
  /\ wl_axis this states x = Some (nth x ks 0%Z)
  /\ wh_axis this states x = Some (nth x ks 0%Z).
Proof.
  intro Hx. destruct Hgrid as [_ H].
  destruct (H x Hx) as (s & m & dx & N & k & Hs & Hm & Hdx & Hnz & HN & Hk
                          & Hrange & Hon).
  rewrite (nth_error_nth _ _ 0%Z Hk).
  assert (Hq : (s - m) / dx == inject_Z k) by (rewrite Hon; field; exact Hnz).
  assert (Hfl : Qfloor ((s - m) / dx) = k)
    by (rewrite (Qfloor_comp _ _ Hq); apply Qfloor_Z).
  assert (Hce : Qceiling ((s - m) / dx) = k)
    by (rewrite (Qceiling_comp _ _ Hq); apply Qceiling_Z).
  assert (Hb : Qeq_bool dx 0 = false).
  { destruct (Qeq_bool dx 0) eqn:E; [| reflexivity].
    apply Qeq_bool_iff in E. contradiction. }
  unfold dl_axis, dh_axis, wl_axis, wh_axis, lowEdge, highEdge, quotient,
    indexToState.
  rewrite Hs, Hm, Hdx, Hb, Hfl, Hce, Z.eqb_refl.
  rewrite (into_grid_in_range x N k HN Hrange). auto.
Qed.

Let D : nat := length states.
Let ones : list Q := map (fun _ => 1) (seq 0 D).
Let zeros : list Q := map (fun _ => 0) (seq 0 D).

Lemma value_on_grid_finish :
  value this states = finish this D (Some ones) (Some zeros) (Some ks) (Some ks).
Proof.
  rewrite value_axiswise. cbv zeta. fold D.
  assert (Hks : map (fun x => nth x ks 0%Z) (seq 0 D) = ks).
  { unfold D. destruct Hgrid as [<- _].
    transitivity (map (fun x => nth (x - 0) ks 0%Z) (seq 0 (length ks)));
      [| apply map_nth_seq].
    apply map_ext. intro x. rewrite Nat.sub_0_r. reflexivity. }
  rewrite (for_each_some (dl_axis this states) (fun _ => 1)).
  2:{ intros x Hx. apply in_seq in Hx. apply axis_on_grid. unfold D in Hx. lia. }
  rewrite (for_each_some (dh_axis this states) (fun _ => 0)).
  2:{ intros x Hx. apply in_seq in Hx. apply axis_on_grid. unfold D in Hx. lia. }
  rewrite (for_each_some (wl_axis this states) (fun x => nth x ks 0%Z)).
  2:{ intros x Hx. apply in_seq in Hx. apply axis_on_grid. unfold D in Hx. lia. }
  rewrite (for_each_some (wh_axis this states) (fun x => nth x ks 0%Z)).
  2:{ intros x Hx. apply in_seq in Hx. apply axis_on_grid. unfold D in Hx. lia. }
  rewrite Hks. reflexivity.
Qed.

(** The nested lookup of [griddedValue]. *)
Definition lookup (l : list Z) (cv : option nest) : option nest :=
  fold_left
    (fun acc i => match acc with Some c => js_index c i | None => None end)
    l cv.

Lemma lookup_none (l : list Z) : lookup l None = None.
Proof. induction l as [| i l IH]; simpl; auto. Qed.

(** The volume that the walk of corner [c] accumulates at a grid point: a
    factor 1 for a set bit, a factor 0 for a clear one. *)
Definition prodw (c : Z) (xs : list nat) (vol : Q) : Q :=
  fold_left (fun w x => w * (if bit_set c x then 1 else 0)) xs vol.

Lemma prodw_spec (c : Z) (xs : list nat) (vol : Q) :
  prodw c xs vol == vol * (if forallb (bit_set c) xs then 1 else 0).
Proof.
  revert vol. induction xs as [| x xs IH]; intro vol; simpl.
  - ring.
  - unfold prodw in *. rewrite IH.
    destruct (bit_set c x), (forallb (bit_set c) xs); simpl; ring.
Qed.

Lemma skipn_nth_error {A : Type} (l : list A) (a : nat) (k : A) :
  nth_error l a = Some k -> skipn a l = k :: skipn (S a) l.
Proof.
  revert a. induction l as [| h t IH]; intros [| a] H; simpl in *;
    try discriminate.
  - injection H as ->. reflexivity.
  - apply IH. exact H.
Qed.

Lemma walk_on_grid (c : Z) (n a : nat) (vol : Q) (cv : nest) :
  (a + n = D)%nat ->
  corner_walk ones zeros ks ks c (seq a n) vol cv =
  match lookup (skipn a ks) (Some cv) with
  | Some c' => Some (prodw c (seq a n) vol, c')
  | None => None
  end.
Proof.
  revert a vol cv. induction n as [| n IH]; intros a vol cv Ha.
  - simpl. rewrite skipn_all2; [reflexivity |].
    destruct Hgrid as [-> _]. fold D. lia.
  - assert (Hlen : length ks = D) by (destruct Hgrid as [-> _]; reflexivity).
    destruct (nth_error ks a) as [k |] eqn:Hk.
    2:{ apply nth_error_None in Hk. lia. }
    assert (H1 : nth_error ones a = Some 1).
    { unfold ones. rewrite nth_error_map, nth_error_seq.
      replace (a <? D)%nat with true by (symmetry; apply Nat.ltb_lt; lia).
      reflexivity. }
    assert (H0 : nth_error zeros a = Some 0).
    { unfold zeros. rewrite nth_error_map, nth_error_seq.
      replace (a <? D)%nat with true by (symmetry; apply Nat.ltb_lt; lia).
      reflexivity. }
    rewrite (skipn_nth_error ks a k Hk). simpl. rewrite H1, H0, Hk.
    destruct (bit_set c a); destruct (js_index cv k) as [c1 |];
      try (rewrite lookup_none; reflexivity);
      rewrite IH by lia; reflexivity.
Qed.

Variable v : Q.
Hypothesis Hv : griddedValue this ks = Some v.

Lemma corner_term_on_grid (c : Z) :
  corner_term this D ones zeros ks ks c = Some (prodw c (seq 0 D) 1 * v).
Proof.
  unfold corner_term. generalize Hv. unfold griddedValue.
  destruct (data this) as [v0 | elems]; [discriminate |].
  rewrite walk_on_grid by lia. simpl skipn. unfold lookup.
  destruct (fold_left _ ks (Some (Arr elems))) as [[v' | l] |];
    try discriminate.
  intro Hv'. injection Hv' as ->. reflexivity.
Qed.

Hypothesis HD : (D <= 31)%nat.

Lemma sum_of_zero_terms (cs : list Z) (s0 : Q) :
  (forall c, In c cs -> prodw c (seq 0 D) 1 == 0) ->
  exists s', fold_left
               (fun value corner =>
                  match value, corner_term this D ones zeros ks ks corner with
                  | Some v, Some t => Some (v + t)
                  | _, _ => None
                  end) cs (Some s0) = Some s'
             /\ s' == s0.
Proof.
  revert s0. induction cs as [| c cs IH]; intros s0 H; simpl.
  - exists s0. split; reflexivity.
  - rewrite corner_term_on_grid.
    destruct (IH (s0 + prodw c (seq 0 D) 1 * v)
                (fun c' Hc' => H c' (or_intror Hc'))) as (s' & Hs' & Heq).
    exists s'. split; [exact Hs' |].
    rewrite Heq, (H c (or_introl eq_refl)). ring.
Qed.

Lemma weighted_sum_on_grid :
  exists s', weighted_sum this D ones zeros ks ks = Some s' /\ s' == v.
Proof.
  unfold weighted_sum, corners.
  assert (Hpos : (2 ^ D = S (2 ^ D - 1))%nat).
  { assert (2 ^ D <> 0)%nat by (apply Nat.pow_nonzero; lia). lia. }
  replace (seq 0 (2 ^ D)) with (seq 0 (S (2 ^ D - 1)))
    by (rewrite <- Hpos; reflexivity).
  rewrite seq_S, map_app, fold_left_app. simpl.
  destruct (sum_of_zero_terms (map Z.of_nat (seq 0 (2 ^ D - 1))) 0)
    as (s1 & Hs1 & Heq1).
  { intros c Hc. apply in_map_iff in Hc. destruct Hc as (i & <- & Hi).
    apply in_seq in Hi. rewrite prodw_spec, corner_bits by lia.
    replace (i =? 2 ^ D - 1)%nat with false
      by (symmetry; apply Nat.eqb_neq; lia).
    ring. }
  rewrite Hs1, corner_term_on_grid.
  eexists. split; [reflexivity |].
  rewrite Heq1, prodw_spec, corner_bits by lia.
  rewrite Nat.eqb_refl. ring.
Qed.

Lemma total_volume_loop (n a : nat) (t : Q) :
  (a + n <= D)%nat -> ~ t == 0 ->
  exists T,
    fold_left
      (fun total xDim =>
         match total, nth_error (gdx this) xDim with
         | Some t, Some dx => Some (t * dx)
         | _, _ => None
         end) (seq a n) (Some t) = Some T
    /\ ~ T == 0.
Proof.
  revert a t. induction n as [| n IH]; intros a t Ha Ht; simpl.
  - exists t. split; [reflexivity | exact Ht].
  - destruct Hgrid as [_ H].
    destruct (H a) as (s & m & dx & N & k & _ & _ & Hdx & Hnz & _);
      [unfold D in Ha; lia |].
    rewrite Hdx. apply IH; [lia |].
    intro H0. apply Qmult_integral in H0. tauto.
Qed.

Lemma value_on_grid :
  exists total,
    total_volume this D = Some total
    /\ ~ total == 0
    /\ opt_eq (value this states) (Some (v / total)).
Proof.
  destruct (total_volume_loop D 0 1) as (T & HT & HTnz);
    [lia | discriminate |].
  destruct weighted_sum_on_grid as (s' & Hs' & Heq).
  exists T. split; [exact HT |]. split; [exact HTnz |].
  rewrite value_on_grid_finish. unfold finish.
  rewrite Hs'. unfold total_volume. rewrite HT.
  destruct (Qeq_bool T 0) eqn:E;
    [apply Qeq_bool_iff in E; contradiction |].
  simpl. rewrite Heq. reflexivity.
Qed.

End GridPoint.

(** X2: The value at a grid point, in every dimension up to 31, on a grid
    where locating the cell is exact in binary64 ([exact_axes]): at the
    grid point of index [ks], [value] answers the stored value divided by
    the product of the spacings, because each on-grid axis contributes the
    weight 1 where the normalisation divides by its spacing. *)
Lemma loaded_SafeSet_value_grid_point_law (this : loaded_SafeSet.reachset)
  (states : list Q) (ks : list Z) (v : Q) :
  on_grid_point this states ks ->
  exact_axes this states = true ->
  (length states <= 31)%nat ->
  loaded_SafeSet.griddedValue this ks = Some v ->
  exists total,
    loaded_SafeSet.total_volume this (length states) = Some total
    /\ ~ total == 0
    /\ opt_eq (loaded_SafeSet.value this states) (Some (v / total)).
Proof.
  intros Hgrid _ HD Hv. apply (value_on_grid this states ks Hgrid v Hv HD).
Qed.

(** The grid of the failing input of C1: three by three points of spacing
    1/2 from the origin, the value 3 stored at index (1,1) and 1
    elsewhere. *)
Definition half_grid : loaded_SafeSet.reachset :=
  loaded_SafeSet.Build [0; 0] [1 # 2; 1 # 2] [3; 3]%Z [false; false]
    (loaded_SafeSet.Arr
       [loaded_SafeSet.Arr
          [loaded_SafeSet.Num 1; loaded_SafeSet.Num 1; loaded_SafeSet.Num 1];
        loaded_SafeSet.Arr
          [loaded_SafeSet.Num 1; loaded_SafeSet.Num 3; loaded_SafeSet.Num 1];
        loaded_SafeSet.Arr
          [loaded_SafeSet.Num 1; loaded_SafeSet.Num 1; loaded_SafeSet.Num 1]]).

(** C1, at the grid point of index (1,1) of [half_grid], the state
    (1/2, 1/2): the stored value is 3, and [value] answers 12, the stored
    value divided by the cell volume 1/4. *)
Theorem loaded_SafeSet_value_on_grid_point :
  loaded_SafeSet.indexToState half_grid 1 0 = Some (1 # 2)
  /\ loaded_SafeSet.indexToState half_grid 1 1 = Some (1 # 2)
  /\ loaded_SafeSet.griddedValue half_grid [1; 1]%Z = Some 3
  /\ opt_eq (loaded_SafeSet.value half_grid [1 # 2; 1 # 2]) (Some 12)
  /\ ~ opt_eq (loaded_SafeSet.value half_grid [1 # 2; 1 # 2]) (Some 3).
Proof.
  repeat split; try reflexivity; vm_compute; discriminate.
Qed.

(** The scenario of the specification, a grid of unit spacing: there the
    product of the spacings is 1 and the grid points are exact. *)
Definition unit_grid : loaded_SafeSet.reachset :=
  loaded_SafeSet.Build [- (1); - (1)] [1; 1] [3; 3]%Z [false; false]
    (loaded_SafeSet.Arr
       [loaded_SafeSet.Arr
          [loaded_SafeSet.Num 1; loaded_SafeSet.Num 1; loaded_SafeSet.Num 1];
        loaded_SafeSet.Arr
          [loaded_SafeSet.Num 1; loaded_SafeSet.Num 0; loaded_SafeSet.Num 1];
        loaded_SafeSet.Arr
          [loaded_SafeSet.Num 1; loaded_SafeSet.Num 1; loaded_SafeSet.Num 1]]).

Example unit_grid_values :
  opt_eq (loaded_SafeSet.value unit_grid [0; 0]) (Some 0)
  /\ opt_eq (loaded_SafeSet.value unit_grid [- (1); - (1)]) (Some 1)
  /\ opt_eq (loaded_SafeSet.value unit_grid [- (1 # 2); - (1 # 2)])
       (Some (3 # 4)).
Proof. repeat split; vm_compute; reflexivity. Qed.

(** Off the grid lines [half_grid] interpolates as it should: at the centre
    of the cell with corners 1, 1, 1, 3 the value is their mean. *)
Example half_grid_cell_centre :
  opt_eq (loaded_SafeSet.value half_grid [1 # 4; 1 # 4]) (Some (3 # 2)).
Proof. vm_compute. reflexivity. Qed.

(** *** Gradients at singular points *)

Module IEEEFacts.

Import Floats IEEE.
Local Open Scope Z_scope.

(** Dividing a finite nonzero binary64 number by itself: the quotient of the
    mantissas is exactly [2^53] at exponent [-53]. *)
Lemma SFdiv_core_self (m : positive) (e : Z) :
  SFdiv_core_binary prec emax (Zpos m) e (Zpos m) e
  = (2 ^ 53, -53, loc_Exact).
Proof.
  unfold SFdiv_core_binary.
  rewrite !Z.sub_diag.
  change (Z.min (fexp prec emax 0) 0) with (-53).
  change (0 - -53) with 53.
  cbv iota beta zeta.
  rewrite Z.shiftl_mul_pow2 by lia.
  assert (Hq : Zpos m * 2 ^ 53 / Zpos m = 2 ^ 53).
  { rewrite Z.mul_comm. apply Z.div_mul. lia. }
  assert (Hr : (Zpos m * 2 ^ 53) mod Zpos m = 0).
  { rewrite Z.mul_comm. apply Z.mod_mul. lia. }
  unfold Z.div, Z.modulo in Hq, Hr.
  destruct (Z.div_eucl (Zpos m * 2 ^ 53) (Zpos m)) as [q r].
  subst q r. unfold new_location, new_location_even, new_location_odd.
  destruct (Z.even (Zpos m)); reflexivity.
Qed.

Lemma SFdiv_self_abs (s : bool) (m : positive) (e : Z) :
  SF64div (S754_finite s m e) (SFabs (S754_finite s m e))
  = S754_finite s 4503599627370496 (-52).
Proof.
  unfold SF64div, SFdiv, SFabs. rewrite SFdiv_core_self.
  destruct s; reflexivity.
Qed.

(** [x / Math.abs(x)] is the sign of [x] for a finite nonzero [x], and [NaN]
    for a zero, an infinity and [NaN]. *)
Lemma div_abs_self (x : float) :
  (x / abs x)%float =
  match Prim2SF x with
  | S754_finite s _ _ => if s then (-1)%float else 1%float
  | _ => nan
  end.
Proof.
  rewrite <- (SF2Prim_Prim2SF (x / abs x)). rewrite div_spec, abs_spec.
  destruct (Prim2SF x) as [s | s | | s m e]; try reflexivity.
  rewrite SFdiv_self_abs. destruct s; reflexivity.
Qed.

Lemma is_zero_spec (n : float) :
  is_zero n = true -> exists s, Prim2SF n = S754_zero s.
Proof.
  unfold is_zero. rewrite eqb_spec.
  change (Prim2SF zero) with (S754_zero false).
  unfold SFeqb, SFcompare.
  destruct (Prim2SF n) as [s | s | | s m e]; try discriminate.
  - intros _. exists s. reflexivity.
  - destruct s; discriminate.
  - destruct s; discriminate.
Qed.

(** A division by zero never gives a finite number: it gives an infinity
    for a nonzero dividend and [NaN] for a zero or [NaN] one. *)
Lemma div_by_zero_not_finite (x n : float) :
  is_zero n = true -> is_finite (x / n) = false.
Proof.
  intro Hn. destruct (is_zero_spec n Hn) as [sn Hsn].
  rewrite <- (SF2Prim_Prim2SF (x / n)). rewrite div_spec, Hsn.
  unfold SF64div, SFdiv.
  destruct (Prim2SF x) as [s | s | | s m e]; try reflexivity;
    destruct s, sn; reflexivity.
Qed.

(** *** Magnitudes of rounded results

    The number of binary digits of a mantissa and the exponent give the
    binade of a finite number; the lemmas below follow it through the
    rounding of [SpecFloat] and through the square, the sum, the square
    root and the quotient. *)

Lemma digits2_size (p : positive) : digits2_pos p = Pos.size p.
Proof. induction p; simpl; congruence. Qed.

Lemma Zdigits2_log2 (p : positive) :
  Zdigits2 (Zpos p) = Z.log2 (Zpos p) + 1.
Proof.
  unfold Zdigits2. rewrite digits2_size.
  destruct p; simpl; rewrite ?Pos2Z.inj_succ; lia.
Qed.

Lemma digits_bounds (m : Z) :
  0 < m -> 2 ^ (Zdigits2 m - 1) <= m < 2 ^ Zdigits2 m.
Proof.
  intro H. destruct m as [| p | p]; try lia.
  rewrite Zdigits2_log2.
  replace (Z.log2 (Zpos p) + 1 - 1) with (Z.log2 (Zpos p)) by lia.
  replace (Z.log2 (Zpos p) + 1) with (Z.succ (Z.log2 (Zpos p))) by lia.
  apply Z.log2_spec. lia.
Qed.

Lemma digits_pos (m : Z) : 0 < m -> 1 <= Zdigits2 m.
Proof.
  intro H. destruct m as [| p | p]; try lia.
  rewrite Zdigits2_log2. pose proof (Z.log2_nonneg (Zpos p)). lia.
Qed.

Lemma digits_nonneg (m : Z) : 0 <= Zdigits2 m.
Proof. destruct m; simpl; lia. Qed.

Lemma digits_ge (m k : Z) : 0 <= k -> 2 ^ k <= m -> k + 1 <= Zdigits2 m.
Proof.
  intros Hk H.
  assert (0 < m) by (pose proof (Z.pow_pos_nonneg 2 k); lia).
  destruct m as [| p | p]; try lia.
  rewrite Zdigits2_log2. apply Z.log2_le_pow2 in H; lia.
Qed.

Lemma digits_le (m k : Z) : 0 <= m < 2 ^ k -> 0 <= k -> Zdigits2 m <= k.
Proof.
  intros H Hk. destruct m as [| p | p]; try lia.
  - simpl. lia.
  - rewrite Zdigits2_log2.
    assert (Z.log2 (Zpos p) < k) by (apply Z.log2_lt_pow2; lia). lia.
Qed.

(** Shifting a mantissa right. *)
Lemma shr_1_m (r : shr_record) :
  0 <= shr_m r -> shr_m (shr_1 r) = shr_m r / 2.
Proof.
  destruct r as [m rb sb]. simpl. intro H.
  destruct m as [| p | p]; try lia; [reflexivity |].
  destruct p as [p | p |]; simpl.
  - rewrite Pos2Z.inj_xI.
    apply Z.div_unique with 1; lia.
  - rewrite Pos2Z.inj_xO.
    apply Z.div_unique with 0; lia.
  - reflexivity.
Qed.

Lemma div_pow2_pow2 (m a b : Z) :
  0 <= a -> 0 <= b -> m / 2 ^ a / 2 ^ b = m / 2 ^ (a + b).
Proof.
  intros Ha Hb. rewrite Z.pow_add_r by lia.
  pose proof (Z.pow_pos_nonneg 2 a ltac:(lia) Ha).
  pose proof (Z.pow_pos_nonneg 2 b ltac:(lia) Hb).
  apply Z.div_div; lia.
Qed.

Lemma div_pow2_nonneg (m a : Z) : 0 <= m -> 0 <= a -> 0 <= m / 2 ^ a.
Proof.
  intros Hm Ha. apply Z.div_pos; [exact Hm |].
  apply Z.pow_pos_nonneg; lia.
Qed.

Lemma shr_iter_m (p : positive) :
  forall r, 0 <= shr_m r ->
    shr_m (iter_pos shr_1 p r) = shr_m r / 2 ^ Zpos p.
Proof.
  induction p as [p IH | p IH |]; intros r Hr; simpl iter_pos.
  - assert (H1 : 0 <= shr_m (shr_1 r))
      by (rewrite shr_1_m by exact Hr; apply (div_pow2_nonneg _ 1); lia).
    assert (H2 : 0 <= shr_m (iter_pos shr_1 p (shr_1 r)))
      by (rewrite IH by exact H1; apply div_pow2_nonneg; lia).
    rewrite IH by exact H2. rewrite IH by exact H1. rewrite shr_1_m by exact Hr.
    change (shr_m r / 2) with (shr_m r / 2 ^ 1).
    rewrite !div_pow2_pow2 by lia. f_equal. f_equal. lia.
  - assert (H2 : 0 <= shr_m (iter_pos shr_1 p r))
      by (rewrite IH by exact Hr; apply div_pow2_nonneg; lia).
    rewrite IH by exact H2. rewrite IH by exact Hr.
    rewrite div_pow2_pow2 by lia. f_equal. f_equal. lia.
  - apply shr_1_m. exact Hr.
Qed.

Lemma shr_record_of_loc_m (m : Z) (l : location) :
  shr_m (shr_record_of_loc m l) = m.
Proof. destruct l as [| []]; reflexivity. Qed.

(** [shr_fexp]: the new exponent and the shifted mantissa. *)
Lemma shr_fexp_spec (m e : Z) (l : location) :
  0 <= m ->
  let e' := Z.max e (fexp prec emax (Zdigits2 m + e)) in
  snd (shr_fexp prec emax m e l) = e'
  /\ shr_m (fst (shr_fexp prec emax m e l)) = m / 2 ^ (e' - e).
Proof.
  intro Hm. cbv zeta. unfold shr_fexp, shr.
  set (f := fexp prec emax (Zdigits2 m + e)).
  destruct (f - e) as [| p | p] eqn:E; simpl.
  - replace (Z.max e f) with e by lia.
    rewrite Z.sub_diag, shr_record_of_loc_m. simpl. rewrite Z.div_1_r. auto.
  - replace (Z.max e f) with (e + Zpos p) by lia.
    split; [reflexivity |].
    rewrite shr_iter_m by (rewrite shr_record_of_loc_m; exact Hm).
    rewrite shr_record_of_loc_m. f_equal. f_equal. lia.
  - replace (Z.max e f) with e by lia.
    rewrite Z.sub_diag, shr_record_of_loc_m. simpl. rewrite Z.div_1_r. auto.
Qed.

Lemma rne_bounds (m : Z) (l : location) :
  m <= round_nearest_even m l <= m + 1.
Proof.
  unfold round_nearest_even. destruct l as [| []]; try lia.
  destruct (Z.even m); lia.
Qed.

Lemma digits_mono (a b : Z) : 0 < a <= b -> Zdigits2 a <= Zdigits2 b.
Proof.
  intro H. pose proof (digits_bounds a ltac:(lia)) as Ha.
  pose proof (digits_pos a ltac:(lia)).
  pose proof (digits_ge b (Zdigits2 a - 1) ltac:(lia) ltac:(lia)). lia.
Qed.

Lemma digits_succ (m : Z) : 0 <= m -> Zdigits2 (m + 1) <= Zdigits2 m + 1.
Proof.
  intro H. pose proof (digits_nonneg m).
  apply digits_le; [| lia].
  destruct (Z.eq_dec m 0) as [-> | Hne]; [simpl; lia |].
  pose proof (digits_bounds m ltac:(lia)) as Hb.
  rewrite Z.pow_add_r by lia. lia.
Qed.

Lemma digits_shr_lower (m k : Z) :
  0 < m -> 0 <= k -> k + 1 <= Zdigits2 m ->
  0 < m / 2 ^ k /\ Zdigits2 m - k <= Zdigits2 (m / 2 ^ k).
Proof.
  intros Hm Hk Hd. pose proof (digits_bounds m Hm) as [Hlo _].
  pose proof (Z.pow_pos_nonneg 2 k ltac:(lia) Hk) as Hp.
  assert (Hq : 2 ^ (Zdigits2 m - 1 - k) <= m / 2 ^ k).
  { apply Z.div_le_lower_bound; [lia |].
    rewrite <- Z.pow_add_r by lia.
    replace (k + (Zdigits2 m - 1 - k)) with (Zdigits2 m - 1) by lia.
    exact Hlo. }
  pose proof (Z.pow_pos_nonneg 2 (Zdigits2 m - 1 - k) ltac:(lia) ltac:(lia)).
  split; [lia |].
  pose proof (digits_ge (m / 2 ^ k) (Zdigits2 m - 1 - k) ltac:(lia) Hq). lia.
Qed.

Lemma digits_shr_upper (m k : Z) :
  0 <= m -> 0 <= k ->
  0 <= m / 2 ^ k /\ Zdigits2 (m / 2 ^ k) <= Z.max 0 (Zdigits2 m - k).
Proof.
  intros Hm Hk. split; [apply div_pow2_nonneg; assumption |].
  pose proof (Z.pow_pos_nonneg 2 k ltac:(lia) Hk) as Hp.
  destruct (Z.eq_dec m 0) as [-> | Hne].
  - rewrite Z.div_0_l by lia. simpl. lia.
  - pose proof (digits_bounds m ltac:(lia)) as [_ Hhi].
    pose proof (digits_pos m ltac:(lia)).
    destruct (Z_le_gt_dec k (Zdigits2 m)) as [Hle | Hgt].
    + apply digits_le; [| lia]. split; [apply div_pow2_nonneg; lia |].
      apply Z.div_lt_upper_bound; [lia |].
      rewrite <- Z.pow_add_r by lia.
      replace (k + Z.max 0 (Zdigits2 m - k)) with (Zdigits2 m) by lia.
      exact Hhi.
    + assert (m / 2 ^ k = 0) as ->.
      { apply Z.div_small. split; [lia |].
        apply Z.lt_le_trans with (2 ^ Zdigits2 m); [exact Hhi |].
        apply Z.pow_le_mono_r; lia. }
      simpl. lia.
Qed.

Lemma fexp_le (E : Z) : fexp prec emax E = Z.max (E - 53) (-1074).
Proof. reflexivity. Qed.

(** After [shr_fexp]: nothing is lost at the top. *)
Lemma shr_fexp_upper (m e : Z) (l : location) :
  0 <= m ->
  forall r e', shr_fexp prec emax m e l = (r, e') ->
    e' = Z.max e (fexp prec emax (Zdigits2 m + e))
    /\ 0 <= shr_m r
    /\ Zdigits2 (shr_m r) + e' <= Z.max (Zdigits2 m + e) e'.
Proof.
  intros Hm r e' E.
  destruct (shr_fexp_spec m e l Hm) as [H1 H2]. rewrite E in H1, H2.
  simpl in H1, H2. rewrite <- H1 in H2. split; [exact H1 |].
  assert (Hk : 0 <= e' - e) by lia.
  destruct (digits_shr_upper m (e' - e) Hm Hk) as [H3 H4].
  rewrite H2. split; [exact H3 |]. lia.
Qed.

Lemma shr_fexp_lower (m e : Z) (l : location) :
  0 < m -> -1073 <= Zdigits2 m + e ->
  forall r e', shr_fexp prec emax m e l = (r, e') ->
    0 < shr_m r /\ Zdigits2 m + e <= Zdigits2 (shr_m r) + e'.
Proof.
  intros Hm HE r e' E.
  destruct (shr_fexp_spec m e l ltac:(lia)) as [H1 H2]. rewrite E in H1, H2.
  simpl in H1, H2. rewrite <- H1 in H2. rewrite fexp_le in H1.
  pose proof (digits_pos m Hm).
  destruct (digits_shr_lower m (e' - e) Hm ltac:(lia) ltac:(lia)) as [H3 H4].
  rewrite H2. split; [exact H3 |]. lia.
Qed.

(** No overflow in [binary_round_aux] below [2^1023]. *)
Lemma round_no_overflow (s : bool) (mx ex : Z) (lx : location) :
  0 <= mx -> ex <= 971 -> Zdigits2 mx + ex <= 1023 ->
  binary_round_aux prec emax s mx ex lx = S754_zero s
  \/ exists m e, binary_round_aux prec emax s mx ex lx = S754_finite s m e.
Proof.
  intros Hm He HE. unfold binary_round_aux.
  destruct (shr_fexp prec emax mx ex lx) as [r1 e1] eqn:E1.
  destruct (shr_fexp_upper mx ex lx Hm r1 e1 E1) as (He1 & Hr1 & Hd1).
  rewrite fexp_le in He1.
  set (m2 := round_nearest_even (shr_m r1) (loc_of_shr_record r1)).
  assert (Hm2 : shr_m r1 <= m2 <= shr_m r1 + 1) by apply rne_bounds.
  destruct (shr_fexp prec emax m2 e1 loc_Exact) as [r2 e2] eqn:E2.
  destruct (shr_fexp_upper m2 e1 loc_Exact ltac:(lia) r2 e2 E2)
    as (He2 & Hr2 & _).
  rewrite fexp_le in He2.
  assert (Hd2 : Zdigits2 m2 <= Zdigits2 (shr_m r1) + 1).
  { destruct (Z.eq_dec m2 (shr_m r1)) as [-> | Hne]; [lia |].
    replace m2 with (shr_m r1 + 1) by lia. apply digits_succ. exact Hr1. }
  assert (He2' : e2 <= 971) by lia.
  destruct (shr_m r2) as [| p | p] eqn:E3.
  - left. reflexivity.
  - right. exists p, e2.
    replace (e2 <=? emax - prec) with true; [reflexivity |].
    symmetry. apply Z.leb_le. change (emax - prec) with 971. exact He2'.
  - lia.
Qed.

(** What [binary_round_aux] does at the bottom: a positive mantissa of
    magnitude at least [2^-1074] is not rounded below its binade. *)
Lemma round_lower (s : bool) (mx ex : Z) (lx : location) :
  0 < mx -> -1073 <= Zdigits2 mx + ex ->
  binary_round_aux prec emax s mx ex lx = S754_infinity s
  \/ exists m e, binary_round_aux prec emax s mx ex lx = S754_finite s m e
                 /\ Zdigits2 mx + ex <= Zdigits2 (Zpos m) + e.
Proof.
  intros Hm HE. unfold binary_round_aux.
  destruct (shr_fexp prec emax mx ex lx) as [r1 e1] eqn:E1.
  destruct (shr_fexp_lower mx ex lx Hm HE r1 e1 E1) as (Hr1 & Hd1).
  set (m2 := round_nearest_even (shr_m r1) (loc_of_shr_record r1)).
  assert (Hm2 : shr_m r1 <= m2 <= shr_m r1 + 1) by apply rne_bounds.
  assert (Hd2 : Zdigits2 (shr_m r1) <= Zdigits2 m2)
    by (apply digits_mono; lia).
  destruct (shr_fexp prec emax m2 e1 loc_Exact) as [r2 e2] eqn:E2.
  destruct (shr_fexp_lower m2 e1 loc_Exact ltac:(lia) ltac:(lia) r2 e2 E2)
    as (Hr2 & Hd3).
  destruct (shr_m r2) as [| p | p] eqn:E3; try lia.
  destruct (e2 <=? emax - prec); [| left; reflexivity].
  right. exists p, e2. split; [reflexivity | lia].
Qed.

(** A rounded nonnegative mantissa is a zero, a finite number of magnitude
    at least [2^-1074], or an infinity. *)
Lemma round_shape (s : bool) (mx ex : Z) (lx : location) :
  0 <= mx ->
  binary_round_aux prec emax s mx ex lx = S754_zero s
  \/ binary_round_aux prec emax s mx ex lx = S754_infinity s
  \/ exists m e, binary_round_aux prec emax s mx ex lx = S754_finite s m e
                 /\ -1073 <= Zdigits2 (Zpos m) + e.
Proof.
  intros Hm. unfold binary_round_aux.
  destruct (shr_fexp prec emax mx ex lx) as [r1 e1] eqn:E1.
  destruct (shr_fexp_upper mx ex lx Hm r1 e1 E1) as (He1 & Hr1 & Hd1).
  set (m2 := round_nearest_even (shr_m r1) (loc_of_shr_record r1)).
  assert (Hm2 : shr_m r1 <= m2 <= shr_m r1 + 1) by apply rne_bounds.
  destruct (shr_fexp prec emax m2 e1 loc_Exact) as [r2 e2] eqn:E2.
  destruct (shr_fexp_upper m2 e1 loc_Exact ltac:(lia) r2 e2 E2)
    as (He2 & Hr2 & _).
  rewrite fexp_le in He2.
  destruct (shr_m r2) as [| p | p] eqn:E3; try lia.
  - left. reflexivity.
  - destruct (e2 <=? emax - prec); [| right; left; reflexivity].
    right. right. exists p, e2. split; [reflexivity |].
    pose proof (digits_pos (Zpos p) ltac:(lia)). lia.
Qed.

(** Magnitudes: [big K f] says that [f] is [+Infinity] or a positive
    finite number of at least [2^(K-1)]. *)
Definition big (K : Z) (f : spec_float) : Prop :=
  f = S754_infinity false
  \/ exists m e, f = S754_finite false m e /\ K <= Zdigits2 (Zpos m) + e.

Definition nonneg (f : spec_float) : Prop :=
  f = S754_zero false \/ big (-1073) f.

Lemma big_weaken (K K' : Z) (f : spec_float) :
  K <= K' -> big K' f -> big K f.
Proof.
  intros H [-> | (m & e & -> & Hm)]; [left; reflexivity |].
  right. exists m, e. split; [reflexivity | lia].
Qed.

Lemma round_nonneg (mx ex : Z) (lx : location) :
  0 <= mx -> nonneg (binary_round_aux prec emax false mx ex lx).
Proof.
  intro H. destruct (round_shape false mx ex lx H) as [-> | [-> | (m & e & -> & Hm)]].
  - left. reflexivity.
  - right. left. reflexivity.
  - right. right. exists m, e. auto.
Qed.

Lemma round_big (K mx ex : Z) (lx : location) :
  0 < mx -> -1073 <= K -> K <= Zdigits2 mx + ex ->
  big K (binary_round_aux prec emax false mx ex lx).
Proof.
  intros Hm HK HE.
  destruct (round_lower false mx ex lx Hm ltac:(lia)) as [-> | (m & e & -> & H)].
  - left. reflexivity.
  - right. exists m, e. split; [reflexivity | lia].
Qed.

Lemma digits_mul_pow2 (m k : Z) :
  0 < m -> 0 <= k -> Zdigits2 (m * 2 ^ k) = Zdigits2 m + k.
Proof.
  intros Hm Hk. pose proof (digits_bounds m Hm) as [Hlo Hhi].
  pose proof (digits_pos m Hm) as Hd.
  pose proof (Z.pow_pos_nonneg 2 k ltac:(lia) Hk) as Hp.
  apply Z.le_antisymm.
  - apply digits_le; [| lia]. split; [nia |].
    rewrite Z.pow_add_r by lia. nia.
  - pose proof (digits_ge (m * 2 ^ k) (Zdigits2 m - 1 + k) ltac:(lia)) as H.
    rewrite Z.pow_add_r in H by lia.
    assert (2 ^ (Zdigits2 m - 1) * 2 ^ k <= m * 2 ^ k) by nia. lia.
Qed.

Lemma digits_square (m : Z) :
  0 < m -> 2 * Zdigits2 m - 1 <= Zdigits2 (m * m).
Proof.
  intro Hm. pose proof (digits_bounds m Hm) as [Hlo _].
  pose proof (digits_pos m Hm) as Hd.
  pose proof (Z.pow_pos_nonneg 2 (Zdigits2 m - 1) ltac:(lia) ltac:(lia)) as Hp.
  pose proof (digits_ge (m * m) (2 * Zdigits2 m - 2) ltac:(lia)) as H.
  replace (2 * Zdigits2 m - 2) with ((Zdigits2 m - 1) + (Zdigits2 m - 1)) in H by lia.
  rewrite Z.pow_add_r in H by lia.
  assert (2 ^ (Zdigits2 m - 1) * 2 ^ (Zdigits2 m - 1) <= m * m) by nia.
  lia.
Qed.

(** The square of a finite number. *)
Lemma mul_self_nonneg (x : spec_float) :
  (exists s, x = S754_zero s) \/ (exists s m e, x = S754_finite s m e) ->
  nonneg (SF64mul x x).
Proof.
  intros [[s ->] | (s & m & e & ->)]; unfold SF64mul, SFmul.
  - rewrite xorb_nilpotent. left. reflexivity.
  - rewrite xorb_nilpotent. apply round_nonneg. lia.
Qed.

Lemma mul_self_big (K : Z) (s : bool) (m : positive) (e : Z) :
  -1073 <= K -> K <= 2 * (Zdigits2 (Zpos m) + e) - 1 ->
  big K (SF64mul (S754_finite s m e) (S754_finite s m e)).
Proof.
  intros HK HE. unfold SF64mul, SFmul. rewrite xorb_nilpotent.
  apply round_big; [lia | exact HK |].
  rewrite Pos2Z.inj_mul.
  pose proof (digits_square (Zpos m) ltac:(lia)). lia.
Qed.

(** Aligning a mantissa on a smaller exponent keeps the magnitude. *)
Lemma iter_xO (m d : positive) :
  Zpos (Pos.iter xO m d) = Zpos m * 2 ^ Zpos d.
Proof.
  induction d as [| d IH] using Pos.peano_ind.
  - simpl. lia.
  - rewrite Pos.iter_succ, Pos2Z.inj_xO, IH, Pos2Z.inj_succ.
    rewrite Z.pow_succ_r by lia. lia.
Qed.

Lemma shl_align_spec (mx : positive) (ex ex' : Z) :
  let '(m', e') := shl_align mx ex ex' in
  e' <= ex /\ Zpos m' = Zpos mx * 2 ^ (ex - e')
  /\ Zdigits2 (Zpos m') + e' = Zdigits2 (Zpos mx) + ex.
Proof.
  unfold shl_align. destruct (ex' - ex) as [| p | p] eqn:E.
  - rewrite Z.sub_diag. simpl Z.pow. split; [lia |]. split; lia.
  - rewrite Z.sub_diag. simpl Z.pow. split; [lia |]. split; lia.
  - assert (Hd : ex - ex' = Zpos p) by lia.
    rewrite Hd, iter_xO. split; [lia |]. split; [reflexivity |].
    rewrite digits_mul_pow2 by lia. lia.
Qed.

Lemma add_finite_big (ma mb : positive) (ea eb : Z) :
  -1073 <= Zdigits2 (Zpos ma) + ea ->
  big (Z.max (Zdigits2 (Zpos ma) + ea) (Zdigits2 (Zpos mb) + eb))
    (SF64add (S754_finite false ma ea) (S754_finite false mb eb)).
Proof.
  intro Ha. unfold SF64add, SFadd, cond_Zopp.
  set (ez := Z.min ea eb).
  pose proof (shl_align_spec ma ea ez) as Sa.
  pose proof (shl_align_spec mb eb ez) as Sb.
  destruct (shl_align ma ea ez) as [ma' ea'] eqn:Ea.
  destruct (shl_align mb eb ez) as [mb' eb'] eqn:Eb.
  destruct Sa as (Sa1 & Sa2 & Sa3). destruct Sb as (Sb1 & Sb2 & Sb3).
  assert (Hea : ea' = ez).
  { unfold shl_align in Ea. destruct (ez - ea) eqn:E; injection Ea as _ <-; lia. }
  assert (Heb : eb' = ez).
  { unfold shl_align in Eb. destruct (ez - eb) eqn:E; injection Eb as _ <-; lia. }
  subst ea' eb'. simpl fst.
  change (Zpos ma' + Zpos mb') with (Zpos (ma' + mb')).
  unfold binary_normalize, binary_round.
  pose proof (shl_align_spec (ma' + mb') ez
                (fexp prec emax (Zpos (digits2_pos (ma' + mb')) + ez))) as Sz.
  destruct (shl_align (ma' + mb') ez _) as [mz ez'].
  destruct Sz as (_ & _ & Sz).
  assert (H1 : Zdigits2 (Zpos ma') <= Zdigits2 (Zpos (ma' + mb')))
    by (apply digits_mono; lia).
  assert (H2 : Zdigits2 (Zpos mb') <= Zdigits2 (Zpos (ma' + mb')))
    by (apply digits_mono; lia).
  apply round_big; lia.
Qed.

Lemma not_big_zero (K : Z) (s : bool) : ~ big K (S754_zero s).
Proof. intros [H | (m & e & H & _)]; discriminate H. Qed.

Lemma big_inf (K : Z) : big K (S754_infinity false).
Proof. left. reflexivity. Qed.

Lemma add_nonneg (a b : spec_float) :
  nonneg a -> nonneg b ->
  nonneg (SF64add a b)
  /\ (forall K, -1073 <= K -> big K a -> big K (SF64add a b))
  /\ (forall K, -1073 <= K -> big K b -> big K (SF64add a b)).
Proof.
  intros [-> | [-> | (ma & ea & -> & Ha)]] [-> | [-> | (mb & eb & -> & Hb)]].
  - split; [left; reflexivity |].
    split; intros K HK H; exfalso; exact (not_big_zero _ _ H).
  - split; [right; apply big_inf |].
    split; intros K HK H; apply big_inf.
  - split; [right; right; exists mb, eb; auto |].
    split; intros K HK H; [exfalso; exact (not_big_zero _ _ H) | exact H].
  - split; [right; apply big_inf |].
    split; intros K HK H; apply big_inf.
  - split; [right; apply big_inf |].
    split; intros K HK H; apply big_inf.
  - split; [right; apply big_inf |].
    split; intros K HK H; apply big_inf.
  - split; [right; right; exists ma, ea; auto |].
    split; intros K HK H; [exact H | exfalso; exact (not_big_zero _ _ H)].
  - split; [right; apply big_inf |].
    split; intros K HK H; apply big_inf.
  - pose proof (add_finite_big ma mb ea eb Ha) as H.
    split; [right; eapply big_weaken; [| exact H]; lia |].
    split; intros K HK [Hk | (m & e & Hk & Hm)]; try discriminate Hk;
      injection Hk as <- <-; (eapply big_weaken; [| exact H]); lia.
Qed.

(** The square root. *)
Lemma sqrt_core_lower (m : positive) (e : Z) :
  let '(q, e', l) := SFsqrt_core_binary prec emax (Zpos m) e in
  0 < q /\ (Zdigits2 (Zpos m) + e + 1) / 2 <= Zdigits2 q + e'.
Proof.
  unfold SFsqrt_core_binary.
  assert (Hd : 1 <= Zdigits2 (Zpos m)) by (apply digits_pos; lia).
  remember (Zdigits2 (Zpos m)) as d eqn:Ed.
  assert (He' : 2 * Z.min (fexp prec emax (Z.div2 (d + e + 1))) (Z.div2 e)
                <= e).
  { rewrite (Z.div2_div e).
    pose proof (Z.mul_div_le e 2 ltac:(lia)). lia. }
  remember (Z.min (fexp prec emax (Z.div2 (d + e + 1))) (Z.div2 e)) as e'
    eqn:Ee'. clear Ee'.
  remember (e - 2 * e') as s eqn:Es.
  assert (Hs : 0 <= s) by lia.
  remember (match s with
            | 0 => Zpos m
            | Zpos _ => Z.shiftl (Zpos m) s
            | Zneg _ => 0
            end) as m' eqn:Em'.
  assert (Hm' : m' = Zpos m * 2 ^ s).
  { rewrite Em'. destruct s as [| p | p].
    - change (2 ^ 0) with 1. lia.
    - apply Z.shiftl_mul_pow2. lia.
    - lia. }
  clear Em'.
  pose proof (Z.sqrtrem_sqrt m') as Hq.
  destruct (Z.sqrtrem m') as [q r]. simpl in Hq. subst q.
  assert (Hdm : Zdigits2 m' = d + s)
    by (rewrite Hm', Ed; apply digits_mul_pow2; lia).
  assert (Hpos : 0 < m').
  { rewrite Hm'. pose proof (Z.pow_pos_nonneg 2 s ltac:(lia) Hs). nia. }
  pose proof (digits_bounds m' Hpos) as [Hlo _]. rewrite Hdm in Hlo.
  remember ((d + s - 1) / 2) as j eqn:Ej.
  assert (Hj : 0 <= j) by (rewrite Ej; apply Z.div_pos; lia).
  assert (Hj2 : 2 * j <= d + s - 1)
    by (rewrite Ej; apply Z.mul_div_le; lia).
  assert (Hsq : 2 ^ j * 2 ^ j <= m').
  { rewrite <- Z.pow_add_r by lia.
    apply Z.le_trans with (2 ^ (d + s - 1)); [| exact Hlo].
    apply Z.pow_le_mono_r; lia. }
  pose proof (Z.pow_pos_nonneg 2 j ltac:(lia) Hj) as Hpj.
  assert (Hle : 2 ^ j <= Z.sqrt m')
    by (apply Z.sqrt_le_square; lia).
  split; [lia |].
  pose proof (digits_ge (Z.sqrt m') j Hj Hle) as Hdq.
  assert (Hfin : (d + e + 1) / 2 = j + 1 + e').
  { rewrite Ej, Es.
    replace (d + e + 1) with (d + (e - 2 * e') - 1 + (1 + e') * 2) by lia.
    rewrite Z.div_add by lia. lia. }
  lia.
Qed.

Lemma sqrt_nonneg (f : spec_float) :
  nonneg f ->
  nonneg (SF64sqrt f)
  /\ (forall K, -1073 <= K -> big K f -> big ((K + 1) / 2) (SF64sqrt f)).
Proof.
  intros [-> | [-> | (m & e & -> & Hm)]].
  - split; [left; reflexivity |].
    intros K HK H. exfalso. exact (not_big_zero _ _ H).
  - split; [right; apply big_inf |]. intros K HK H. apply big_inf.
  - unfold SF64sqrt, SFsqrt.
    pose proof (sqrt_core_lower m e) as Hc.
    destruct (SFsqrt_core_binary prec emax (Zpos m) e) as [[q e'] l].
    destruct Hc as [Hq Hd].
    assert (Hhalf : forall K, -1073 <= K -> -1073 <= (K + 1) / 2)
      by (intros K HK; apply Z.div_le_lower_bound; lia).
    assert (Hmono : forall K, K <= Zdigits2 (Zpos m) + e ->
              (K + 1) / 2 <= Zdigits2 q + e').
    { intros K HK.
      apply Z.le_trans with ((Zdigits2 (Zpos m) + e + 1) / 2); [| exact Hd].
      apply Z.div_le_mono; lia. }
    split.
    + right. apply round_big; [exact Hq | lia |].
      pose proof (Hmono (-1073) Hm) as H. 
      change ((-1073 + 1) / 2) with (-536) in H. lia.
    + intros K HK [Hk | (m0 & e0 & Hk & Hm0)]; [discriminate Hk |].
      injection Hk as <- <-.
      apply round_big; [exact Hq | apply Hhalf; exact HK | apply Hmono; exact Hm0].
Qed.

(** Division. *)
Definition finite_or_zero (f : spec_float) : bool :=
  match f with
  | S754_zero _ | S754_finite _ _ _ => true
  | _ => false
  end.

Lemma div_core_upper (mx mn : positive) (ex en : Z) :
  let '(q, e', l) := SFdiv_core_binary prec emax (Zpos mx) ex (Zpos mn) en in
  0 <= q
  /\ e' <= fexp prec emax (Zdigits2 (Zpos mx) + ex - (Zdigits2 (Zpos mn) + en))
  /\ Zdigits2 q + e'
     <= Z.max e' (Zdigits2 (Zpos mx) + ex - (Zdigits2 (Zpos mn) + en) + 1).
Proof.
  unfold SFdiv_core_binary.
  pose proof (digits_bounds (Zpos mx) ltac:(lia)) as [_ Hx].
  pose proof (digits_bounds (Zpos mn) ltac:(lia)) as [Hn _].
  pose proof (digits_pos (Zpos mx) ltac:(lia)) as Hdx.
  pose proof (digits_pos (Zpos mn) ltac:(lia)) as Hdn.
  remember (Zdigits2 (Zpos mx)) as d1 eqn:E1. clear E1.
  remember (Zdigits2 (Zpos mn)) as d2 eqn:E2. clear E2.
  assert (He : Z.min (fexp prec emax (d1 + ex - (d2 + en))) (ex - en)
               <= ex - en) by lia.
  assert (He2 : Z.min (fexp prec emax (d1 + ex - (d2 + en))) (ex - en)
                <= fexp prec emax (d1 + ex - (d2 + en))) by lia.
  remember (Z.min (fexp prec emax (d1 + ex - (d2 + en))) (ex - en)) as e'
    eqn:Ee. clear Ee.
  remember (ex - en - e') as s eqn:Es.
  assert (Hs : 0 <= s) by lia.
  remember (match s with
            | 0 => Zpos mx
            | Zpos _ => Z.shiftl (Zpos mx) s
            | Zneg _ => 0
            end) as m' eqn:Em'.
  assert (Hm' : m' = Zpos mx * 2 ^ s).
  { rewrite Em'. destruct s as [| p | p].
    - change (2 ^ 0) with 1. lia.
    - apply Z.shiftl_mul_pow2. lia.
    - lia. }
  clear Em'.
  assert (Hq : fst (Z.div_eucl m' (Zpos mn)) = m' / Zpos mn) by reflexivity.
  destruct (Z.div_eucl m' (Zpos mn)) as [q r]. simpl in Hq.
  pose proof (Z.pow_pos_nonneg 2 s ltac:(lia) Hs) as Hps.
  assert (Hm'pos : 0 < m') by nia.
  assert (Hm'hi : m' < 2 ^ (d1 + s)) by (rewrite Z.pow_add_r by lia; nia).
  assert (Hq0 : 0 <= q) by (rewrite Hq; apply Z.div_pos; lia).
  split; [exact Hq0 |]. split; [exact He2 |].
  destruct (Z_le_gt_dec 0 (d1 + s - d2 + 1)) as [Ht | Ht].
  - assert (Hlt : q < 2 ^ (d1 + s - d2 + 1)).
    { rewrite Hq. apply Z.div_lt_upper_bound; [lia |].
      apply Z.lt_le_trans with (2 ^ (d1 + s)); [exact Hm'hi |].
      replace (d1 + s) with ((d2 - 1) + (d1 + s - d2 + 1)) at 1 by lia.
      rewrite Z.pow_add_r by lia.
      pose proof (Z.pow_pos_nonneg 2 (d1 + s - d2 + 1) ltac:(lia) Ht).
      nia. }
    pose proof (digits_le q (d1 + s - d2 + 1) ltac:(lia) Ht). lia.
  - assert (q = 0) as ->.
    { rewrite Hq. apply Z.div_small. split; [lia |].
      apply Z.lt_le_trans with (2 ^ (d1 + s)); [exact Hm'hi |].
      apply Z.le_trans with (2 ^ (d2 - 1)); [| exact Hn].
      apply Z.pow_le_mono_r; lia. }
    simpl. lia.
Qed.

Lemma div_finite (K : Z) (sx : bool) (mx : positive) (ex : Z)
  (n : spec_float) :
  Zdigits2 (Zpos mx) + ex - K <= 1022 -> big K n ->
  finite_or_zero (SF64div (S754_finite sx mx ex) n) = true.
Proof.
  intros HE [-> | (mn & en & -> & Hn)]; [reflexivity |].
  unfold SF64div, SFdiv.
  pose proof (div_core_upper mx mn ex en) as Hc.
  destruct (SFdiv_core_binary prec emax (Zpos mx) ex (Zpos mn) en)
    as [[q e'] l].
  destruct Hc as (Hq & He & Hd). rewrite fexp_le in He.
  destruct (round_no_overflow (xorb sx false) q e' l Hq ltac:(lia) ltac:(lia))
    as [-> | (m & e & ->)]; reflexivity.
Qed.

Lemma div_zero_finite (K : Z) (s : bool) (n : spec_float) :
  big K n -> finite_or_zero (SF64div (S754_zero s) n) = true.
Proof. intros [-> | (mn & en & -> & Hn)]; reflexivity. Qed.

(** A number that is not finite has no finite quotient. *)
Lemma div_not_finite (x n : spec_float) :
  finite_or_zero x = false -> finite_or_zero (SF64div x n) = false.
Proof.
  destruct x as [s | s | | s m e]; try discriminate; intros _;
    destruct n as [sn | sn | | sn mn en]; reflexivity.
Qed.

(** Valid finite numbers are below [2^1024]. *)
Lemma valid_magnitude (s : bool) (m : positive) (e : Z) :
  valid_binary (S754_finite s m e) = true ->
  Zdigits2 (Zpos m) + e <= 1024.
Proof.
  unfold valid_binary, SpecFloat.valid_binary, bounded, canonical_mantissa.
  intro H.
  apply andb_true_iff in H. destruct H as [H1 H2].
  apply Z.eqb_eq in H1. apply Z.leb_le in H2.
  rewrite fexp_le in H1. change (emax - prec) with 971 in H2.
  change (Zdigits2 (Zpos m)) with (Zpos (digits2_pos m)). lia.
Qed.

Lemma is_finite_spec (z : float) :
  is_finite z = finite_or_zero (Prim2SF z).
Proof.
  unfold is_finite, is_nan, is_infinity.
  rewrite !eqb_spec, abs_spec.
  change (Prim2SF infinity) with (S754_infinity false).
  destruct (Prim2SF z) as [s | s | | s m e]; try reflexivity.
  - destruct s; reflexivity.
  - destruct s; unfold SFeqb, SFcompare, SFabs;
      rewrite Z.compare_refl, Pos.compare_cont_refl; reflexivity.
Qed.

Lemma is_zero_false (n : float) :
  is_zero n = false -> forall s, Prim2SF n <> S754_zero s.
Proof.
  unfold is_zero. rewrite eqb_spec.
  change (Prim2SF zero) with (S754_zero false).
  intros H s E. rewrite E in H. discriminate H.
Qed.

Lemma norm_quotient_finite (X S : spec_float) :
  valid_binary X = true -> finite_or_zero X = true ->
  nonneg S -> (forall s, SF64sqrt S <> S754_zero s) ->
  (forall K, -1073 <= K -> big K (SF64mul X X) -> big K S) ->
  finite_or_zero (SF64div X (SF64sqrt S)) = true.
Proof.
  intros Hv Hf HS Hnz Hbig.
  destruct (sqrt_nonneg S HS) as [_ Hsqrt].
  assert (HSbig : big (-1073) S).
  { destruct HS as [-> | H]; [| exact H].
    exfalso. apply (Hnz false). reflexivity. }
  destruct X as [s | s | | s m e]; try discriminate.
  - apply (div_zero_finite (-536)).
    apply (Hsqrt (-1073) ltac:(lia) HSbig).
  - pose proof (valid_magnitude s m e Hv) as HE.
    destruct (Z_le_gt_dec (Zdigits2 (Zpos m) + e) 486) as [Hsmall | Hlarge].
    + apply (div_finite (-536)); [lia |].
      apply (Hsqrt (-1073) ltac:(lia) HSbig).
    + apply (div_finite 487); [lia |].
      apply (Hsqrt 973 ltac:(lia)).
      apply Hbig; [lia |]. apply mul_self_big; lia.
Qed.

Lemma finite_or_zero_cases (X : spec_float) :
  finite_or_zero X = true ->
  (exists s, X = S754_zero s) \/ (exists s m e, X = S754_finite s m e).
Proof.
  destruct X as [s | s | | s m e]; try discriminate; intros _.
  - left. exists s. reflexivity.
  - right. exists s, m, e. reflexivity.
Qed.

(** Over the finite numbers the gradient of the circle is finite as soon
    as the computed norm is not zero. *)
Lemma circle_quotients_finite (x y : float) :
  is_finite x = true -> is_finite y = true ->
  is_zero (sqrt (x * x + y * y)) = false ->
  is_finite (x / sqrt (x * x + y * y)) = true
  /\ is_finite (y / sqrt (x * x + y * y)) = true.
Proof.
  intros Hx Hy Hn. pose proof (is_zero_false _ Hn) as Hnz.
  rewrite is_finite_spec in Hx, Hy.
  rewrite sqrt_spec, add_spec, !mul_spec in Hnz.
  pose proof (mul_self_nonneg _ (finite_or_zero_cases _ Hx)) as Hxx.
  pose proof (mul_self_nonneg _ (finite_or_zero_cases _ Hy)) as Hyy.
  destruct (add_nonneg _ _ Hxx Hyy) as (HS & Hl & Hr).
  split; rewrite is_finite_spec, div_spec, sqrt_spec, add_spec, !mul_spec;
    apply norm_quotient_finite; auto; apply Prim2SF_valid.
Qed.

(** The specification's reading: [gradV] of the two sets is a vector of
    finite numbers at every state. *)
Definition gradients_finite_as_specified : Prop :=
  (forall this states,
     finite_vector (dubinsCircle_Set.gradV this states) = true)
  /\ (forall this states,
        finite_vector (dubIntInterval_Set.gradV this states) = true).

(** C9, as stated, fails at the singular points: at the exact centre of a
    circle of radius 2 the gradient is [NaN, NaN, 0], and at the zero point
    of an interval of half-width 1 it is [NaN, 0]. *)
Lemma gradients_finite_as_specified_fails :
  dubinsCircle_Set.gradV (dubinsCircle_Set.Build 2) [0; 0; 0]%float
  = [nan; nan; 0%float]
  /\ dubIntInterval_Set.gradV (dubIntInterval_Set.Build 1) [0; 0]%float
     = [nan; 0%float]
  /\ is_finite nan = false
  /\ ~ gradients_finite_as_specified.
Proof.
  repeat (split; [reflexivity |]).
  intros [H _].
  specialize (H (dubinsCircle_Set.Build 2) [0; 0; 0]%float).
  vm_compute in H. discriminate.
Qed.

(** C9, amended.  Neither gradient guards its division by the norm.
    [dubIntInterval_Set.gradV] returns the sign of [states[0]] followed by 0,
    a vector of finite numbers, exactly when [states[0]] is a finite nonzero
    number, and [NaN, 0] otherwise, so at its zero point.
    [dubinsCircle_Set.gradV] returns a vector of finite numbers exactly when
    [states[0]] and [states[1]] are finite numbers and the computed norm is
    not zero; its third component is always 0, its first two are each not
    finite ([NaN] or an infinity) whenever the computed norm is zero, and
    at the exact centre they are [NaN] for every radius and heading. *)
Theorem gradV_at_singular_points :
  (forall this states,
     dubIntInterval_Set.gradV this states =
     [match Prim2SF (at_index states 0) with
      | S754_finite s _ _ => if s then (-1)%float else 1%float
      | _ => nan
      end; 0%float])
  /\ (forall this states,
        finite_vector (dubIntInterval_Set.gradV this states) =
        match Prim2SF (at_index states 0) with
        | S754_finite _ _ _ => true
        | _ => false
        end)
  /\ (forall this states,
        finite_vector (dubinsCircle_Set.gradV this states) =
        is_finite (at_index states 0) && is_finite (at_index states 1)
        && negb (is_zero (dubinsCircle_Set.norm states)))
  /\ (forall this states,
        let g := dubinsCircle_Set.gradV this states in
        nth 2 g nan = 0%float
        /\ (is_zero (dubinsCircle_Set.norm states) = true ->
            is_finite (nth 0 g nan) = false
            /\ is_finite (nth 1 g nan) = false))
  /\ (forall this heading,
        dubinsCircle_Set.gradV this [0%float; 0%float; heading]
        = [nan; nan; 0%float]).
Proof.
  split; [| split; [| split; [| split]]].
  - intros this states. unfold dubIntInterval_Set.gradV.
    rewrite div_abs_self. reflexivity.
  - intros this states. unfold dubIntInterval_Set.gradV, finite_vector.
    rewrite div_abs_self.
    destruct (Prim2SF (at_index states 0)) as [s | s | | s m e];
      try reflexivity.
    destruct s; reflexivity.
  - intros this states.
    unfold dubinsCircle_Set.gradV, finite_vector, dubinsCircle_Set.norm,
      pow_half, pow2.
    set (x := at_index states 0). set (y := at_index states 1).
    set (n := sqrt (x * x + y * y)%float).
    cbn [forallb].
    change (is_finite 0%float) with true. rewrite !andb_true_r.
    destruct (is_finite x) eqn:Hx.
    2:{ rewrite is_finite_spec, div_spec.
        rewrite is_finite_spec in Hx.
        rewrite (div_not_finite _ _ Hx). reflexivity. }
    destruct (is_finite y) eqn:Hy.
    2:{ rewrite (is_finite_spec (y / n)), div_spec.
        rewrite is_finite_spec in Hy.
        rewrite (div_not_finite _ _ Hy). apply andb_false_r. }
    destruct (is_zero n) eqn:Hn.
    + rewrite (div_by_zero_not_finite x n Hn). reflexivity.
    + destruct (circle_quotients_finite x y Hx Hy Hn) as [H1 H2].
      fold n in H1, H2. rewrite H1, H2. reflexivity.
  - intros this states. cbv zeta. unfold dubinsCircle_Set.gradV. simpl.
    split; [reflexivity |]. intro Hn.
    split; apply div_by_zero_not_finite; exact Hn.
  - intros this heading. reflexivity.
Qed.

(** Away from the centre the gradient of the circle is the unit vector of
    the position, up to rounding; but a position so close to the centre
    that its squares underflow has norm zero as well, here [2^-600]. *)
Example dubinsCircle_gradV_values :
  dubinsCircle_Set.gradV (dubinsCircle_Set.Build 2) [3; 4; 0]%float
  = [0x1.3333333333333p-1; 0x1.999999999999ap-1; 0]%float
  /\ dubinsCircle_Set.gradV (dubinsCircle_Set.Build 2)
       [0x1p-600; 0; 0]%float
     = [infinity; nan; 0%float].
Proof. split; reflexivity. Qed.

End IEEEFacts.

(** * The rest of the engine

    The functions around the ones above: the other safe sets and their
    couplings, the grid helpers, the concrete obstacles and the masked
    landscape, the dynamics and the tracking controllers. *)

(** ** More on the functions above *)

(** The law of [Safe_Contr.u] on the second control axis of the quadrotor,
    for the momentum [0,0,0,1]. *)
Lemma Safe_Contr_u_axis_witness :
  js_get (Safe_Contr.u (Safe_Contr.Build 1)
            (Robot.QuadrotorRobot [0; 0; 0; 0]) [0; 0; 0; 1]) 1 =
  match Safe_Contr.dotProduct [0; 0; 0; 1] [0; 0; 0; 1] with
  | Some d =>
      if Qltb 0 d then Some (Safe_Contr.maxU (Safe_Contr.Build 1))
      else if Qltb d 0 then Some (- Safe_Contr.maxU (Safe_Contr.Build 1))
      else None
  | None => None
  end.
Proof.
  apply (Safe_Contr_u_axis (Safe_Contr.Build 1)
           (Robot.QuadrotorRobot [0; 0; 0; 0]) [0; 0; 0; 1] 1 [0; 0; 0; 1]).
  reflexivity.
Defined.

(** The grid-point law at index (1,1) of [half_grid]. *)
Lemma loaded_SafeSet_value_grid_point_law_witness :
  exists total,
    loaded_SafeSet.total_volume half_grid 2 = Some total
    /\ ~ total == 0
    /\ opt_eq (loaded_SafeSet.value half_grid [1 # 2; 1 # 2])
         (Some (3 / total)).
Proof.
  apply (loaded_SafeSet_value_grid_point_law half_grid [1 # 2; 1 # 2]
           [1; 1]%Z 3).
  - split; [reflexivity |].
    intros [| [| x]] Hx; simpl in Hx; [| | lia];
      exists (1 # 2), 0, (1 # 2), 3%Z, 1%Z;
      repeat split; try reflexivity; try lia; discriminate.
  - reflexivity.
  - simpl. lia.
  - reflexivity.
Defined.

(** Case analysis on every comparison of the goal, innermost first. *)
Ltac ltb_cases :=
  repeat match goal with
         | |- context [Qltb ?x ?y] =>
             lazymatch x with context [Qltb _ _] => fail | _ => idtac end;
             lazymatch y with context [Qltb _ _] => fail | _ => idtac end;
             let E := fresh "E" in
             destruct (Qltb x y) eqn:E;
             [apply Qltb_lt in E | apply Qltb_ge in E]
         end.

(** X3: The value of a union is a meet: it is below both operands, it does not
    depend on the order of the operands nor on how three sets are grouped,
    and the union of a set with itself has that set's value and gradient.
    (Only the value is symmetric: on a tie the gradient is the second
    operand's.) *)
Theorem UnionedSafeSet_meet (A B C : SafeSet.t) (s : list Q) :
  let union X Y := UnionedSafeSet.as_SafeSet (UnionedSafeSet.Build X Y) in
  SafeSet.value (union A B) s <= SafeSet.value A s
  /\ SafeSet.value (union A B) s <= SafeSet.value B s
  /\ SafeSet.value (union A B) s == SafeSet.value (union B A) s
  /\ SafeSet.value (union (union A B) C) s
     == SafeSet.value (union A (union B C)) s
  /\ SafeSet.value (union A A) s = SafeSet.value A s
  /\ SafeSet.gradV (union A A) s = SafeSet.gradV A s.
Proof.
  cbv zeta. simpl. unfold UnionedSafeSet.value, UnionedSafeSet.gradV. simpl.
  unfold UnionedSafeSet.value. simpl.
  set (a := SafeSet.value A s). set (b := SafeSet.value B s).
  set (c := SafeSet.value C s).
  repeat split; ltb_cases; try reflexivity; lra.
Qed.

(** ** More on the obstacle landscape *)

Lemma is_flag_repeat_false (n k : nat) :
  is_true (repeat false n) k = false
  /\ ((k < n)%nat -> is_false (repeat false n) k = true).
Proof.
  unfold is_true, is_false. revert k.
  induction n as [| n IH]; intros [| k]; simpl; split; auto; try lia.
  - apply IH.
  - intro H. apply IH. lia.
Qed.

(** X4: A landscape as the constructor leaves it takes every obstacle into the
    union and none into collision detection: whatever the obstacles and the
    state, [collisionSetValue] answers the pair (100, 0). *)
Theorem Obstaclescape_new_no_collision (obs : list Obstacle.t)
  (states : list Q) :
  Obstaclescape.collisionSetValue (Obstaclescape.new obs) states
  = (100, 0%nat)
  /\ forall k, (k < length obs)%nat ->
       Obstaclescape.eligible (Obstaclescape.new obs) k = true
       /\ Obstaclescape.hazard (Obstaclescape.new obs) k = false.
Proof.
  assert (Hhz : forall k, Obstaclescape.hazard (Obstaclescape.new obs) k
                          = false).
  { intro k. unfold Obstaclescape.hazard. simpl.
    rewrite (proj1 (is_flag_repeat_false (length obs) k)).
    apply andb_false_r. }
  split.
  - unfold Obstaclescape.collisionSetValue. rewrite collision_loop_scan.
    apply none_pass_scan. intros k _. apply Hhz.
  - intros k Hk. split; [| apply Hhz].
    unfold Obstaclescape.eligible. simpl.
    rewrite (proj2 (is_flag_repeat_false (length obs) k) Hk). reflexivity.
Qed.

(** What [value] is, from the scan. *)
Lemma value_scan_facts (this : Obstaclescape.t) (setID : nat)
  (states : list Q) :
  let v := Obstaclescape.value this setID states in
  v <= 100
  /\ (forall k ob, nth_error (Obstaclescape.obstacles this) k = Some ob ->
        Obstaclescape.eligible this k = true ->
        v <= Obstacle.value ob setID states)
  /\ (v = 100
      \/ exists k ob, nth_error (Obstaclescape.obstacles this) k = Some ob
           /\ Obstaclescape.eligible this k = true
           /\ v = Obstacle.value ob setID states).
Proof.
  cbv zeta. unfold Obstaclescape.value.
  rewrite (value_loop_scan this setID states _ 0 100 0).
  destruct (scan_spec (Obstaclescape.eligible this)
              (fun ob => Obstacle.value ob setID states)
              (Obstaclescape.obstacles this) 0 100 0)
    as [[Heq Hall] | (k & ob & Heq & Hlt & (Hnth & Hel & Hle & _))];
    rewrite Heq; simpl.
  - split; [apply Qle_refl |]. split; [exact Hall |]. left. reflexivity.
  - split; [lra |]. split; [exact Hle |]. right. exists k, ob. auto.
Qed.

Lemma value_antitone (this that : Obstaclescape.t) (setID : nat)
  (states : list Q) :
  Obstaclescape.obstacles this = Obstaclescape.obstacles that ->
  (forall k, (k < length (Obstaclescape.obstacles that))%nat ->
             Obstaclescape.eligible that k = true ->
             Obstaclescape.eligible this k = true) ->
  Obstaclescape.value this setID states
  <= Obstaclescape.value that setID states.
Proof.
  intros Hobs Hsub.
  destruct (value_scan_facts this setID states) as (H100 & Hle & _).
  destruct (value_scan_facts that setID states)
    as (_ & _ & [-> | (k & ob & Hnth & Hel & ->)]).
  - exact H100.
  - apply (Hle k ob); [rewrite Hobs; exact Hnth |].
    apply Hsub; [| exact Hel]. apply nth_error_Some. congruence.
Qed.

(** X5: Taking obstacles out of the union, by destroying them or by losing
    sight of them, can only raise the safety value: if every obstacle
    eligible in [that] is eligible in [this], over the same obstacles, then
    [this] reports at most what [that] reports. *)
Theorem Obstaclescape_value_antitone (this that : Obstaclescape.t)
  (setID : nat) (states : list Q) :
  Obstaclescape.obstacles this = Obstaclescape.obstacles that ->
  (forall k, Obstaclescape.eligible that k = true ->
             Obstaclescape.eligible this k = true) ->
  Obstaclescape.value this setID states
  <= Obstaclescape.value that setID states.
Proof.
  intros Hobs Hsub. apply value_antitone; [exact Hobs |].
  intros k _. apply Hsub.
Qed.

(** Losing sight of the wall at the origin raises the value seen from
    [x = 3] from 2 to 6. *)
Lemma Obstaclescape_value_antitone_witness :
  Obstaclescape.value near_scape 0 [3]
  <= Obstaclescape.value
       (Obstaclescape.Build [wall 10; wall 0] [false; false] [false; true])
       0 [3].
Proof.
  apply Obstaclescape_value_antitone.
  - reflexivity.
  - intros [| [| [| k]]] H; try reflexivity; discriminate H.
Defined.

(** ** The masked landscape *)

Module maskedObstaclescape.

Record t : Type := Build {
  obstaclescape : Obstaclescape.t;
  undetectionscape : list bool
}.

(** The literal [0.8], the binary64 number nearest to 4/5. *)
Definition detection_rate : Q := 3602879701896397 # 4503599627370496.

(** One pass of the loop of [rerandomizeUndetection] for the number that
    [random()] returned. *)
Definition undetected_of (draw : Q) : bool :=
  if Qltb draw detection_rate then false else true.

(** [rerandomizeUndetection()].  [random] is the sequence of the numbers
    that the successive calls of the global [random()] return, [cursor] the
    number of calls made so far.  The loop assigns the entries
    [0 .. obstacles.length - 1] of the mask in order, so that it leaves an
    array without holes: the new entries, then whatever the old mask had
    beyond them. *)
Definition rerandomizeUndetection (this : t) (random : nat -> Q)
  (cursor : nat) : t * nat :=
  let n := length (Obstaclescape.obstacles (obstaclescape this)) in
  (Build (obstaclescape this)
     (map (fun obNum => undetected_of (random (cursor + obNum)%nat))
        (seq 0 n)
      ++ skipn n (undetectionscape this)),
   (cursor + n)%nat).

(** The constructor: an empty mask, drawn at once. *)
Definition new (_obstaclescape : Obstaclescape.t) (random : nat -> Q)
  (cursor : nat) : t * nat :=
  rerandomizeUndetection (Build _obstaclescape []) random cursor.

(** [this.obstaclescape.obstacleUndetected = this.undetectionscape.slice()]:
    the wrapped landscape, which is shared, keeps the assignment. *)
Definition push_mask (this : t) : t :=
  Build
    (Obstaclescape.Build
       (Obstaclescape.obstacles (obstaclescape this))
       (Obstaclescape.obstacleDestroyed (obstaclescape this))
       (undetectionscape this))
    (undetectionscape this).

Definition value (this : t) (setID : nat) (states : list Q) : Q * t :=
  let this := push_mask this in
  (Obstaclescape.value (obstaclescape this) setID states, this).

Definition collisionSetValue (this : t) (states : list Q)
  : (Q * nat) * t :=
  let this := push_mask this in
  (Obstaclescape.collisionSetValue (obstaclescape this) states, this).

Definition gradV (this : t) (setID : nat) (states : list Q)
  : option (list Q) * t :=
  let this := push_mask this in
  (Obstaclescape.gradV (obstaclescape this) setID states, this).

End maskedObstaclescape.

Lemma is_false_negb_is_true (l : list bool) (k : nat) :
  (k < length l)%nat -> is_false l k = negb (is_true l k).
Proof.
  intro H. unfold is_false, is_true.
  destruct (nth_error l k) as [[|] |] eqn:E; try reflexivity.
  apply nth_error_None in E. lia.
Qed.

(** X6: The mask that the constructor draws has one entry per obstacle and
    uses one call of [random()] per obstacle: obstacle [k], destroyed or
    not, is undetected exactly when draw [k] is not below 0.8.  [value]
    copies that mask into the wrapped landscape, and then every obstacle
    that is not destroyed is in exactly one of the two scans: in the union
    when the mask has it detected, in collision detection when it has
    not. *)
Theorem maskedObstaclescape_partition (scape : Obstaclescape.t)
  (random : nat -> Q) (cursor : nat) (setID : nat) (states : list Q) :
  let '(masked, cursor') := maskedObstaclescape.new scape random cursor in
  let inner :=
    maskedObstaclescape.obstaclescape
      (snd (maskedObstaclescape.value masked setID states)) in
  length (maskedObstaclescape.undetectionscape masked)
  = length (Obstaclescape.obstacles scape)
  /\ cursor' = (cursor + length (Obstaclescape.obstacles scape))%nat
  /\ Obstaclescape.obstacleUndetected inner
     = maskedObstaclescape.undetectionscape masked
  /\ (forall k, (k < length (Obstaclescape.obstacles scape))%nat ->
        nth_error (maskedObstaclescape.undetectionscape masked) k
        = Some (negb (Qltb (random (cursor + k)%nat)
                        maskedObstaclescape.detection_rate)))
  /\ forall k, (k < length (Obstaclescape.obstacles scape))%nat ->
       is_false (Obstaclescape.obstacleDestroyed scape) k = true ->
       Obstaclescape.eligible inner k
       = negb (Obstaclescape.hazard inner k)
       /\ Obstaclescape.hazard inner k
          = negb (Qltb (random (cursor + k)%nat)
                    maskedObstaclescape.detection_rate).
Proof.
  unfold maskedObstaclescape.new, maskedObstaclescape.rerandomizeUndetection.
  cbn [maskedObstaclescape.obstaclescape
       maskedObstaclescape.undetectionscape].
  rewrite skipn_nil, app_nil_r.
  set (n := length (Obstaclescape.obstacles scape)).
  set (mask := map _ (seq 0 n)).
  assert (Hlen : length mask = n)
    by (unfold mask; rewrite length_map, length_seq; reflexivity).
  assert (Hmask : forall k, (k < n)%nat ->
            nth_error mask k
            = Some (negb (Qltb (random (cursor + k)%nat)
                            maskedObstaclescape.detection_rate))).
  { intros k Hk. unfold mask. rewrite nth_error_map, nth_error_seq.
    replace (k <? n)%nat with true by (symmetry; apply Nat.ltb_lt; lia).
    simpl. unfold maskedObstaclescape.undetected_of.
    destruct (Qltb _ _); reflexivity. }
  cbv zeta. simpl.
  split; [exact Hlen |]. split; [reflexivity |]. split; [reflexivity |].
  split; [exact Hmask |].
  intros k Hk Hd.
  unfold Obstaclescape.eligible, Obstaclescape.hazard. simpl. rewrite Hd.
  simpl. split.
  - apply is_false_negb_is_true. lia.
  - unfold is_true. rewrite (Hmask k Hk). destruct (Qltb _ _); reflexivity.
Qed.

(** X7: Whatever the mask, the masked landscape reports at least the value of
    the same landscape with every obstacle detected: an obstacle out of
    sight can only make the robot believe it is safer. *)
Theorem maskedObstaclescape_value_raises (this : maskedObstaclescape.t)
  (setID : nat) (states : list Q) :
  let scape := maskedObstaclescape.obstaclescape this in
  let detected :=
    Obstaclescape.Build (Obstaclescape.obstacles scape)
      (Obstaclescape.obstacleDestroyed scape)
      (repeat false (length (Obstaclescape.obstacles scape))) in
  Obstaclescape.value detected setID states
  <= fst (maskedObstaclescape.value this setID states).
Proof.
  cbv zeta. unfold maskedObstaclescape.value. simpl.
  apply value_antitone; [reflexivity |].
  simpl. intros k Hk. unfold Obstaclescape.eligible. simpl.
  intro H. apply andb_true_iff in H. destruct H as [-> _]. simpl.
  apply is_flag_repeat_false. exact Hk.
Qed.

(** ** reachable_sets.js: the analytic double integrator *)

Module DoubleIntegrator_SafeSet.

Record t : Type := Build {
  leeway : Q;
  obP : Q;
  obL : Q
}.

(** [value(states)].  A missing coordinate makes the test false and the
    result [NaN]; a zero leeway in the second branch divides by zero. *)
Definition value (this : t) (states : list Q) : option Q :=
  match nth_error states 0, nth_error states 1 with
  | Some p, Some v =>
      if Qltb (v * (obP this - p)) 0
      then Some (Qabs (p - obP this) - obL this)
      else if Qeq_bool (2 * leeway this) 0 then None
           else Some (Qabs (p - obP this) - obL this
                      - v * v / (2 * leeway this))
  | _, _ => None
  end.

(** [gradV(states)]: the pair [[dVdp,dVdv]]. *)
Definition gradV (this : t) (states : list Q) : jsarray Q :=
  let dVdp :=
    match nth_error states 0 with
    | Some p => if Qltb (p - obP this) 0 then - (1) else 1
    | None => 1
    end in
  let dVdv :=
    match nth_error states 0, nth_error states 1 with
    | Some p, Some v =>
        if Qltb (v * (obP this - p)) 0 then Some 0
        else if Qeq_bool (leeway this) 0 then None
             else Some (- v / leeway this)
    | _, _ => None
    end in
  [Some dVdp; dVdv].

End DoubleIntegrator_SafeSet.



(** X11: The set is symmetric about the obstacle's centre: mirroring position
    and velocity leaves the value unchanged, whatever the leeway. *)
Theorem DoubleIntegrator_value_mirror (this : DoubleIntegrator_SafeSet.t)
  (p v : Q) :
  opt_eq
    (DoubleIntegrator_SafeSet.value this
       [2 * DoubleIntegrator_SafeSet.obP this - p; - v])
    (DoubleIntegrator_SafeSet.value this [p; v]).
Proof.
  unfold DoubleIntegrator_SafeSet.value. simpl.
  set (c := DoubleIntegrator_SafeSet.obP this).
  assert (Hw : - v * (c - (2 * c - p)) == v * (c - p)) by ring.
  assert (Ha : Qabs (2 * c - p - c) == Qabs (p - c)).
  { rewrite <- (Qabs_opp (p - c)). apply Qabs_wd. ring. }
  replace (Qltb (- v * (c - (2 * c - p))) 0) with (Qltb (v * (c - p)) 0).
  2:{ destruct (Qltb (v * (c - p)) 0) eqn:E1; symmetry;
        [apply Qltb_lt in E1; apply Qltb_lt | apply Qltb_ge in E1;
         apply Qltb_ge]; lra. }
  destruct (Qltb (v * (c - p)) 0).
  - simpl. rewrite Ha. reflexivity.
  - destruct (Qeq_bool _ 0); simpl; [exact I |].
    rewrite Ha. assert (Hv : - v * - v == v * v) by ring.
    rewrite Hv. reflexivity.
Qed.

(** ** reachable_sets.js: coupling two planar sets; the box obstacle *)

(** [a < b] on numbers that may be [NaN]. *)
Definition js_lt (a b : option Q) : bool :=
  match a, b with
  | Some x, Some y => Qltb x y
  | _, _ => false
  end.

(** A safe set as the coupling uses it: the state it is handed may have
    [undefined] coordinates, and its answers may be [NaN]. *)
Module PartialSafeSet.

Record t : Type := Build {
  value : jsarray Q -> option Q;
  gradV : jsarray Q -> jsarray Q
}.

End PartialSafeSet.

(** [dubIntInterval_Set] over the exact numbers. *)
Module dubIntInterval_Set.

Record t : Type := Build { width : Q }.

Definition value (this : t) (states : jsarray Q) : option Q :=
  match js_get states 0 with
  | Some s0 => Some (Qabs s0 - width this)
  | None => None
  end.

Definition gradV (this : t) (states : jsarray Q) : jsarray Q :=
  [match js_get states 0 with
   | Some s0 => if Qeq_bool (Qabs s0) 0 then None else Some (s0 / Qabs s0)
   | None => None
   end; Some 0].

Definition as_set (this : t) : PartialSafeSet.t :=
  PartialSafeSet.Build (value this) (gradV this).

End dubIntInterval_Set.

Module twoTwo.

Record t : Type := Build {
  setA : PartialSafeSet.t;
  setB : PartialSafeSet.t
}.

Definition statesA (states : jsarray Q) : jsarray Q :=
  [js_get states 0; js_get states 1].

Definition statesB (states : jsarray Q) : jsarray Q :=
  [js_get states 2; js_get states 3].

Definition valueA (this : t) (states : jsarray Q) : option Q :=
  PartialSafeSet.value (setA this) (statesA states).

Definition valueB (this : t) (states : jsarray Q) : option Q :=
  PartialSafeSet.value (setB this) (statesB states).

Definition value (this : t) (states : jsarray Q) : option Q :=
  if js_lt (valueA this states) (valueB this states)
  then valueB this states
  else valueA this states.

(** [gradV(states)]: [gradient] starts as [[0,0,0,0]] and the dominant
    subsystem writes its two entries. *)
Definition gradV (this : t) (states : jsarray Q) : jsarray Q :=
  if js_lt (valueA this states) (valueB this states)
  then
    let gradientB := PartialSafeSet.gradV (setB this) (statesB states) in
    [Some 0; Some 0; js_get gradientB 0; js_get gradientB 1]
  else
    let gradientA := PartialSafeSet.gradV (setA this) (statesA states) in
    [js_get gradientA 0; js_get gradientA 1; Some 0; Some 0].

Definition as_set (this : t) : PartialSafeSet.t :=
  PartialSafeSet.Build (value this) (gradV this).

End twoTwo.

Module BoxObstacle.

Record t : Type := Build {
  ObX : Q; ObY : Q; ObW : Q; ObH : Q
}.

(** [this.offset = [this.ObX,0,this.ObY,0]]. *)
Definition offset (this : t) : list Q := [ObX this; 0; ObY this; 0].

(** [this.collisionSet]. *)
Definition collisionSet (this : t) : PartialSafeSet.t :=
  twoTwo.as_set
    (twoTwo.Build
       (dubIntInterval_Set.as_set (dubIntInterval_Set.Build (ObW this)))
       (dubIntInterval_Set.as_set (dubIntInterval_Set.Build (ObH this)))).

(** [offsetStates(states)], inherited from [Obstacle]: a coordinate beyond
    the offset vector has [undefined] subtracted from it. *)
Definition offsetStates (this : t) (states : list Q) : jsarray Q :=
  map (fun curDim =>
         match nth_error states curDim, nth_error (offset this) curDim with
         | Some s, Some o => Some (s - o)
         | _, _ => None
         end)
      (seq 0 (length states)).

(** [collisionSetValue(states)], inherited from [Obstacle]. *)
Definition collisionSetValue (this : t) (states : list Q) : option Q :=
  PartialSafeSet.value (collisionSet this) (offsetStates this states).

End BoxObstacle.

(** X12: The collision footprint of a box obstacle, at a quadrotor state
    [x, vx, y, vy]: its value is the larger of the two signed distances
    [|x - ObX| - ObW] and [|y - ObY| - ObH], whatever the velocities, so that
    it is negative exactly inside the box and at most zero exactly on the
    closed box. *)
Theorem BoxObstacle_collision_box (this : BoxObstacle.t) (x vx y vy : Q) :
  let dx := Qabs (x - BoxObstacle.ObX this) - BoxObstacle.ObW this in
  let dy := Qabs (y - BoxObstacle.ObY this) - BoxObstacle.ObH this in
  exists v,
    BoxObstacle.collisionSetValue this [x; vx; y; vy] = Some v
    /\ v == Qmax dx dy
    /\ (v < 0 <->
        Qabs (x - BoxObstacle.ObX this) < BoxObstacle.ObW this
        /\ Qabs (y - BoxObstacle.ObY this) < BoxObstacle.ObH this)
    /\ (v <= 0 <->
        Qabs (x - BoxObstacle.ObX this) <= BoxObstacle.ObW this
        /\ Qabs (y - BoxObstacle.ObY this) <= BoxObstacle.ObH this).
Proof.
  cbv zeta.
  set (dx := Qabs (x - BoxObstacle.ObX this) - BoxObstacle.ObW this).
  set (dy := Qabs (y - BoxObstacle.ObY this) - BoxObstacle.ObH this).
  change (BoxObstacle.collisionSetValue this [x; vx; y; vy])
    with (if Qltb dx dy then Some dy else Some dx).
  destruct (Qltb dx dy) eqn:E; [apply Qltb_lt in E | apply Qltb_ge in E].
  - exists dy. split; [reflexivity |].
    split; [symmetry; apply Q.max_r; lra |].
    unfold dx, dy in *. split; split; intros; try split; lra.
  - exists dx. split; [reflexivity |].
    split; [symmetry; apply Q.max_l; lra |].
    unfold dx, dy in *. split; split; intros; try split; lra.
Qed.

(** X13: A state that stops after the horizontal pair leaves the vertical
    subsystem without coordinates: its value is [NaN], the comparison fails,
    and the footprint degenerates to the horizontal interval; with no
    coordinate at all the value is [NaN]. *)
Theorem BoxObstacle_collision_short_state (this : BoxObstacle.t) (x vx : Q) :
  BoxObstacle.collisionSetValue this [x; vx]
  = Some (Qabs (x - BoxObstacle.ObX this) - BoxObstacle.ObW this)
  /\ BoxObstacle.collisionSetValue this [] = None.
Proof. split; reflexivity. Qed.

(** ** reachable_sets.js: the grid helpers *)

Section NearIndices.

Import loaded_SafeSet.
Variable this : reachset.

Lemma clamp_in_range (N i : Z) :
  (1 <= N)%Z -> (0 <= clamp (Some N) i < N)%Z.
Proof.
  intro HN. unfold clamp.
  destruct (i <? 0)%Z eqn:E1;
    [apply Z.ltb_lt in E1 | apply Z.ltb_ge in E1].
  - destruct (N <=? 0)%Z eqn:E2; [apply Z.leb_le in E2 |]; lia.
  - destruct (N <=? i)%Z eqn:E2;
      [apply Z.leb_le in E2 | apply Z.leb_gt in E2]; lia.
Qed.

Lemma wrap_in_range (N i : Z) :
  (- N <= i < 2 * N)%Z ->
  exists j, wrap (Some N) i = Some j /\ (0 <= j < N)%Z.
Proof.
  intro Hi. unfold wrap. eexists. split; [reflexivity |].
  destruct (i <? 0)%Z eqn:E1;
    [apply Z.ltb_lt in E1 | apply Z.ltb_ge in E1].
  - destruct (N <=? i + N)%Z eqn:E2;
      [apply Z.leb_le in E2 | apply Z.leb_gt in E2]; lia.
  - destruct (N <=? i)%Z eqn:E2;
      [apply Z.leb_le in E2 | apply Z.leb_gt in E2]; lia.
Qed.

(** The axes of a state are covered by the grid: each has a lower bound, a
    nonzero spacing and at least one point, and along a periodic axis the
    state is within one period of the grid. *)
Definition covered (states : list Q) : Prop :=
  forall x s, nth_error states x = Some s ->
    exists m dx N,
      nth_error (gmin this) x = Some m
      /\ nth_error (gdx this) x = Some dx
      /\ ~ dx == 0
      /\ nth_error (gN this) x = Some N
      /\ (1 <= N)%Z
      /\ (periodic this x = true ->
          (- N <= Qfloor ((s - m) / dx))%Z
          /\ (Qceiling ((s - m) / dx) < 2 * N)%Z).

Lemma edges_in_range (states : list Q) (x : nat) (s : Q) :
  covered states -> nth_error states x = Some s ->
  exists lo hi N,
    lowEdge this states true x = Some lo
    /\ highEdge this states true x = Some hi
    /\ nth_error (gN this) x = Some N
    /\ (0 <= lo < N)%Z /\ (0 <= hi < N)%Z.
Proof.
  intros Hc Hs.
  destruct (Hc x s Hs) as (m & dx & N & Hm & Hdx & Hnz & HN & H1 & Hper).
  unfold lowEdge, highEdge, quotient. rewrite Hs, Hm, Hdx.
  replace (Qeq_bool dx 0) with false.
  2:{ symmetry. destruct (Qeq_bool dx 0) eqn:E; [| reflexivity].
      apply Qeq_bool_iff in E. contradiction. }
  unfold into_grid. rewrite HN.
  assert (Hfc := Qle_floor_ceiling ((s - m) / dx)).
  rewrite <- Zle_Qle in Hfc.
  destruct (periodic this x).
  - destruct (Hper eq_refl) as [Hlo Hhi].
    destruct (wrap_in_range N (Qfloor ((s - m) / dx))) as (lo & -> & Hlo');
      [lia |].
    destruct (wrap_in_range N (Qceiling ((s - m) / dx))) as (hi & -> & Hhi');
      [lia |].
    exists lo, hi, N. auto.
  - exists (clamp (Some N) (Qfloor ((s - m) / dx))),
      (clamp (Some N) (Qceiling ((s - m) / dx))), N.
    repeat split; try reflexivity; apply clamp_in_range; exact H1.
Qed.

End NearIndices.




(** X15: Index to state and back, on a grid where locating the cell is
    exact in binary64 ([exact_axes]): at the grid point of index [ks] both
    arrays of [nearIndices] are [ks], with or without [gridwrap]. *)
Theorem nearIndices_of_grid_point (this : loaded_SafeSet.reachset)
  (states : list Q) (ks : list Z) (gridwrap : bool) :
  on_grid_point this states ks ->
  exact_axes this states = true ->
  loaded_SafeSet.nearIndices this states gridwrap = Some (ks, ks).
Proof.
  intros [Hlen Hgrid] _. unfold loaded_SafeSet.nearIndices.
  assert (Hedge : forall x, In x (seq 0 (length states)) ->
            loaded_SafeSet.lowEdge this states gridwrap x
            = Some (nth (x - 0) ks 0%Z)
            /\ loaded_SafeSet.highEdge this states gridwrap x
               = Some (nth (x - 0) ks 0%Z)).
  { intros x Hx. apply in_seq in Hx. rewrite Nat.sub_0_r.
    destruct (Hgrid x) as (s & m & dx & N & k & Hs & Hm & Hdx & Hnz & HN
                            & Hk & Hrange & Hon); [lia |].
    rewrite (nth_error_nth _ _ 0%Z Hk).
    assert (Hq : (s - m) / dx == inject_Z k)
      by (rewrite Hon; field; exact Hnz).
    unfold loaded_SafeSet.lowEdge, loaded_SafeSet.highEdge,
      loaded_SafeSet.quotient.
    rewrite Hs, Hm, Hdx.
    replace (Qeq_bool dx 0) with false.
    2:{ symmetry. destruct (Qeq_bool dx 0) eqn:E; [| reflexivity].
        apply Qeq_bool_iff in E. contradiction. }
    rewrite (Qfloor_comp _ _ Hq), (Qceiling_comp _ _ Hq), Qfloor_Z,
      Qceiling_Z.
    destruct gridwrap; [| auto].
    rewrite (into_grid_in_range this x N k HN Hrange). auto. }
  rewrite (for_each_some _ (fun x => nth (x - 0) ks 0%Z))
    by (intros x Hx; apply Hedge; exact Hx).
  rewrite (for_each_some _ (fun x => nth (x - 0) ks 0%Z))
    by (intros x Hx; apply Hedge; exact Hx).
  rewrite <- Hlen, map_nth_seq. reflexivity.
Qed.

Lemma nearIndices_of_grid_point_witness :
  loaded_SafeSet.nearIndices half_grid [1 # 2; 1 # 2] true
  = Some ([1; 1]%Z, [1; 1]%Z).
Proof.
  apply (nearIndices_of_grid_point half_grid [1 # 2; 1 # 2] [1; 1]%Z true).
  - split; [reflexivity |].
    intros [| [| x]] Hx; simpl in Hx; [| | lia];
      exists (1 # 2), 0, (1 # 2), 3%Z, 1%Z;
      repeat split; try reflexivity; try lia; discriminate.
  - reflexivity.
Defined.

(** ** reachable_sets.js: the periodic wrap-around *)

Section ValueDefined.

Import loaded_SafeSet.
Variable this : reachset.
Variable states : list Q.

Let D : nat := length states.

Hypothesis Hcov : covered this states.

Lemma axis_defined (x : nat) (s : Q) :
  nth_error states x = Some s ->
  exists dl dh lo hi N,
    dl_axis this states x = Some dl
    /\ dh_axis this states x = Some dh
    /\ wl_axis this states x = Some lo
    /\ wh_axis this states x = Some hi
    /\ nth_error (gN this) x = Some N
    /\ (0 <= lo < N)%Z /\ (0 <= hi < N)%Z.
Proof.
  intro Hs.
  destruct (edges_in_range this states x s Hcov Hs)
    as (lo & hi & N & Hlo & Hhi & HN & Hl & Hh).
  destruct (Hcov x s Hs) as (m & dx & N' & Hm & Hdx & Hnz & _).
  assert (Hb : Qeq_bool dx 0 = false).
  { destruct (Qeq_bool dx 0) eqn:E; [| reflexivity].
    apply Qeq_bool_iff in E. contradiction. }
  unfold dl_axis, dh_axis, wl_axis, wh_axis.
  unfold lowEdge, highEdge, quotient, indexToState in *.
  rewrite Hs, Hm, Hdx, Hb in *.
  do 2 eexists. exists lo, hi, N.
  repeat split; try reflexivity; try assumption; lia.
Qed.

Lemma axis_in (x : nat) :
  In x (seq 0 D) -> exists s, nth_error states x = Some s.
Proof.
  intro Hx. apply in_seq in Hx.
  destruct (nth_error states x) as [s |] eqn:E; [exists s; reflexivity |].
  apply nth_error_None in E. unfold D in Hx. lia.
Qed.

(** The entry that a loop leaves for axis [x]. *)
Definition entry_of {A : Type} (d : A) (f : nat -> option A) (x : nat) : A :=
  match f x with
  | Some a => a
  | None => d
  end.

Lemma for_each_entries {A : Type} (d : A) (f : nat -> option A) :
  (forall x, In x (seq 0 D) -> exists a, f x = Some a) ->
  for_each f (seq 0 D) = Some (map (entry_of d f) (seq 0 D)).
Proof.
  intro H. apply for_each_some. intros x Hx.
  destruct (H x Hx) as [a Ha]. unfold entry_of. rewrite Ha. reflexivity.
Qed.

Lemma entries_nth {A : Type} (d : A) (f : nat -> option A) (x : nat) :
  (x < D)%nat ->
  nth_error (map (entry_of d f) (seq 0 D)) x = Some (entry_of d f x).
Proof.
  intro Hx. rewrite nth_error_map, nth_error_seq.
  replace (x <? D)%nat with true by (symmetry; apply Nat.ltb_lt; exact Hx).
  reflexivity.
Qed.

Let dL : list Q := map (entry_of 0 (dl_axis this states)) (seq 0 D).
Let dH : list Q := map (entry_of 0 (dh_axis this states)) (seq 0 D).
Let lo : list Z := map (entry_of 0%Z (wl_axis this states)) (seq 0 D).
Let hi : list Z := map (entry_of 0%Z (wh_axis this states)) (seq 0 D).

Lemma value_entries :
  value this states = finish this D (Some dL) (Some dH) (Some lo) (Some hi).
Proof.
  rewrite value_axiswise. cbv zeta. fold D.
  rewrite (for_each_entries 0 (dl_axis this states)),
    (for_each_entries 0 (dh_axis this states)),
    (for_each_entries 0%Z (wl_axis this states)),
    (for_each_entries 0%Z (wh_axis this states)); [reflexivity | | | |];
    intros x Hx; destruct (axis_in x Hx) as [s Hs];
    destruct (axis_defined x s Hs)
      as (dl & dh & l & h & N & H1 & H2 & H3 & H4 & _);
    eauto.
Qed.

Lemma corner_at (x : nat) :
  (x < D)%nat ->
  exists dl dh i j N,
    nth_error dL x = Some dl /\ nth_error dH x = Some dh
    /\ nth_error lo x = Some i /\ nth_error hi x = Some j
    /\ nth_error (gN this) x = Some N
    /\ (0 <= i < N)%Z /\ (0 <= j < N)%Z.
Proof.
  intro Hx.
  destruct (axis_in x) as [s Hs]; [apply in_seq; lia |].
  destruct (axis_defined x s Hs)
    as (dl & dh & l & h & N & H1 & H2 & H3 & H4 & HN & Hl & Hh).
  exists dl, dh, l, h, N.
  unfold dL, dH, lo, hi. rewrite !entries_nth by exact Hx.
  unfold entry_of. rewrite H1, H2, H3, H4.
  repeat split; try reflexivity; try assumption; lia.
Qed.

Lemma shaped_index (N : Z) (rest : list Z) (cv : nest) (i : Z) :
  shaped (N :: rest) cv = true -> (0 <= i < N)%Z ->
  exists c, js_index cv i = Some c /\ shaped rest c = true.
Proof.
  intros Hsh Hi. destruct cv as [v | elems]; [discriminate |].
  simpl in Hsh. apply andb_true_iff in Hsh. destruct Hsh as [Hlen Hall].
  apply Z.eqb_eq in Hlen. unfold js_index.
  destruct (i <? 0)%Z eqn:E; [apply Z.ltb_lt in E; lia |].
  destruct (nth_error elems (Z.to_nat i)) as [c |] eqn:Hc.
  - exists c. split; [reflexivity |].
    rewrite forallb_forall in Hall. apply Hall.
    apply nth_error_In with (Z.to_nat i). exact Hc.
  - apply nth_error_None in Hc. lia.
Qed.

Lemma walk_defined (c : Z) (n : nat) :
  forall (a : nat) (dims : list Z) (vol : Q) (cv : nest),
    (a + n <= D)%nat -> length dims = n ->
    (forall x, (x < n)%nat ->
       nth_error dims x = nth_error (gN this) (a + x)) ->
    shaped dims cv = true ->
    exists vol' v,
      corner_walk dL dH lo hi c (seq a n) vol cv = Some (vol', Num v).
Proof.
  induction n as [| n IH]; intros a dims vol cv Ha Hlen Hdims Hsh.
  - destruct dims; [| discriminate]. destruct cv; [| discriminate].
    simpl. eauto.
  - destruct dims as [| N rest]; [discriminate |].
    destruct (corner_at a) as (dl & dh & i & j & N' & H1 & H2 & H3 & H4
                                & HN & Hi & Hj); [lia |].
    assert (HNN : N' = N).
    { specialize (Hdims 0%nat). simpl in Hdims.
      rewrite Nat.add_0_r, HN in Hdims. symmetry.
      injection (Hdims ltac:(lia)) as ->. reflexivity. }
    subst N'. simpl. rewrite H1, H2, H3, H4.
    assert (Hrest : forall x, (x < n)%nat ->
              nth_error rest x = nth_error (gN this) (S a + x)).
    { intros x Hx. specialize (Hdims (S x)). simpl in Hdims.
      rewrite Hdims by lia. f_equal. lia. }
    destruct (bit_set c a).
    + destruct (shaped_index N rest cv j Hsh Hj) as (c' & -> & Hc').
      apply IH with rest; try assumption; try lia.
      simpl in Hlen. lia.
    + destruct (shaped_index N rest cv i Hsh Hi) as (c' & -> & Hc').
      apply IH with rest; try assumption; try lia.
      simpl in Hlen. lia.
Qed.

Hypothesis Hpos : (0 < D)%nat.
Hypothesis Hshape : shaped (firstn D (gN this)) (data this) = true.

Lemma dims_length : length (firstn D (gN this)) = D.
Proof.
  rewrite length_firstn. apply Nat.min_l.
  destruct (axis_in (D - 1)) as [s Hs]; [apply in_seq; lia |].
  destruct (Hcov _ s Hs) as (_ & _ & N & _ & _ & _ & HN & _).
  assert (D - 1 < length (gN this))%nat
    by (apply nth_error_Some; congruence).
  lia.
Qed.

Lemma corner_term_defined (c : Z) :
  exists t, corner_term this D dL dH lo hi c = Some t.
Proof.
  unfold corner_term.
  destruct (data this) as [v | elems] eqn:Hdata.
  - exfalso. destruct (firstn D (gN this)) eqn:E.
    + pose proof dims_length as Hl. rewrite E in Hl. simpl in Hl. lia.
    + discriminate.
  - destruct (walk_defined c D 0 (firstn D (gN this)) 1 (Arr elems))
      as (vol & v & ->).
    + lia.
    + apply dims_length.
    + intros x Hx. rewrite nth_error_firstn.
      replace (x <? D)%nat with true by (symmetry; apply Nat.ltb_lt; lia).
      reflexivity.
    + exact Hshape.
    + simpl. eauto.
Qed.

Lemma weighted_sum_defined :
  exists w, weighted_sum this D dL dH lo hi = Some w.
Proof.
  unfold weighted_sum. generalize (0 : Q).
  induction (corners D) as [| c cs IH]; intro acc; simpl.
  - eauto.
  - destruct (corner_term_defined c) as [t ->]. apply IH.
Qed.

Lemma total_volume_defined (n a : nat) (t : Q) :
  (a + n <= D)%nat -> ~ t == 0 ->
  exists T,
    fold_left
      (fun total xDim =>
         match total, nth_error (gdx this) xDim with
         | Some t, Some dx => Some (t * dx)
         | _, _ => None
         end) (seq a n) (Some t) = Some T
    /\ ~ T == 0.
Proof.
  revert a t. induction n as [| n IH]; intros a t Ha Ht; simpl.
  - exists t. split; [reflexivity | exact Ht].
  - destruct (axis_in a) as [s Hs]; [apply in_seq; lia |].
    destruct (Hcov a s Hs) as (m & dx & N & _ & Hdx & Hnz & _).
    rewrite Hdx. apply IH; [lia |].
    intro H. apply Qmult_integral in H. tauto.
Qed.

(** On a grid that covers the state and whose data is a full grid of
    numbers, [value] answers a number. *)
Lemma value_defined : exists v, value this states = Some v.
Proof.
  rewrite value_entries. unfold finish.
  destruct weighted_sum_defined as [w ->].
  destruct (total_volume_defined D 0 1) as (T & HT & HTnz);
    [lia | discriminate |].
  unfold total_volume. rewrite HT.
  destruct (Qeq_bool T 0) eqn:E;
    [apply Qeq_bool_iff in E; contradiction |].
  eauto.
Qed.

End ValueDefined.

(** C8, amended.  On a grid whose axis [d] is periodic, take a state that
    the grid covers and whose copy shifted by one full period
    [gN[d]*gdx[d]] along [d] has its low and its high index within one
    period above the index range (in [0 .. 2*gN[d] - 1]): the one wrap of
    [value] brings both back onto the grid.  When the data is a full grid
    of numbers and the arithmetic is exact in binary64 (at most four axes,
    and the grid, the state, its copy and the data made of multiples of
    1/16 between -16 and 16), [value] answers a number at the state, a
    number at the copy, and the two are equal.  Where [value] rounds, the
    copy can fall into another cell than the state: on a grid of spacing
    0.1 from 0, with ten points, the state 0.2 is on the grid line 2, but
    for its copy [0.2 + 10*0.1] the quotient is 11.999999999999998, in
    cell 11. *)
Theorem loaded_SafeSet_value_periodic (this : loaded_SafeSet.reachset)
  (states : list Q) (d : nat) (s m dx : Q) (N : Z) :
  nth_error states d = Some s ->
  nth_error (loaded_SafeSet.gmin this) d = Some m ->
  nth_error (loaded_SafeSet.gdx this) d = Some dx ->
  nth_error (loaded_SafeSet.gN this) d = Some N ->
  nth_error (loaded_SafeSet.gperiodicity this) d = Some true ->
  covered this states ->
  shaped (firstn (length states) (loaded_SafeSet.gN this))
    (loaded_SafeSet.data this) = true ->
  (0 <= Qfloor ((s + inject_Z N * dx - m) / dx))%Z ->
  (Qceiling ((s + inject_Z N * dx - m) / dx) < 2 * N)%Z ->
  (length states <= 4)%nat ->
  exact_axes this states = true ->
  sixteenth (s + inject_Z N * dx) = true ->
  all_values sixteenth (loaded_SafeSet.data this) = true ->
  exists v v',
    loaded_SafeSet.value this (shift states d (inject_Z N * dx)) = Some v'
    /\ loaded_SafeSet.value this states = Some v
    /\ v' == v.
Proof.
  intros Hs Hm Hdx HN Hper Hcov Hshape Hlow Hhigh _ _ _ _.
  assert (Hpos : (0 < length states)%nat).
  { assert (d < length states)%nat by (apply nth_error_Some; congruence).
    lia. }
  destruct (value_defined this states Hcov Hpos Hshape) as [v Hv].
  assert (H := value_period this states d s m dx N Hs Hm Hdx HN Hper
                 Hlow Hhigh).
  rewrite Hv in H.
  destruct (loaded_SafeSet.value this
              (shift states d (inject_Z N * dx))) as [v' |];
    [| contradiction].
  exists v, v'. auto.
Qed.

(** The amended C8 on [ring_grid] at the state (3/4, 1/2) and its copy
    (11/4, 1/2). *)
Lemma loaded_SafeSet_value_periodic_witness :
  exists v v',
    loaded_SafeSet.value ring_grid
      (shift [3 # 4; 1 # 2] 0 (inject_Z 4 * (1 # 2))) = Some v'
    /\ loaded_SafeSet.value ring_grid [3 # 4; 1 # 2] = Some v
    /\ v' == v.
Proof.
  apply (loaded_SafeSet_value_periodic ring_grid [3 # 4; 1 # 2] 0
           (3 # 4) 0 (1 # 2) 4);
    try reflexivity; try (vm_compute; discriminate); try (simpl; lia).
  intros [| [| x]] s0 Hs; simpl in Hs; try (destruct x; discriminate);
    injection Hs as <-.
  - exists 0, (1 # 2), 4%Z.
    repeat split; try reflexivity; try lia; try discriminate.
  - exists 0, 1, 2%Z.
    repeat split; try reflexivity; try lia; try discriminate.
Defined.

(** ** robot_dynamics.js: the dynamical update *)

(** What is handed to [dynamics] as [u]: a control vector, or, from the PD
    controller, the bare number [lastU] (which may be [NaN]). *)
Inductive control : Type :=
| Vector (u : jsarray Q)
| Number (lastU : option Q).

(** [l[i] = v] for an index inside the array. *)
Fixpoint set_nth {A : Type} (l : list A) (i : nat) (v : A) : list A :=
  match l, i with
  | [], _ => []
  | _ :: t, O => v :: t
  | h :: t, S j => h :: set_nth t j v
  end.

Module RobotDynamics.

(** A robot with its drift: [driftDynamics()] reads the state. *)
Record t : Type := Build {
  robot : Robot.t;
  drift : list Q -> jsarray Q
}.

Definition states (this : t) : list Q := Robot.states (robot this).

(** The same robot after an assignment to [this.states]. *)
Definition with_states (this : t) (states : list Q) : t :=
  Build (Robot.Build states (Robot.coefficient (robot this))) (drift this).

Definition driftDynamics (this : t) : jsarray Q := drift this (states this).

(** [u.length] as the bound of a loop: a number has no length, and the
    loop does not run. *)
Definition steps (u : control) : nat :=
  match u with
  | Vector a => length a
  | Number _ => 0
  end.

Definition entry (u : control) (uNum : nat) : option Q :=
  match u with
  | Vector a => js_get a uNum
  | Number _ => None
  end.

(** [dynamics(u,stateNum)]: the drift, then the control-affine term.  A
    missing row of the coefficient matrix is a [TypeError]; a missing
    coefficient, a hole of [u] and a missing drift entry give [NaN]. *)
Definition dynamics (this : t) (u : control) (stateNum : nat) : option Q :=
  fold_left
    (fun result uNum =>
       match result, nth_error (Robot.controlCoefficient (robot this)) uNum,
             entry u uNum with
       | Some r, Some row, Some c =>
           match nth_error row stateNum with
           | Some b => Some (r + b * c)
           | None => None
           end
       | _, _, _ => None
       end)
    (seq 0 (steps u)) (js_get (driftDynamics this) stateNum).

(** The loop of [dynamicUpdate(delT,u)]: the state is updated in place, one
    coordinate after the other, so that [dynamics] sees the coordinates
    already updated. *)
Fixpoint update_loop (this : t) (delT : Q) (u : control)
  (curDims : list nat) : option t :=
  match curDims with
  | [] => Some this
  | curDim :: rest =>
      match nth_error (states this) curDim, dynamics this u curDim with
      | Some s, Some d =>
          update_loop
            (with_states this (set_nth (states this) curDim (s + d * delT)))
            delT u rest
      | _, _ => None
      end
  end.

(** [Robot.dynamicUpdate(delT,u)]; [None] when a coordinate of the state
    stops being a finite number. *)
Definition dynamicUpdate (this : t) (delT : Q) (u : control) : option t :=
  update_loop this delT u (seq 0 (length (states this))).

Definition QuadrotorRobot (initial_state : list Q) : t :=
  Build (Robot.QuadrotorRobot initial_state)
    (fun states => [nth_error states 1; Some 0; nth_error states 3; Some 0]).

Definition VerticalQuadrotorRobot (initial_state : list Q) : t :=
  Build (Robot.VerticalQuadrotorRobot initial_state)
    (fun states => [nth_error states 1; Some 0]).

End RobotDynamics.

(** Two states agree coordinate by coordinate. *)
Definition states_eq (a b : list Q) : Prop := Forall2 Qeq a b.

(** X16: Although the state is updated in place, the update of the quadrotor is
    the explicit Euler step of two double integrators: each position moves
    by the old velocity, each velocity by its control input. *)
Theorem QuadrotorRobot_dynamicUpdate_euler (p v q w a b delT : Q) :
  opt_rel states_eq
    (option_map RobotDynamics.states
       (RobotDynamics.dynamicUpdate
          (RobotDynamics.QuadrotorRobot [p; v; q; w]) delT
          (Vector [Some a; Some b])))
    (Some [p + v * delT; v + a * delT; q + w * delT; w + b * delT]).
Proof.
  simpl. repeat constructor; simpl; ring.
Qed.

(** X17: The control vector that the safe controller leaves with a hole (C3)
    destroys the state of the quadrotor: when the momentum has a zero second
    component and a nonzero fourth one, the first control output is
    [undefined], the dynamics are [NaN], and the updated state is no longer
    a vector of finite numbers. *)
Theorem QuadrotorRobot_update_after_hole (safer : Safe_Contr.t)
  (p v q w delT m0 m1 m2 m3 : Q) :
  m1 == 0 -> ~ m3 == 0 ->
  let quad := RobotDynamics.QuadrotorRobot [p; v; q; w] in
  let u := Safe_Contr.u safer (RobotDynamics.robot quad) [m0; m1; m2; m3] in
  js_get u 0 = None
  /\ length u = 2%nat
  /\ RobotDynamics.dynamics quad (Vector u) 0 = None
  /\ RobotDynamics.dynamicUpdate quad delT (Vector u) = None.
Proof.
  intros H1 H3. cbv zeta.
  assert (Hu : exists c, Safe_Contr.u safer
                 (RobotDynamics.robot
                    (RobotDynamics.QuadrotorRobot [p; v; q; w]))
                 [m0; m1; m2; m3] = [None; Some c]).
  { unfold Safe_Contr.u, Safe_Contr.u_step. simpl.
    unfold Safe_Contr.dotProduct. simpl.
    unfold Safe_Contr.gt0, Safe_Contr.lt0.
    ltb_cases; try (exfalso; lra); simpl; eauto. }
  destruct Hu as [c ->]. repeat split; reflexivity.
Qed.

Lemma QuadrotorRobot_update_after_hole_witness :
  let quad := RobotDynamics.QuadrotorRobot [0; 0; 3; 1] in
  let u :=
    Safe_Contr.u (Safe_Contr.Build 1) (RobotDynamics.robot quad)
      [1; 0; 0; - (1)] in
  js_get u 0 = None
  /\ length u = 2%nat
  /\ RobotDynamics.dynamics quad (Vector u) 0 = None
  /\ RobotDynamics.dynamicUpdate quad (1 # 100) (Vector u) = None.
Proof.
  apply (QuadrotorRobot_update_after_hole (Safe_Contr.Build 1)
           0 0 3 1 (1 # 100) 1 0 0 (- (1)));
    [reflexivity | discriminate].
Defined.

(** X18: On a robot with a single control input the same zero dot product leaves
    the control vector empty, and the update coasts: the vertical quadrotor
    moves by its velocity and keeps it. *)
Theorem VerticalQuadrotorRobot_coasts (safer : Safe_Contr.t)
  (p v delT m0 m1 : Q) :
  m1 == 0 ->
  let quad := RobotDynamics.VerticalQuadrotorRobot [p; v] in
  let u := Safe_Contr.u safer (RobotDynamics.robot quad) [m0; m1] in
  u = []
  /\ opt_rel states_eq
       (option_map RobotDynamics.states
          (RobotDynamics.dynamicUpdate quad delT (Vector u)))
       (Some [p + v * delT; v]).
Proof.
  intro H1. cbv zeta.
  assert (Hu : Safe_Contr.u safer
                 (RobotDynamics.robot
                    (RobotDynamics.VerticalQuadrotorRobot [p; v]))
                 [m0; m1] = []).
  { unfold Safe_Contr.u, Safe_Contr.u_step. simpl.
    unfold Safe_Contr.dotProduct. simpl.
    unfold Safe_Contr.gt0, Safe_Contr.lt0.
    ltb_cases; try (exfalso; lra); reflexivity. }
  rewrite Hu. split; [reflexivity |].
  simpl. repeat constructor; simpl; ring.
Qed.

Lemma VerticalQuadrotorRobot_coasts_witness :
  let quad := RobotDynamics.VerticalQuadrotorRobot [3; 1] in
  let u := Safe_Contr.u (Safe_Contr.Build 1) (RobotDynamics.robot quad)
             [1; 0] in
  u = []
  /\ opt_rel states_eq
       (option_map RobotDynamics.states
          (RobotDynamics.dynamicUpdate quad (1 # 100) (Vector u)))
       (Some [3 + 1 * (1 # 100); 1]).
Proof.
  apply (VerticalQuadrotorRobot_coasts (Safe_Contr.Build 1) 3 1 (1 # 100)
           1 0).
  reflexivity.
Defined.

(** ** controllers.js: the tracking controllers *)

Module PD_Contr.

Record t : Type := Build {
  setpoint : Q;
  K_P : Q;
  K_D : Q;
  controlledState : nat;
  lastU : option Q
}.

(** The constructor: both gains are -2 and [lastU] starts at 0. *)
Definition new (_set : Q) (_controlledState : nat) : t :=
  Build _set (- (2)) (- (2)) _controlledState (Some 0).

Definition updateSetpoint (this : t) (_set : Q) : t :=
  Build _set (K_P this) (K_D this) (controlledState this) (lastU this).

(** [u()]: the output [[resultU]] and the controller with [lastU]
    updated. *)
Definition u (this : t) (robot : RobotDynamics.t) : jsarray Q * t :=
  let P :=
    match nth_error (RobotDynamics.states robot) (controlledState this) with
    | Some x => Some (K_P this * (x - setpoint this))
    | None => None
    end in
  let D :=
    match RobotDynamics.dynamics robot (Number (lastU this))
            (controlledState this) with
    | Some d => Some (K_D this * d)
    | None => None
    end in
  let resultU :=
    match P, D with
    | Some p, Some d => Some (p + d)
    | _, _ => None
    end in
  ([resultU],
   Build (setpoint this) (K_P this) (K_D this) (controlledState this)
     resultU).

(** The PD controller as a [Controller], for a robot of the given drift. *)
Definition as_Controller (drift : list Q -> jsarray Q) : Controller.t t :=
  Controller.Build
    (fun robot this =>
       u this (RobotDynamics.Build robot drift)).

End PD_Contr.

(** X19: The derivative term of the PD controller is computed from the drift
    alone: [lastU] is handed to [dynamics] as a number, which has no
    [length], so that the control-affine term is never added.  Hence the
    output does not depend on the stored [lastU], whatever the robot and
    its coefficient matrix, and two calls in the same state answer the same
    output. *)
Theorem PD_Contr_output (this : PD_Contr.t) (robot : RobotDynamics.t)
  (remembered : option Q) :
  let other :=
    PD_Contr.Build (PD_Contr.setpoint this) (PD_Contr.K_P this)
      (PD_Contr.K_D this) (PD_Contr.controlledState this) remembered in
  let cs := PD_Contr.controlledState this in
  fst (PD_Contr.u this robot) =
  [match nth_error (RobotDynamics.states robot) cs,
         js_get (RobotDynamics.driftDynamics robot) cs with
   | Some x, Some f =>
       Some (PD_Contr.K_P this * (x - PD_Contr.setpoint this)
             + PD_Contr.K_D this * f)
   | _, _ => None
   end]
  /\ fst (PD_Contr.u other robot) = fst (PD_Contr.u this robot)
  /\ fst (PD_Contr.u (snd (PD_Contr.u this robot)) robot)
     = fst (PD_Contr.u this robot)
  /\ fst (PD_Contr.u this robot)
     = [PD_Contr.lastU (snd (PD_Contr.u this robot))].
Proof.
  cbv zeta. unfold PD_Contr.u, RobotDynamics.dynamics. simpl.
  repeat split.
  destruct (nth_error (RobotDynamics.states robot)
              (PD_Contr.controlledState this));
    destruct (js_get (RobotDynamics.driftDynamics robot)
                (PD_Contr.controlledState this));
    reflexivity.
Qed.

Module Concat_Contr.

(** A controller object: a controller together with its memory. *)
Record object : Type := Object {
  Mem : Type;
  contr : Controller.t Mem;
  mem : Mem
}.

(** [object.u()]. *)
Definition call (o : object) (robot : Robot.t) : jsarray Q * object :=
  let '(out, m) := Controller.u (contr o) robot (mem o) in
  (out, Object (Mem o) (contr o) m).

(** The loop of [u()]: [uResultant[curU] = (this.controllers[curU]).u()[0]],
    each controller updating its own memory. *)
Fixpoint u_loop (controllers : list object) (robot : Robot.t)
  : jsarray Q * list object :=
  match controllers with
  | [] => ([], [])
  | o :: rest =>
      let '(out, o') := call o robot in
      let '(uResultant, rest') := u_loop rest robot in
      (js_get out 0 :: uResultant, o' :: rest')
  end.

Definition u (controllers : list object) (robot : Robot.t)
  : jsarray Q * list object :=
  u_loop controllers robot.

(** The concatenation as a [Controller] whose memory is its array of
    controllers. *)
Definition as_Controller : Controller.t (list object) :=
  Controller.Build (fun robot controllers => u controllers robot).

End Concat_Contr.

(** X20: The concatenated controller answers one entry per controller, the
    first output of that controller on the shared robot, and keeps as many
    controllers as it had. *)
Theorem Concat_Contr_entries (controllers : list Concat_Contr.object)
  (robot : Robot.t) :
  length (fst (Concat_Contr.u controllers robot)) = length controllers
  /\ length (snd (Concat_Contr.u controllers robot)) = length controllers
  /\ forall curU o, nth_error controllers curU = Some o ->
       nth_error (fst (Concat_Contr.u controllers robot)) curU
       = Some (js_get (fst (Concat_Contr.call o robot)) 0)
       /\ nth_error (snd (Concat_Contr.u controllers robot)) curU
          = Some (snd (Concat_Contr.call o robot)).
Proof.
  unfold Concat_Contr.u.
  induction controllers as [| o rest IH]; simpl.
  - split; [reflexivity |]. split; [reflexivity |].
    intros [| k] o' H; discriminate H.
  - destruct (Concat_Contr.call o robot) as [out o'] eqn:Ho.
    destruct (Concat_Contr.u_loop rest robot) as [res rest'] eqn:Hr.
    simpl in *. destruct IH as (H1 & H2 & H3).
    split; [f_equal; exact H1 |]. split; [f_equal; exact H2 |].
    intros [| k] o0 Hnth; simpl in Hnth.
    + injection Hnth as <-. rewrite Ho. auto.
    + apply H3. exact Hnth.
Qed.

(** The tracker of the quadrotor set-up that interactiveDubins.js keeps in
    a comment: one PD controller on the horizontal position (state 0) and
    one on the vertical position (state 2), concatenated. *)
Definition quadrotor_tracker (goalX goalY : Q) : list Concat_Contr.object :=
  let drift := RobotDynamics.drift (RobotDynamics.QuadrotorRobot []) in
  [Concat_Contr.Object PD_Contr.t (PD_Contr.as_Controller drift)
     (PD_Contr.new goalX 0);
   Concat_Contr.Object PD_Contr.t (PD_Contr.as_Controller drift)
     (PD_Contr.new goalY 2)].

(** X21: One tick of the quadrotor while it is safe.  When the safety value is
    not below the trigger level, the intervention controller hands out the
    tracker's control, on each axis the PD law
    [-2 (position - goal) - 2 velocity], and the dynamical update is the
    Euler step under that control. *)
Theorem quadrotor_tracking_tick (set : SafeSet.t) (trigger maxU : Q)
  (x vx y vy goalX goalY delT : Q) :
  trigger <= SafeSet.value set [x; vx; y; vy] ->
  let quad := RobotDynamics.QuadrotorRobot [x; vx; y; vy] in
  let contr :=
    Intervention_Contr.Build Concat_Contr.as_Controller
      (Safe_Contr.Build maxU) set trigger in
  let ux := - (2) * (x - goalX) + - (2) * vx in
  let uy := - (2) * (y - goalY) + - (2) * vy in
  let u :=
    fst (Intervention_Contr.u contr (RobotDynamics.robot quad)
           (quadrotor_tracker goalX goalY)) in
  u = [Some ux; Some uy]
  /\ opt_rel states_eq
       (option_map RobotDynamics.states
          (RobotDynamics.dynamicUpdate quad delT (Vector u)))
       (Some [x + vx * delT; vx + ux * delT; y + vy * delT; vy + uy * delT]).
Proof.
  intro Hsafe. cbv zeta.
  assert (Hu : fst (Intervention_Contr.u
                      (Intervention_Contr.Build Concat_Contr.as_Controller
                         (Safe_Contr.Build maxU) set trigger)
                      (RobotDynamics.robot
                         (RobotDynamics.QuadrotorRobot [x; vx; y; vy]))
                      (quadrotor_tracker goalX goalY))
               = [Some (- (2) * (x - goalX) + - (2) * vx);
                  Some (- (2) * (y - goalY) + - (2) * vy)]).
  { unfold Intervention_Contr.u.
    cbn [Intervention_Contr.intervening_set Intervention_Contr.trigger_level
         Intervention_Contr.tracker RobotDynamics.robot
         RobotDynamics.QuadrotorRobot Robot.states Robot.QuadrotorRobot].
    rewrite (proj2 (Qltb_ge _ _) Hsafe). reflexivity. }
  rewrite Hu. split; [reflexivity |].
  simpl. repeat constructor; simpl; ring.
Qed.

Lemma quadrotor_tracking_tick_witness :
  let set := SafeSet.Build (fun _ => 5) (fun _ => [1; 0; 0; 0]) in
  let quad := RobotDynamics.QuadrotorRobot [- (6); 0; 3; 0] in
  let contr :=
    Intervention_Contr.Build Concat_Contr.as_Controller
      (Safe_Contr.Build 1) set 0 in
  let ux := - (2) * (- (6) - 1) + - (2) * 0 in
  let uy := - (2) * (3 - - (4)) + - (2) * 0 in
  let u :=
    fst (Intervention_Contr.u contr (RobotDynamics.robot quad)
           (quadrotor_tracker 1 (- (4)))) in
  u = [Some ux; Some uy]
  /\ opt_rel states_eq
       (option_map RobotDynamics.states
          (RobotDynamics.dynamicUpdate quad (1 # 100) (Vector u)))
       (Some [- (6) + 0 * (1 # 100); 0 + ux * (1 # 100);
              3 + 0 * (1 # 100); 0 + uy * (1 # 100)]).
Proof.
  apply (quadrotor_tracking_tick
           (SafeSet.Build (fun _ => 5) (fun _ => [1; 0; 0; 0])) 0 1
           (- (6)) 0 3 0 1 (- (4)) (1 # 100)).
  discriminate.
Defined.

(** ** robot_dynamics.js: the Dubins car *)

Module DubinsRobot.

Section Trigonometry.

(** [Math.cos] and [Math.sin], as functions on the numbers. *)
Variables cos sin : Q -> Q.

(** [Math.PI], the binary64 number nearest to pi. *)
Definition Math_PI : Q := 884279719003555 # 281474976710656.

(** [new DubinsRobot(initial_state,velocity,tint)]: the car moves at
    [speed] along its heading, [states[2]]; an absent heading makes both
    velocities [NaN]. *)
Definition new (initial_state : list Q) (velocity : Q) : RobotDynamics.t :=
  RobotDynamics.Build (Robot.DubinsRobot initial_state)
    (fun states =>
       [option_map (fun heading => velocity * cos heading) (nth_error states 2);
        option_map (fun heading => velocity * sin heading) (nth_error states 2);
        Some 0]).

(** [if(this.states[2] > Math.PI) this.states[2] -= 2*Math.PI]. *)
Definition wrap_down (this : RobotDynamics.t) : RobotDynamics.t :=
  match nth_error (RobotDynamics.states this) 2 with
  | Some heading =>
      if Qltb Math_PI heading
      then RobotDynamics.with_states this
             (set_nth (RobotDynamics.states this) 2 (heading - 2 * Math_PI))
      else this
  | None => this
  end.

(** [if(this.states[2] < -Math.PI) this.states[2] += 2*Math.PI]. *)
Definition wrap_up (this : RobotDynamics.t) : RobotDynamics.t :=
  match nth_error (RobotDynamics.states this) 2 with
  | Some heading =>
      if Qltb heading (- Math_PI)
      then RobotDynamics.with_states this
             (set_nth (RobotDynamics.states this) 2 (heading + 2 * Math_PI))
      else this
  | None => this
  end.

(** [dynamicUpdate(delT,u)]: the update loop, then the two wraps of the
    heading, one after the other. *)
Definition dynamicUpdate (this : RobotDynamics.t) (delT : Q) (u : control)
  : option RobotDynamics.t :=
  match RobotDynamics.dynamicUpdate this delT u with
  | Some moved => Some (wrap_up (wrap_down moved))
  | None => None
  end.

End Trigonometry.

End DubinsRobot.

(** X22: One update of the Dubins car.  The position moves along the heading
    the car had before the update; when that heading lies between
    [-Math.PI] and [Math.PI] and the turn of the tick is at most a full
    turn either way, the new heading lies between [-Math.PI] and [Math.PI]
    again and differs from the unwrapped heading by no turn or by one full
    turn. *)
Theorem DubinsRobot_heading_wrapped (cos sin : Q -> Q)
  (x y heading speed omega delT : Q) :
  - DubinsRobot.Math_PI <= heading <= DubinsRobot.Math_PI ->
  - (2 * DubinsRobot.Math_PI) <= omega * delT <= 2 * DubinsRobot.Math_PI ->
  exists x' y' heading',
    option_map RobotDynamics.states
      (DubinsRobot.dynamicUpdate
         (DubinsRobot.new cos sin [x; y; heading] speed) delT
         (Vector [Some omega]))
    = Some [x'; y'; heading']
    /\ x' == x + speed * cos heading * delT
    /\ y' == y + speed * sin heading * delT
    /\ - DubinsRobot.Math_PI <= heading' <= DubinsRobot.Math_PI
    /\ (heading' == heading + omega * delT
        \/ heading' == heading + omega * delT - 2 * DubinsRobot.Math_PI
        \/ heading' == heading + omega * delT + 2 * DubinsRobot.Math_PI).
Proof.
  intros Hh Ht.
  assert (Hpi : 0 < DubinsRobot.Math_PI) by reflexivity.
  set (pi := DubinsRobot.Math_PI) in *.
  set (x1 := x + (speed * cos heading + 0 * omega) * delT).
  set (y1 := y + (speed * sin heading + 0 * omega) * delT).
  set (h1 := heading + (0 + 1 * omega) * delT).
  assert (Hmoved :
    RobotDynamics.dynamicUpdate
      (DubinsRobot.new cos sin [x; y; heading] speed) delT
      (Vector [Some omega])
    = Some (RobotDynamics.with_states
              (DubinsRobot.new cos sin [x; y; heading] speed) [x1; y1; h1]))
    by reflexivity.
  unfold DubinsRobot.dynamicUpdate. rewrite Hmoved.
  unfold DubinsRobot.wrap_down.
  cbn [nth_error RobotDynamics.states RobotDynamics.with_states
       RobotDynamics.robot Robot.states set_nth].
  fold pi.
  destruct (Qltb pi h1) eqn:Hdown.
  - apply Qltb_lt in Hdown.
    unfold DubinsRobot.wrap_up.
    cbn [nth_error RobotDynamics.states RobotDynamics.with_states
         RobotDynamics.robot Robot.states set_nth].
    fold pi.
    destruct (Qltb (h1 - 2 * pi) (- pi)) eqn:Hup.
    + apply Qltb_lt in Hup. exfalso. lra.
    + apply Qltb_ge in Hup.
      exists x1, y1, (h1 - 2 * pi).
      split; [reflexivity |].
      unfold x1, y1, h1 in *.
      repeat split; try lra; try ring.
  - apply Qltb_ge in Hdown.
    unfold DubinsRobot.wrap_up.
    cbn [nth_error RobotDynamics.states RobotDynamics.with_states
         RobotDynamics.robot Robot.states set_nth].
    fold pi.
    destruct (Qltb h1 (- pi)) eqn:Hup.
    + apply Qltb_lt in Hup.
      exists x1, y1, (h1 + 2 * pi).
      split; [reflexivity |].
      unfold x1, y1, h1 in *.
      repeat split; try lra; try ring.
    + apply Qltb_ge in Hup.
      exists x1, y1, h1.
      split; [reflexivity |].
      unfold x1, y1, h1 in *.
      repeat split; try lra; try ring.
Qed.

Lemma DubinsRobot_heading_wrapped_witness :
  exists x' y' heading',
    option_map RobotDynamics.states
      (DubinsRobot.dynamicUpdate
         (DubinsRobot.new (fun _ => 1) (fun _ => 0) [0; 0; 3] 1) 1
         (Vector [Some 1]))
    = Some [x'; y'; heading']
    /\ x' == 0 + 1 * 1 * 1
    /\ y' == 0 + 1 * 0 * 1
    /\ - DubinsRobot.Math_PI <= heading' <= DubinsRobot.Math_PI
    /\ (heading' == 3 + 1 * 1
        \/ heading' == 3 + 1 * 1 - 2 * DubinsRobot.Math_PI
        \/ heading' == 3 + 1 * 1 + 2 * DubinsRobot.Math_PI).
Proof.
  apply (DubinsRobot_heading_wrapped (fun _ => 1) (fun _ => 0) 0 0 3 1 1 1).
  - split; discriminate.
  - split; discriminate.
Defined.
